(** * Infeasible path-following interior point method for primal-form LPs

    A shallow embedding of [El::lp::primal::IPF]
    (src/optimization/LP/primal/IPM/IPF.cpp) in exact real arithmetic.

    - The routine is a template over [Real]; here [Real] is the type [R]
      of real numbers, so every primitive is exact.
    - Column vectors ([Matrix<Real>], [DistMatrix<Real>] and
      [DistMultiVec<Real>] of width one) are lists of reals; a constraint
      matrix is a list of rows with an explicit width.  How a matrix is
      stored or distributed over a process grid cannot be observed in
      exact arithmetic, so the four overloads share these data types.
    - The in/out arguments x, y, z are threaded through the loop as the
      iterate; an exception leaves the caller with the iterate of the
      pass that raised.
    - The routines of Elemental that IPF.cpp calls and that are not under
      src/ are either modelled from the specification (BLAS-like
      primitives, the KKT builders and expanders) or parameters of the
      model (initializer, line search, dense solver, sparse-direct
      pipeline).
    - A log of collaborator calls is kept as ghost state, so that "which
      work was done, and with which arguments" can be stated.
    - Diagnostic output ([ctrl.print]) and the residual cross-checks under
      [#ifndef EL_RELEASE], which only print, are not part of the state. *)

From Stdlib Require Import Reals Lra Psatz List ZArith Lia Bool.
Import ListNotations.

Open Scope R_scope.

(** ** Vectors, matrices and the BLAS-like primitives *)

Module LinAlg.

(** A column vector. *)
Abbreviation Vec := (list R) (only parsing).

Record Matrix : Type := mkMatrix {
  Width : nat;
  Rows : list Vec
}.

Definition Height (A : Matrix) : nat := length (Rows A).

(** Every row of a well-formed matrix has [Width] entries. *)
Definition wfMatrix (A : Matrix) : Prop :=
  Forall (fun r => length r = Width A) (Rows A).

Inductive Orientation : Type := NORMAL | TRANSPOSE.

(** Entrywise combination of two column vectors.  Elemental requires
    conformal operands; on non-conformal ones the model stops at the
    shorter operand. *)
Fixpoint zipWith (f : R -> R -> R) (u v : Vec) : Vec :=
  match u, v with
  | a :: u', b :: v' => f a b :: zipWith f u' v'
  | _, _ => []
  end.

(** Modelled from the spec: [Zeros] (El.hpp is not under src/): the
    all-zero column vector of a given height. *)
Definition Zeros (n : nat) : Vec := repeat 0 n.

(** Modelled from the spec: [Dot] (El.hpp is not under src/): the exact
    dot product of two real column vectors. *)
Fixpoint Dot (u v : Vec) : R :=
  match u, v with
  | a :: u', b :: v' => a * b + Dot u' v'
  | _, _ => 0
  end.

(** Modelled from the spec: [Nrm2] (El.hpp is not under src/): the exact
    Euclidean norm. *)
Definition Nrm2 (v : Vec) : R := sqrt (Dot v v).

(** Modelled from the spec: [Abs] on a real scalar. *)
Definition Abs (a : R) : R := Rabs a.

(** Modelled from the spec: [Scale( alpha, x )], x := alpha x. *)
Definition Scale (alpha : R) (v : Vec) : Vec := map (fun a => alpha * a) v.

(** Modelled from the spec: [Axpy( alpha, x, y )], y := alpha x + y. *)
Definition Axpy (alpha : R) (u v : Vec) : Vec :=
  zipWith (fun a b => alpha * a + b) u v.

(** Modelled from the spec: [Shift( x, alpha )] adds alpha to every
    entry. *)
Definition Shift (v : Vec) (alpha : R) : Vec := map (fun a => a + alpha) v.

(** Modelled from the spec: [DiagonalScale( LEFT, NORMAL, d, x )],
    x := diag(d) x, the entrywise product for a column vector. *)
Definition DiagonalScale (d v : Vec) : Vec := zipWith Rmult d v.

(** Modelled from the spec: [DiagonalSolve], x := diag(d)^{-1} x. *)
Definition DiagonalSolve (d v : Vec) : Vec := zipWith (fun a b => b / a) d v.

(** The product [A v], one dot product per row. *)
Definition MatVec (A : Matrix) (v : Vec) : Vec :=
  map (fun r => Dot r v) (Rows A).

(** The product [A^T w], accumulated row by row. *)
Fixpoint rowsTVec (n : nat) (rows : list Vec) (w : Vec) : Vec :=
  match rows, w with
  | r :: rows', b :: w' =>
      zipWith (fun a t => b * a + t) r (rowsTVec n rows' w')
  | _, _ => Zeros n
  end.

Definition MatTVec (A : Matrix) (w : Vec) : Vec :=
  rowsTVec (Width A) (Rows A) w.

(** Modelled from the spec: [Gemv( orientation, alpha, A, x, beta, y )],
    y := alpha op(A) x + beta y (El.hpp is not under src/); the sparse
    [Multiply] has the same contract. *)
Definition Gemv (o : Orientation) (alpha : R) (A : Matrix) (v : Vec)
    (beta : R) (w : Vec) : Vec :=
  let Av := match o with NORMAL => MatVec A v | TRANSPOSE => MatTVec A v end in
  zipWith (fun s b => alpha * s + beta * b) Av w.

Definition nonPositive (a : R) : bool :=
  if Rle_dec a 0 then true else false.

(** Modelled from the spec: [NumNonPositive] (El.hpp is not under src/):
    the number of entries that are not strictly positive. *)
Definition NumNonPositive (v : Vec) : Z :=
  Z.of_nat (length (filter nonPositive v)).

(** Modelled from the spec: [MaxNorm], the largest absolute entry. *)
Definition MaxNorm (A : Matrix) : R :=
  fold_right (fun r acc => fold_right (fun a acc' => Rmax (Rabs a) acc') acc r)
             0 (Rows A).

End LinAlg.
Export LinAlg.

(** ** The three Newton systems and their expansions

    [KKT], [KKTRHS], [AugmentedKKT], [AugmentedKKTRHS], [NormalKKT],
    [NormalKKTRHS] and the three [Expand...] routines are declared in
    ./util.hpp, which is not under src/.  They are modelled from
    sections 4.2 and 4.4 of the specification, together with the residual
    cross-checks of IPF.cpp (lines 149-180), which fix the Newton system
    the direction has to satisfy:
      A dx = -r_b,   A^T dy - dz = -r_c,   x o dz + z o dx = -r_mu. *)

Module KKTUtil.

Inductive KKTSystem : Type := FULL_KKT | AUGMENTED_KKT | NORMAL_KKT.

(** Rows of the m x n zero block. *)
Definition zeroRows (m n : nat) : list Vec := repeat (Zeros n) m.

(** Rows of diag(d). *)
Fixpoint diagRows (d : Vec) : list Vec :=
  match d with
  | [] => []
  | a :: d' => (a :: Zeros (length d')) :: map (cons 0) (diagRows d')
  end.

(** Horizontal concatenation [P | Q] of two blocks with equally many rows. *)
Fixpoint hcat (P Q : list Vec) : list Vec :=
  match P, Q with
  | p :: P', q :: Q' => (p ++ q) :: hcat P' Q'
  | _, _ => []
  end.

(** Put the entries of [r] in front of the rows of [T], one each. *)
Fixpoint consCols (r : Vec) (T : list Vec) : list Vec :=
  match r, T with
  | a :: r', t :: T' => (a :: t) :: consCols r' T'
  | _, _ => []
  end.

(** Rows of the transpose of a block of width [n]. *)
Fixpoint transposeRows (n : nat) (rows : list Vec) : list Vec :=
  match rows with
  | [] => repeat [] n
  | r :: rows' => consCols r (transposeRows n rows')
  end.

Definition minusOnes (n : nat) : Vec := repeat (-1) n.

(** Modelled from the spec: [KKT] of util.hpp (not under src/).  "Build
    the (n+n+m) x (n+n+m) indefinite symmetric matrix encoding the
    linearized stationarity, complementarity, and feasibility conditions
    jointly", unknowns ordered (dx, dy, dz) as the regularization loop of
    IPF.cpp orders them (primal, Lagrange, dual):
<<
      |  0   A^T    -I     |
      |  A    0      0     |
      | -I    0   -diag(x/z) |
>> *)
Definition KKT (A : Matrix) (x z : Vec) : Matrix :=
  let m := Height A in
  let n := Width A in
  mkMatrix (n + m + n)
    (hcat (zeroRows n n)
          (hcat (transposeRows n (Rows A)) (diagRows (minusOnes n)))
     ++ hcat (Rows A) (hcat (zeroRows m m) (zeroRows m n))
     ++ hcat (diagRows (minusOnes n))
             (hcat (zeroRows n m)
                   (diagRows (zipWith (fun xi zi => - (xi / zi)) x z)))).

(** Modelled from the spec: [KKTRHS] of util.hpp (not under src/).  "RHS
    stacks (r_c, r_b, r_mu) (with z-block sign folded in per the
    complementarity linearization)": (-r_c, -r_b, r_mu / z). *)
Definition KKTRHS (rc rb rmu z : Vec) : Vec :=
  Scale (-1) rc ++ Scale (-1) rb ++ DiagonalSolve z rmu.

(** Modelled from the spec: [ExpandSolution] of util.hpp (not under
    src/).  "Output direction is read back directly as (dx,dy,dz)"; "a
    direct slice". *)
Definition ExpandSolution (m n : nat) (d : Vec) : Vec * Vec * Vec :=
  (firstn n d, firstn m (skipn n d), skipn (n + m) d).

(** Modelled from the spec: [AugmentedKKT] of util.hpp (not under src/).
    "Eliminate the z-block analytically using the complementarity
    relation (valid because x>0 strictly), producing an (n+m) x (n+m)
    system":
<<
      | diag(z/x)  A^T |
      |    A        0  |
>> *)
Definition AugmentedKKT (A : Matrix) (x z : Vec) : Matrix :=
  let m := Height A in
  let n := Width A in
  mkMatrix (n + m)
    (hcat (diagRows (zipWith (fun xi zi => zi / xi) x z))
          (transposeRows n (Rows A))
     ++ hcat (Rows A) (zeroRows m m)).

(** Modelled from the spec: [AugmentedKKTRHS] of util.hpp (not under
    src/).  "RHS combines x, r_c, r_b, r_mu":
    (-r_c - r_mu / x, -r_b). *)
Definition AugmentedKKTRHS (x rc rb rmu : Vec) : Vec :=
  zipWith (fun a b => - a - b) rc (DiagonalSolve x rmu) ++ Scale (-1) rb.

(** Modelled from the spec: [ExpandAugmentedSolution] of util.hpp (not
    under src/).  "dz is recovered via the complementarity relation using
    dx and r_mu": dz = -(r_mu + z o dx) / x. *)
Definition ExpandAugmentedSolution (x z rmu d : Vec) : Vec * Vec * Vec :=
  let n := length rmu in
  let dx := firstn n d in
  let dy := skipn n d in
  let dz := DiagonalSolve x (Scale (-1) (Axpy 1 rmu (DiagonalScale z dx))) in
  (dx, dy, dz).

(** Modelled from the spec: [NormalKKT] of util.hpp (not under src/).
    "Further eliminate the x-block using a diagonal scaling by x/z,
    reducing to an m x m system solved for dy alone":
    J = A diag(x/z) A^T. *)
Definition NormalKKT (A : Matrix) (x z : Vec) : Matrix :=
  let d := zipWith (fun xi zi => xi / zi) x z in
  mkMatrix (Height A)
    (map (fun ri => map (fun rk => Dot (DiagonalScale ri d) rk) (Rows A))
         (Rows A)).

(** Modelled from the spec: [NormalKKTRHS] of util.hpp (not under src/):
    the right-hand side left after eliminating dx,
    r_b - A ((x o r_c + r_mu) / z). *)
Definition NormalKKTRHS (A : Matrix) (x z rc rb rmu : Vec) : Vec :=
  Axpy (-1)
       (MatVec A (DiagonalSolve z (Axpy 1 (DiagonalScale x rc) rmu)))
       rb.

(** Modelled from the spec: [ExpandNormalSolution] of util.hpp (not
    under src/).  "dx is recovered from dy via the stationarity relation
    and dz from complementarity":
    dx = -(x o (r_c + A^T dy) + r_mu) / z,  dz = -(r_mu + z o dx) / x.
    The cost vector [c] is passed by IPF.cpp; the recovery only needs it
    through r_c. *)
Definition ExpandNormalSolution (A : Matrix) (c x z rc rmu dy : Vec)
    : Vec * Vec * Vec :=
  let s := Gemv TRANSPOSE 1 A dy 1 rc in
  let dx := DiagonalSolve z (Scale (-1) (Axpy 1 (DiagonalScale x s) rmu)) in
  let dz := DiagonalSolve x (Scale (-1) (Axpy 1 rmu (DiagonalScale z dx))) in
  (dx, dy, dz).

End KKTUtil.
Export KKTUtil.

(** ** Configuration, errors and collaborators *)

Module IPM.

(** The in/out iterate (x, y, z). *)
Definition Iterate : Type := (Vec * Vec * Vec)%type.

(** A direction triple (dx, dy, dz). *)
Definition Direction : Type := (Vec * Vec * Vec)%type.

(** [IPFCtrl<Real>]; the nested line-search configuration is opaque. *)
Record IPFCtrl (LineSearchCtrl : Type) : Type := mkIPFCtrl {
  initialized : bool;
  tol : R;
  maxIts : Z;
  centering : R;
  system : KKTSystem;
  print : bool;
  lineSearchCtrl : LineSearchCtrl
}.
Arguments mkIPFCtrl {LineSearchCtrl}.
Arguments initialized {LineSearchCtrl}.
Arguments tol {LineSearchCtrl}.
Arguments maxIts {LineSearchCtrl}.
Arguments centering {LineSearchCtrl}.
Arguments system {LineSearchCtrl}.
Arguments print {LineSearchCtrl}.
Arguments lineSearchCtrl {LineSearchCtrl}.

(** The exceptions a solve call can end with.  IPF.cpp raises them with
    [LogicError] and [RuntimeError]; the specification names them
    InfeasibleIterate, IterationLimitExceeded, UnsupportedRepresentation
    and FactorizationBreakdown. *)
Inductive Error : Type :=
| InfeasibleIterate (xNumNonPos zNumNonPos : Z)
    (* LogicError( xNumNonPos, " entries of x were nonpositive and ",
                   zNumNonPos, " entries of z were nonpositive" ) *)
| IterationLimitExceeded (limit : Z)
    (* RuntimeError( "Maximum number of iterations (", maxIts, ") exceeded" ) *)
| UnsupportedRepresentation
    (* LogicError( "Sequential sparse-direct solvers not yet supported" ) *)
| FactorizationBreakdown.
    (* propagated from the linear solve backend *)

Inductive LDLFrontType : Type := LDL_1D | LDL_INTRAPIV_1D.

(** The collaborators of IPF.cpp that are not under src/: the
    initializer, the line search, the dense symmetric solver and the
    sparse-direct pipeline with its opaque data types.  They are
    parameters of the model. *)
Record Env : Type := mkEnv {
  LineSearchCtrl : Type;
  DistMap : Type;
  DistSeparatorTree : Type;
  DistSymmInfo : Type;
  DistSymmFrontTree : Type;
  DistNodalMultiVec : Type;
  (* default-constructed metadata objects *)
  emptyMap : DistMap;
  emptySepTree : DistSeparatorTree;
  emptyInfo : DistSymmInfo;
  (* lapack::MachineEpsilon<Real>() *)
  MachineEpsilon : R;
  (* lp::primal::Initialize( A, b, c, x, y, z ) *)
  Initialize : Matrix -> Vec -> Vec -> Iterate -> Iterate;
  (* lp::primal::Initialize( A, b, c, x, y, z, map, invMap, sepTree, info ) *)
  InitializeSparse :
    Matrix -> Vec -> Vec -> Iterate ->
    Iterate * (DistMap * DistMap * DistSeparatorTree * DistSymmInfo);
  (* SymmetricSolve( LOWER, NORMAL, J, d ); None on numerical breakdown *)
  SymmetricSolve : Matrix -> Vec -> option Vec;
  (* IPFLineSearch( A, b, c, x, y, z, dx, dy, dz, bTol, cTol, lsCtrl ) *)
  IPFLineSearch :
    Matrix -> Vec -> Vec -> Iterate -> Direction -> R -> R ->
    LineSearchCtrl -> R;
  (* NestedDissection( J.LockedDistGraph(), map, sepTree, info ) *)
  NestedDissection : Matrix -> DistMap * DistSeparatorTree * DistSymmInfo;
  (* map.FormInverse( invMap ) *)
  FormInverse : DistMap -> DistMap;
  (* JFrontTree.Initialize( J, map, sepTree, info ) *)
  FrontTreeInitialize :
    Matrix -> DistMap -> DistSeparatorTree -> DistSymmInfo -> DistSymmFrontTree;
  (* xNodal.Pull( invMap, info, x ) and xNodal.Push( invMap, info, x ) *)
  Pull : DistMap -> DistSymmInfo -> Vec -> DistNodalMultiVec;
  Push : DistMap -> DistSymmInfo -> DistNodalMultiVec -> Vec;
  (* RegularizedLDL( info, front, pivTol, regCandNodal, regNodal, type ) *)
  RegularizedLDL :
    DistSymmInfo -> DistSymmFrontTree -> R -> DistNodalMultiVec ->
    DistNodalMultiVec -> LDLFrontType ->
    option (DistSymmFrontTree * DistNodalMultiVec);
  (* LDL( info, front, type ) *)
  LDL : DistSymmInfo -> DistSymmFrontTree -> LDLFrontType ->
        option DistSymmFrontTree;
  (* Solve( info, front, dNodal ) *)
  Solve : DistSymmInfo -> DistSymmFrontTree -> DistNodalMultiVec ->
          DistNodalMultiVec;
  (* SolveWithIterativeRefinement
       ( J, invMap, info, front, dy, minReductionFactor, maxRefineIts ) *)
  SolveWithIterativeRefinement :
    Matrix -> DistMap -> DistSymmInfo -> DistSymmFrontTree -> Vec -> R -> Z ->
    Vec
}.

(** The sparse factorization metadata of one solve call. *)
Record Metadata (E : Env) : Type := mkMetadata {
  map_ : DistMap E;
  invMap : DistMap E;
  sepTree : DistSeparatorTree E;
  info : DistSymmInfo E
}.
Arguments mkMetadata {E}.
Arguments map_ {E}.
Arguments invMap {E}.
Arguments sepTree {E}.
Arguments info {E}.

Definition emptyMetadata (E : Env) : Metadata E :=
  mkMetadata (emptyMap E) (emptyMap E) (emptySepTree E) (emptyInfo E).

(** The collaborator calls a solve call makes, in program order.  The
    log is ghost state: it records which work was carried out and with
    which arguments. *)
Inductive Call (E : Env) : Type :=
| CallInitialize
| CallBuild (s : KKTSystem) (J : Matrix) (rhs : Vec)
| CallSymmetricSolve
| CallNestedDissection (J : Matrix)
| CallFrontTreeInitialize (J : Matrix) (md : Metadata E)
| CallRegularizedLDL (pivTol : R) (regCand reg : Vec) (t : LDLFrontType)
| CallLDL (t : LDLFrontType)
| CallSolve
| CallSolveWithIterativeRefinement (minReductionFactor : R) (maxRefineIts : Z)
| CallExpand (s : KKTSystem)
| CallLineSearch.
Arguments CallInitialize {E}.
Arguments CallBuild {E}.
Arguments CallSymmetricSolve {E}.
Arguments CallNestedDissection {E}.
Arguments CallFrontTreeInitialize {E}.
Arguments CallRegularizedLDL {E}.
Arguments CallLDL {E}.
Arguments CallSolve {E}.
Arguments CallSolveWithIterativeRefinement {E}.
Arguments CallExpand {E}.
Arguments CallLineSearch {E}.

(** How a solve call ends.  [OutOfFuel] is the bounded model running out
    of passes, not an outcome of the program. *)
Inductive Status : Type :=
| Converged
| Raised (e : Error)
| OutOfFuel.

(** What the caller observes: the status, the in/out iterate, the
    metadata and the log of collaborator calls. *)
Record Run (E : Env) : Type := mkRun {
  status : Status;
  iterate : Iterate;
  metadata : Metadata E;
  calls : list (Call E)
}.
Arguments mkRun {E}.
Arguments status {E}.
Arguments iterate {E}.
Arguments metadata {E}.
Arguments calls {E}.

End IPM.
Export IPM.

(** ** The iteration controller *)

Module Controller.

Definition Rleb (a b : R) : bool := if Rle_dec a b then true else false.

(** r_b = A x - b, formed as [rb = b; Scale(-1,rb); Gemv(NORMAL,1,A,x,1,rb)]. *)
Definition residual_b (A : Matrix) (b x : Vec) : Vec :=
  Gemv NORMAL 1 A x 1 (Scale (-1) b).

(** r_c = A^T y - z + c, formed as
    [rc = c; Gemv(TRANSPOSE,1,A,y,1,rc); Axpy(-1,z,rc)]. *)
Definition residual_c (A : Matrix) (c y z : Vec) : Vec :=
  Axpy (-1) z (Gemv TRANSPOSE 1 A y 1 c).

(** r_mu = x o z - centering mu e, formed as
    [rmu = z; DiagonalScale(LEFT,NORMAL,x,rmu); Shift(rmu,-centering*mu)]. *)
Definition residual_mu (centering mu : R) (x z : Vec) : Vec :=
  Shift (DiagonalScale x z) (- centering * mu).

Section Loop.

Variable E : Env.

Definition Ctrl : Type := IPFCtrl (LineSearchCtrl E).

(** The build/solve/expand stage of one overload: from the pass counter,
    the metadata, the log and (A, c, x, z, rc, rb, rmu) to the new
    metadata and log and, unless the solve broke down, the direction. *)
Definition Stage : Type :=
  Ctrl -> Z -> Metadata E -> list (Call E) ->
  Matrix -> Vec -> Vec -> Vec -> Vec -> Vec -> Vec ->
  Metadata E * list (Call E) * option Direction.

Inductive PassResult : Type :=
| Break
| Throw (e : Error) (md : Metadata E) (log : list (Call E))
| Continue (md : Metadata E) (log : list (Call E)) (it : Iterate).

(** One pass through the body of [for( Int numIts=0; ; ++numIts )]. *)
Definition IPF_pass (stage : Stage) (ctrl : Ctrl) (A : Matrix) (b c : Vec)
    (bNrm2 cNrm2 : R) (numIts : Z) (md : Metadata E) (log : list (Call E))
    (it : Iterate) : PassResult :=
  let '(x, y, z) := it in
  let n := Width A in
  (* Ensure that x and z are in the cone *)
  let xNumNonPos := NumNonPositive x in
  let zNumNonPos := NumNonPositive z in
  if ((0 <? xNumNonPos)%Z || (0 <? zNumNonPos)%Z)%bool then
    Throw (InfeasibleIterate xNumNonPos zNumNonPos) md log
  else
    (* Check for convergence *)
    let primObj := Dot c x in
    let dualObj := - Dot b y in
    let objConv := Abs (primObj - dualObj) / (1 + Abs primObj) in
    let rb := residual_b A b x in
    let rbNrm2 := Nrm2 rb in
    let rbConv := rbNrm2 / (1 + bNrm2) in
    let rc := residual_c A c y z in
    let rcNrm2 := Nrm2 rc in
    let rcConv := rcNrm2 / (1 + cNrm2) in
    if (Rleb objConv (tol ctrl) && Rleb rbConv (tol ctrl)
        && Rleb rcConv (tol ctrl))%bool then
      Break
    else
      (* Raise an exception after an unacceptable number of iterations *)
      if (numIts =? maxIts ctrl)%Z then
        Throw (IterationLimitExceeded (maxIts ctrl)) md log
      else
        (* Compute the duality measure and r_mu = x o z - tau e *)
        let mu := Dot x z / INR n in
        let rmu := residual_mu (centering ctrl) mu x z in
        match stage ctrl numIts md log A c x z rc rb rmu with
        | (md', log', None) => Throw FactorizationBreakdown md' log'
        | (md', log', Some (dx, dy, dz)) =>
            (* Take a step in the computed direction *)
            let alpha :=
              IPFLineSearch E A b c (x, y, z) (dx, dy, dz)
                (tol ctrl * (1 + bNrm2)) (tol ctrl * (1 + cNrm2))
                (lineSearchCtrl ctrl) in
            Continue md' (log' ++ [CallLineSearch])
              (Axpy alpha dx x, Axpy alpha dy y, Axpy alpha dz z)
        end.

(** The loop, bounded by [fuel] passes.  [numIts] counts in Z: the C++
    counter is a signed [Int], which cannot wrap before 2^31 passes. *)
Fixpoint IPF_loop (stage : Stage) (ctrl : Ctrl) (A : Matrix) (b c : Vec)
    (bNrm2 cNrm2 : R) (fuel : nat) (numIts : Z) (md : Metadata E)
    (log : list (Call E)) (it : Iterate) : Run E :=
  match fuel with
  | O => mkRun OutOfFuel it md log
  | S fuel' =>
      match IPF_pass stage ctrl A b c bNrm2 cNrm2 numIts md log it with
      | Break => mkRun Converged it md log
      | Throw e md' log' => mkRun (Raised e) it md' log'
      | Continue md' log' it' =>
          IPF_loop stage ctrl A b c bNrm2 cNrm2 fuel' (numIts + 1) md' log' it'
      end
  end.

(** The state at the k-th entry of the loop body, when the loop gets
    that far. *)
Fixpoint IPF_entry (stage : Stage) (ctrl : Ctrl) (A : Matrix) (b c : Vec)
    (bNrm2 cNrm2 : R) (k : nat) (numIts : Z) (md : Metadata E)
    (log : list (Call E)) (it : Iterate)
    : option (Z * Metadata E * list (Call E) * Iterate) :=
  match k with
  | O => Some (numIts, md, log, it)
  | S k' =>
      match IPF_pass stage ctrl A b c bNrm2 cNrm2 numIts md log it with
      | Continue md' log' it' =>
          IPF_entry stage ctrl A b c bNrm2 cNrm2 k' (numIts + 1) md' log' it'
      | _ => None
      end
  end.

(** *** Dense overloads: [Matrix<Real>] and [AbstractDistMatrix<Real>] *)

Definition denseStage : Stage :=
  fun ctrl numIts md log A c x z rc rb rmu =>
  let m := Height A in
  let n := Width A in
  match system ctrl with
  | FULL_KKT =>
      let J := KKT A x z in
      let d := KKTRHS rc rb rmu z in
      let log1 := log ++ [CallBuild FULL_KKT J d; CallSymmetricSolve] in
      match SymmetricSolve E J d with
      | None => (md, log1, None)
      | Some d' =>
          (md, log1 ++ [CallExpand FULL_KKT], Some (ExpandSolution m n d'))
      end
  | AUGMENTED_KKT =>
      let J := AugmentedKKT A x z in
      let d := AugmentedKKTRHS x rc rb rmu in
      let log1 := log ++ [CallBuild AUGMENTED_KKT J d; CallSymmetricSolve] in
      match SymmetricSolve E J d with
      | None => (md, log1, None)
      | Some d' =>
          (md, log1 ++ [CallExpand AUGMENTED_KKT],
           Some (ExpandAugmentedSolution x z rmu d'))
      end
  | NORMAL_KKT =>
      let J := NormalKKT A x z in
      let dy := NormalKKTRHS A x z rc rb rmu in
      let log1 := log ++ [CallBuild NORMAL_KKT J dy; CallSymmetricSolve] in
      match SymmetricSolve E J dy with
      | None => (md, log1, None)
      | Some dy' =>
          (md, log1 ++ [CallExpand NORMAL_KKT],
           Some (ExpandNormalSolution A c x z rc rmu dy'))
      end
  end.

(** The state in which the dense overloads enter the loop. *)
Definition denseStart (ctrl : Ctrl) (A : Matrix) (b c : Vec) (it : Iterate)
    : Metadata E * list (Call E) * Iterate :=
  if initialized ctrl then (emptyMetadata E, [], it)
  else (emptyMetadata E, [CallInitialize], Initialize E A b c it).

(** [IPF( const Matrix<Real>& A, ... )]. *)
Definition IPF_Matrix (fuel : nat) (A : Matrix) (b c : Vec) (it : Iterate)
    (ctrl : Ctrl) : Run E :=
  let bNrm2 := Nrm2 b in
  let cNrm2 := Nrm2 c in
  let '(md, log, it0) := denseStart ctrl A b c it in
  IPF_loop denseStage ctrl A b c bNrm2 cNrm2 fuel 0 md log it0.

(** [IPF( const AbstractDistMatrix<Real>& APre, ... )]: the proxies
    redistribute to [MC,MR] and back, the loop is the same text. *)
Definition IPF_DistMatrix (fuel : nat) (A : Matrix) (b c : Vec) (it : Iterate)
    (ctrl : Ctrl) : Run E :=
  let bNrm2 := Nrm2 b in
  let cNrm2 := Nrm2 c in
  let '(md, log, it0) := denseStart ctrl A b c it in
  IPF_loop denseStage ctrl A b c bNrm2 cNrm2 fuel 0 md log it0.

(** *** Sparse-serial overload: [SparseMatrix<Real>] *)

Definition IPF_SparseMatrix (A : Matrix) (b c : Vec) (it : Iterate)
    (ctrl : Ctrl) : Run E :=
  mkRun (Raised UnsupportedRepresentation) it (emptyMetadata E) [].

(** *** Sparse-distributed overload: [DistSparseMatrix<Real>] *)

(** [regCand] of the full system: entry i is regMagPrimal for i < n,
    -regMagLagrange for n <= i < n+m and -regMagDual beyond. *)
Definition regCandFull (m n : nat) (epsilon : R) : Vec :=
  let regMagPrimal := Rpower epsilon (3 / 4) in
  let regMagLagrange := Rpower epsilon (1 / 2) in
  let regMagDual := Rpower epsilon (1 / 2) in
  map (fun i : nat =>
         if (i <? n)%nat then regMagPrimal
         else if (i <? n + m)%nat then - regMagLagrange
         else - regMagDual)
      (seq 0 (m + 2 * n)).

(** [regCand] of the augmented system: regMagPrimal for i < n and
    -regMagLagrange beyond. *)
Definition regCandAugmented (m n : nat) (epsilon : R) : Vec :=
  let regMagPrimal := Rpower epsilon (3 / 4) in
  let regMagLagrange := Rpower epsilon (1 / 2) in
  map (fun i : nat =>
         if (i <? n)%nat then regMagPrimal else - regMagLagrange)
      (seq 0 (n + m)).

(** [NestedDissection( J.LockedDistGraph(), map, sepTree, info );
     map.FormInverse( invMap );] *)
Definition analyse (J : Matrix) : Metadata E :=
  let '(map, sepTree, info) := NestedDissection E J in
  mkMetadata map (FormInverse E map) sepTree info.

(** The regularized factorization and plain solve shared, as text, by
    the FULL_KKT and AUGMENTED_KKT branches. *)
Definition regularizedSolve (md : Metadata E) (log : list (Call E))
    (J : Matrix) (d regCand reg : Vec) (pivTol : R)
    : list (Call E) * option Vec :=
  let JFrontTree :=
    FrontTreeInitialize E J (map_ md) (sepTree md) (info md) in
  let regCandNodal := Pull E (invMap md) (info md) regCand in
  let regNodal := Pull E (invMap md) (info md) reg in
  let log1 :=
    log ++ [CallFrontTreeInitialize J md;
            CallRegularizedLDL pivTol regCand reg LDL_1D] in
  match RegularizedLDL E (info md) JFrontTree pivTol regCandNodal regNodal
                       LDL_1D with
  | None => (log1, None)
  | Some (JFrontTree', regNodal') =>
      (* SolveWithIterativeRefinement is commented out in these branches *)
      let dNodal := Pull E (invMap md) (info md) d in
      let dNodal' := Solve E (info md) JFrontTree' dNodal in
      (log1 ++ [CallSolve], Some (Push E (invMap md) (info md) dNodal'))
  end.

Definition sparseStage : Stage :=
  fun ctrl numIts md log A c x z rc rb rmu =>
  let m := Height A in
  let n := Width A in
  let epsilon := MachineEpsilon E in
  let minReductionFactor := 2 in
  let maxRefineIts := 10%Z in
  match system ctrl with
  | FULL_KKT =>
      let J := KKT A x z in
      let d := KKTRHS rc rb rmu z in
      let pivTol := MaxNorm J * epsilon in
      let regCand := regCandFull m n epsilon in
      (* Do not use any a priori regularization *)
      let reg := Zeros (m + 2 * n) in
      let log0 := log ++ [CallBuild FULL_KKT J d] in
      let '(md1, log1) :=
        if (numIts =? 0)%Z
        then (analyse J, log0 ++ [CallNestedDissection J])
        else (md, log0) in
      match regularizedSolve md1 log1 J d regCand reg pivTol with
      | (log2, None) => (md1, log2, None)
      | (log2, Some d') =>
          (md1, log2 ++ [CallExpand FULL_KKT], Some (ExpandSolution m n d'))
      end
  | AUGMENTED_KKT =>
      let J := AugmentedKKT A x z in
      let d := AugmentedKKTRHS x rc rb rmu in
      let pivTol := MaxNorm J * epsilon in
      let regCand := regCandAugmented m n epsilon in
      (* Do not use any a priori regularization *)
      let reg := Zeros (m + n) in
      let log0 := log ++ [CallBuild AUGMENTED_KKT J d] in
      let '(md1, log1) :=
        if (initialized ctrl && (numIts =? 0)%Z)%bool
        then (analyse J, log0 ++ [CallNestedDissection J])
        else (md, log0) in
      match regularizedSolve md1 log1 J d regCand reg pivTol with
      | (log2, None) => (md1, log2, None)
      | (log2, Some d') =>
          (md1, log2 ++ [CallExpand AUGMENTED_KKT],
           Some (ExpandAugmentedSolution x z rmu d'))
      end
  | NORMAL_KKT =>
      let J := NormalKKT A x z in
      let dy := NormalKKTRHS A x z rc rb rmu in
      let log0 := log ++ [CallBuild NORMAL_KKT J dy] in
      let '(md1, log1) :=
        if (numIts =? 0)%Z
        then (analyse J, log0 ++ [CallNestedDissection J])
        else (md, log0) in
      let JFrontTree :=
        FrontTreeInitialize E J (map_ md1) (sepTree md1) (info md1) in
      let log2 :=
        log1 ++ [CallFrontTreeInitialize J md1; CallLDL LDL_INTRAPIV_1D] in
      match LDL E (info md1) JFrontTree LDL_INTRAPIV_1D with
      | None => (md1, log2, None)
      | Some JFrontTree' =>
          let dy' :=
            SolveWithIterativeRefinement E J (invMap md1) (info md1)
              JFrontTree' dy minReductionFactor maxRefineIts in
          (md1,
           log2 ++ [CallSolveWithIterativeRefinement minReductionFactor
                      maxRefineIts;
                    CallExpand NORMAL_KKT],
           Some (ExpandNormalSolution A c x z rc rmu dy'))
      end
  end.

(** The state in which the sparse-distributed overload enters the loop.
    The initializer works on an augmented system, so its metadata is kept
    only for the augmented formulation. *)
Definition sparseStart (ctrl : Ctrl) (A : Matrix) (b c : Vec) (it : Iterate)
    : Metadata E * list (Call E) * Iterate :=
  if initialized ctrl then (emptyMetadata E, [], it)
  else
    match system ctrl with
    | AUGMENTED_KKT =>
        let '(it', (map, invMap, sepTree, info)) :=
          InitializeSparse E A b c it in
        (mkMetadata map invMap sepTree info, [CallInitialize], it')
    | _ =>
        let '(it', augMetadata) := InitializeSparse E A b c it in
        (emptyMetadata E, [CallInitialize], it')
    end.

(** [IPF( const DistSparseMatrix<Real>& A, ... )]. *)
Definition IPF_DistSparseMatrix (fuel : nat) (A : Matrix) (b c : Vec)
    (it : Iterate) (ctrl : Ctrl) : Run E :=
  let bNrm2 := Nrm2 b in
  let cNrm2 := Nrm2 c in
  let '(md, log, it0) := sparseStart ctrl A b c it in
  IPF_loop sparseStage ctrl A b c bNrm2 cNrm2 fuel 0 md log it0.

End Loop.

End Controller.
Export Controller.

(** ** Vocabulary of the properties *)

Module Props.

(** The four overloads of [IPF], by the representation of A. *)
Inductive Representation : Type :=
| DenseSerial         (* Matrix<Real> *)
| DenseDistributed    (* AbstractDistMatrix<Real> *)
| SparseSerial        (* SparseMatrix<Real> *)
| SparseDistributed.  (* DistSparseMatrix<Real> *)

(** Overload resolution. *)
Definition IPF (E : Env) (rep : Representation) (fuel : nat) (A : Matrix)
    (b c : Vec) (it : Iterate) (ctrl : Ctrl E) : Run E :=
  match rep with
  | DenseSerial => IPF_Matrix E fuel A b c it ctrl
  | DenseDistributed => IPF_DistMatrix E fuel A b c it ctrl
  | SparseSerial => IPF_SparseMatrix E A b c it ctrl
  | SparseDistributed => IPF_DistSparseMatrix E fuel A b c it ctrl
  end.

(** The state (numIts, metadata, log, iterate) at the k-th loop entry of
    a solve call; the sparse-serial overload has no loop. *)
Definition loopEntry (E : Env) (rep : Representation) (k : nat) (A : Matrix)
    (b c : Vec) (it : Iterate) (ctrl : Ctrl E)
    : option (Z * Metadata E * list (Call E) * Iterate) :=
  match rep with
  | DenseSerial | DenseDistributed =>
      let '(md, log, it0) := denseStart E ctrl A b c it in
      IPF_entry E (denseStage E) ctrl A b c (Nrm2 b) (Nrm2 c) k 0 md log it0
  | SparseSerial => None
  | SparseDistributed =>
      let '(md, log, it0) := sparseStart E ctrl A b c it in
      IPF_entry E (sparseStage E) ctrl A b c (Nrm2 b) (Nrm2 c) k 0 md log it0
  end.

(** The solve call returns normally: some bound of passes is enough for
    the loop to leave through [break]. *)
Definition returnsNormally (E : Env) (rep : Representation) (A : Matrix)
    (b c : Vec) (it : Iterate) (ctrl : Ctrl E) : Prop :=
  exists fuel, status (IPF E rep fuel A b c it ctrl) = Converged.

(** Strict positivity of every entry. *)
Definition positive (v : Vec) : Prop := Forall (fun a => 0 < a) v.

(** Some entry is not strictly positive. *)
Definition hasNonPositive (v : Vec) : Prop := Exists (fun a => a <= 0) v.

(** The three convergence ratios are at most [tol]. *)
Definition ratiosWithin (tol : R) (A : Matrix) (b c x y z : Vec) : Prop :=
  Abs (Dot c x - (- Dot b y)) / (1 + Abs (Dot c x)) <= tol /\
  Nrm2 (residual_b A b x) / (1 + Nrm2 b) <= tol /\
  Nrm2 (residual_c A c y z) / (1 + Nrm2 c) <= tol.

(** The log and the metadata after a pass. *)
Definition passLog {E : Env} (r : PassResult E) (log : list (Call E))
    : list (Call E) :=
  match r with
  | Break _ => log
  | Throw _ _ _ log' => log'
  | Continue _ _ log' _ => log'
  end.

Definition isNestedDissection {E : Env} (c : Call E) : bool :=
  match c with CallNestedDissection _ => true | _ => false end.

Definition isFrontTreeInitialize {E : Env} (c : Call E) : bool :=
  match c with CallFrontTreeInitialize _ _ => true | _ => false end.

Definition isRegularizedLDL {E : Env} (c : Call E) : bool :=
  match c with CallRegularizedLDL _ _ _ _ => true | _ => false end.

Definition isLDL {E : Env} (c : Call E) : bool :=
  match c with CallLDL _ => true | _ => false end.

Definition isSolve {E : Env} (c : Call E) : bool :=
  match c with CallSolve => true | _ => false end.

Definition isRefinement {E : Env} (c : Call E) : bool :=
  match c with CallSolveWithIterativeRefinement _ _ => true | _ => false end.

Definition countCalls {E : Env} (p : Call E -> bool) (log : list (Call E))
    : nat :=
  length (filter p log).

(** The matrix, right-hand side and expansion of a formulation, as the
    branches of the build/solve/expand stage pair them. *)
Definition systemMatrix (s : KKTSystem) (A : Matrix) (x z : Vec) : Matrix :=
  match s with
  | FULL_KKT => KKT A x z
  | AUGMENTED_KKT => AugmentedKKT A x z
  | NORMAL_KKT => NormalKKT A x z
  end.

Definition systemRHS (s : KKTSystem) (A : Matrix) (x z rc rb rmu : Vec) : Vec :=
  match s with
  | FULL_KKT => KKTRHS rc rb rmu z
  | AUGMENTED_KKT => AugmentedKKTRHS x rc rb rmu
  | NORMAL_KKT => NormalKKTRHS A x z rc rb rmu
  end.

Definition expand (s : KKTSystem) (A : Matrix) (c x z rc rmu d : Vec)
    : Direction :=
  match s with
  | FULL_KKT => ExpandSolution (Height A) (Width A) d
  | AUGMENTED_KKT => ExpandAugmentedSolution x z rmu d
  | NORMAL_KKT => ExpandNormalSolution A c x z rc rmu d
  end.

(** The direction the dense stage computes with a given solver. *)
Definition denseDirection (E : Env) (s : KKTSystem) (A : Matrix)
    (c x z rc rb rmu : Vec) : option Direction :=
  match SymmetricSolve E (systemMatrix s A x z) (systemRHS s A x z rc rb rmu)
  with
  | None => None
  | Some d => Some (expand s A c x z rc rmu d)
  end.

(** The full Newton system, as the residual cross-checks of IPF.cpp
    state it:
      A dx = -r_b,  A^T dy - dz = -r_c,  x o dz + z o dx = -r_mu. *)
Definition NewtonSystem (A : Matrix) (x z rc rb rmu : Vec) (dir : Direction)
    : Prop :=
  let '(dx, dy, dz) := dir in
  length dx = Width A /\ length dy = Height A /\ length dz = Width A /\
  MatVec A dx = Scale (-1) rb /\
  zipWith Rminus (MatTVec A dy) dz = Scale (-1) rc /\
  zipWith Rplus (DiagonalScale x dz) (DiagonalScale z dx) = Scale (-1) rmu.

(** Conformal operands of one build/solve/expand stage. *)
Definition conformal (A : Matrix) (x z rc rb rmu : Vec) : Prop :=
  wfMatrix A /\
  length x = Width A /\ length z = Width A /\
  length rc = Width A /\ length rmu = Width A /\
  length rb = Height A.

(** What an exact direct solve delivers when it does not break down: a
    solution of J s = d, and the only one (a factorization that
    completes has nonzero pivots, so J is nonsingular). *)
Definition solvesExactly (J : Matrix) (d s : Vec) : Prop :=
  length s = length d /\ MatVec J s = d.

Definition exactSolve (E : Env) (J : Matrix) (d : Vec) : Prop :=
  forall s, SymmetricSolve E J d = Some s ->
    solvesExactly J d s /\ forall s', solvesExactly J d s' -> s' = s.

(** The rows of A are linearly independent. *)
Definition fullRowRank (A : Matrix) : Prop :=
  forall w, length w = Height A -> MatTVec A w = Zeros (Width A) ->
    w = Zeros (Height A).

(** The build/solve/expand stage an overload runs in its loop. *)
Definition stageOf (E : Env) (rep : Representation) : Stage E :=
  match rep with
  | SparseDistributed => sparseStage E
  | _ => denseStage E
  end.

(** Whether the pass with counter [numIts] of the sparse-distributed
    overload runs the nested dissection. *)
Definition analysesAt {LS : Type} (ctrl : IPFCtrl LS) (numIts : Z) : bool :=
  match system ctrl with
  | AUGMENTED_KKT => (initialized ctrl && (numIts =? 0)%Z)%bool
  | _ => (numIts =? 0)%Z
  end.

(** Whether the loop works with the metadata of the initializer. *)
Definition inheritsMetadata {LS : Type} (ctrl : IPFCtrl LS) : bool :=
  match system ctrl with
  | AUGMENTED_KKT => negb (initialized ctrl)
  | _ => false
  end.

(** The metadata a pass factors with, and the analysis call it logs. *)
Definition passMetadata (E : Env) (ctrl : Ctrl E) (numIts : Z)
    (md : Metadata E) (J : Matrix) : Metadata E :=
  if analysesAt ctrl numIts then analyse E J else md.

Definition analysisCalls (E : Env) (ctrl : Ctrl E) (numIts : Z) (J : Matrix)
    : list (Call E) :=
  if analysesAt ctrl numIts then [CallNestedDissection J] else [].

(** The regularization candidates and the a priori regularization of
    the two regularized branches. *)
Definition regCandOf (s : KKTSystem) (m n : nat) (epsilon : R) : Vec :=
  match s with
  | FULL_KKT => regCandFull m n epsilon
  | AUGMENTED_KKT => regCandAugmented m n epsilon
  | NORMAL_KKT => []
  end.

Definition regOf (s : KKTSystem) (m n : nat) : Vec :=
  match s with
  | FULL_KKT => Zeros (m + 2 * n)
  | AUGMENTED_KKT => Zeros (m + n)
  | NORMAL_KKT => []
  end.

Definition isFactorization {E : Env} (c : Call E) : bool :=
  (isRegularizedLDL c || isLDL c)%bool.

(** The calls a stage adds to the log it was handed. *)
Definition stageCalls {E : Env} (log : list (Call E))
    (out : Metadata E * list (Call E) * option Direction) : list (Call E) :=
  skipn (length log) (snd (fst out)).

Definition isAnySolve {E : Env} (c : Call E) : bool :=
  (isSolve c || isRefinement c)%bool.

(** What every logged call looks like when the formulation is FULL_KKT
    or AUGMENTED_KKT: no iterative refinement and no plain LDL. *)
Definition regularizedCall {E : Env} (c : Call E) : Prop :=
  isRefinement c = false /\ isLDL c = false.

(** What every logged call looks like when the formulation is
    NORMAL_KKT: no plain Solve, no RegularizedLDL, refinement only with
    reduction factor 2 and at most 10 steps, LDL only intra-pivoted. *)
Definition normalCall {E : Env} (c : Call E) : Prop :=
  isSolve c = false /\ isRegularizedLDL c = false /\
  match c with
  | CallSolveWithIterativeRefinement minReductionFactor maxRefineIts =>
      minReductionFactor = 2 /\ maxRefineIts = 10%Z
  | CallLDL t => t = LDL_INTRAPIV_1D
  | _ => True
  end.

(** The state of the ordering metadata at a loop entry of the
    sparse-distributed overload that started with metadata [md0]: before
    the first pass nothing was analysed or factored; afterwards the
    analysis was run once (not at all when the metadata is inherited) and
    every front tree was set up with the current metadata. *)
Definition orderingInv {E : Env} (ctrl : Ctrl E) (md0 : Metadata E)
    (numIts : Z) (md : Metadata E) (log : list (Call E)) : Prop :=
  (0 <= numIts)%Z /\
  (numIts = 0%Z ->
     md = md0 /\
     countCalls isNestedDissection log = 0%nat /\
     countCalls isFrontTreeInitialize log = 0%nat) /\
  ((0 < numIts)%Z ->
     countCalls isNestedDissection log =
       (if inheritsMetadata ctrl then 0%nat else 1%nat) /\
     (0 < countCalls isFrontTreeInitialize log)%nat /\
     (inheritsMetadata ctrl = true -> md = md0) /\
     forall J md', In (CallFrontTreeInitialize J md') log -> md' = md).

(** What the caller of the sparse-distributed overload is left with. *)
Definition orderingFin {E : Env} (ctrl : Ctrl E) (md0 : Metadata E)
    (md : Metadata E) (log : list (Call E)) : Prop :=
  (countCalls isNestedDissection log <= 1)%nat /\
  (inheritsMetadata ctrl = true ->
     countCalls isNestedDissection log = 0%nat /\ md = md0) /\
  ((0 < countCalls isFrontTreeInitialize log)%nat ->
     inheritsMetadata ctrl = false ->
     countCalls isNestedDissection log = 1%nat) /\
  (forall J md', In (CallFrontTreeInitialize J md') log -> md' = md).

(** Modelled from the spec: the regularization that the regularized
    LDL factorization realizes (RegularizedLDL is not under src/).
    "These regularizations are added dynamically during factorization
    only where pivots fall below tolerance"; it "perturbs near-zero
    pivots by a controlled amount"; "the realized regularization is
    tracked".  Entry i of the result is the a priori regularization
    reg_i, to which the candidate regCand_i is added when the magnitude
    of the i-th pivot is below pivTol. *)
Fixpoint realizedRegularization (pivTol : R) (regCand reg pivots : Vec)
    : Vec :=
  match regCand, reg, pivots with
  | cand :: regCand', r :: reg', p :: pivots' =>
      (if Rlt_dec (Rabs p) pivTol then r + cand else r)
      :: realizedRegularization pivTol regCand' reg' pivots'
  | _, _, _ => []
  end.

(** A solver that, when it returns, returns a solution. *)
Definition soundSolve (E : Env) (J : Matrix) (d : Vec) : Prop :=
  forall s, SymmetricSolve E J d = Some s -> solvesExactly J d s.

End Props.
Export Props.

(** ** Concrete collaborators and problems

    A small, fully concrete environment on which the statements below
    are exercised: one constraint and one variable,
    min c x  s.t.  a x = b, x >= 0. *)

Module Demo.

(** Collaborators over trivial metadata: the initializer returns the
    all-ones primal and dual vectors, the line search always takes the
    full step, and the sparse pipeline passes vectors through. *)
Definition demoEnv (solve : Matrix -> Vec -> option Vec) : Env :=
  mkEnv unit unit unit unit unit Vec tt tt tt
    (1 / 4503599627370496)
    (fun A b c it => (repeat 1 (Width A), Zeros (Height A), repeat 1 (Width A)))
    (fun A b c it =>
       ((repeat 1 (Width A), Zeros (Height A), repeat 1 (Width A)),
        (tt, tt, tt, tt)))
    solve
    (fun A b c it dir bTol cTol ls => 1)
    (fun J => (tt, tt, tt))
    (fun mp => tt)
    (fun J mp st inf => tt)
    (fun mp inf v => v)
    (fun mp inf v => v)
    (fun inf front pivTol regCand reg t => Some (tt, reg))
    (fun inf front t => Some tt)
    (fun inf front d => d)
    (fun J mp inf front dy minRed maxIts => dy).

(** A solver that always breaks down. *)
Definition noSolve : Matrix -> Vec -> option Vec := fun _ _ => None.

Definition demoCtrl (E : Env) (ls : LineSearchCtrl E) (init : bool)
    (its : Z) (s : KKTSystem) : Ctrl E :=
  mkIPFCtrl init (1 / 100000000) its (1 / 10) s false ls.

(** The 1 x 1 constraint matrix [a]. *)
Definition oneByOne (a : R) : Matrix := mkMatrix 1 [[a]].

(** A solver for the systems of the 1 x 1 problem with A = [1],
    x = [1/2], z = [1], r_c = [0], r_b = [-1/2], r_mu = [9/20]: the
    unique solutions of the 3 x 3, 2 x 2 and 1 x 1 systems. *)
Definition demoSolve (J : Matrix) (d : Vec) : option Vec :=
  match length d with
  | 3%nat => Some [1 / 2; - (19 / 10); - (19 / 10)]
  | 2%nat => Some [1 / 2; - (19 / 10)]
  | 1%nat => Some [- (19 / 10)]
  | _ => None
  end.

End Demo.
Export Demo.

(** ** The residual cross-checks of a pass

    The block of IPF.cpp under [#ifndef EL_RELEASE] forms three error
    vectors from the direction and prints their norms; they vanish
    exactly when the direction satisfies the Newton system. *)

Module SanityChecks.

(** [dxError = rb; Gemv( NORMAL, 1, A, dx, 1, dxError )]. *)
Definition dxError (A : Matrix) (rb dx : Vec) : Vec :=
  Gemv NORMAL 1 A dx 1 rb.

(** [dyError = rc; Gemv( TRANSPOSE, 1, A, dy, 1, dyError );
     Axpy( -1, dz, dyError )]. *)
Definition dyError (A : Matrix) (rc dy dz : Vec) : Vec :=
  Axpy (-1) dz (Gemv TRANSPOSE 1 A dy 1 rc).

(** [dzError = rmu; for( i<n ) dzError.Update( i, 0, xi*dzi + zi*dxi )]:
    the entries below n are updated, the others are those of rmu (which
    has n entries in every pass). *)
Definition dzError (n : nat) (x z rmu dx dz : Vec) : Vec :=
  map (fun i : nat =>
         if (i <? n)%nat
         then nth i rmu 0 + (nth i x 0 * nth i dz 0 + nth i z 0 * nth i dx 0)
         else nth i rmu 0)
      (seq 0 (length rmu)).

End SanityChecks.
Export SanityChecks.

(** ** Applying the Q of an LQ factorization

    [El::lq::ApplyQ] (src/lapack-like/factor/LQ/ApplyQ.hpp) over the
    reals: the field [F] and its base are both [R], so the diagonal [d]
    is real and the orientation given to [DiagonalScale] has no effect on
    it.  [ApplyPackedReflectors] is a collaborator that is not under
    src/ and is a parameter. *)

Module LQ.

Inductive LeftOrRight : Type := LEFT | RIGHT.
Inductive Orientation : Type := NORMAL | TRANSPOSE | ADJOINT.
Inductive UpperOrLower : Type := LOWER | UPPER.
Inductive VerticalOrHorizontal : Type := VERTICAL | HORIZONTAL.
Inductive ForwardOrBackward : Type := FORWARD | BACKWARD.
Inductive Conjugation : Type := UNCONJUGATED | CONJUGATED.

(** [ApplyPackedReflectors( side, uplo, dir, order, conjugation, offset,
     H, t, A )], returning the overwritten last argument. *)
Definition PackedReflectors : Type :=
  LeftOrRight -> UpperOrLower -> VerticalOrHorizontal -> ForwardOrBackward ->
  Conjugation -> Z -> Matrix -> Vec -> Matrix -> Matrix.

Definition isNormal (o : Orientation) : bool :=
  match o with NORMAL => true | _ => false end.

Definition isLeft (s : LeftOrRight) : bool :=
  match s with LEFT => true | RIGHT => false end.

(** Modelled from the spec: [DiagonalScale( LEFT, orientation, d, BTop )]
    on the view [BTop = View( B, 0, 0, d.Height(), B.Width() )] (El.hpp
    is not under src/): row i of B is scaled by d_i for i < d.Height();
    the rows below the view are untouched.  Elemental requires
    d.Height() <= B.Height(); the model ignores surplus entries of d. *)
Fixpoint scaleRows (d : Vec) (rows : list Vec) : list Vec :=
  match d, rows with
  | a :: d', r :: rows' => map (fun e => a * e) r :: scaleRows d' rows'
  | _, _ => rows
  end.

(** One row of [DiagonalScale( RIGHT, orientation, d, BLeft )]: entry j
    is scaled by d_j for j < d.Height(). *)
Fixpoint scaleEntries (d r : Vec) : Vec :=
  match d, r with
  | a :: d', e :: r' => e * a :: scaleEntries d' r'
  | _, _ => r
  end.

(** Modelled from the spec: [DiagonalScale( RIGHT, orientation, d, BLeft )]
    on the view [BLeft = View( B, 0, 0, B.Height(), d.Height() )]:
    column j of B is scaled by d_j for j < d.Height(). *)
Definition scaleCols (d : Vec) (rows : list Vec) : list Vec :=
  map (scaleEntries d) rows.

(** The [if( onLeft ) ... else ...] block that scales a view of B. *)
Definition scaleView (side : LeftOrRight) (d : Vec) (B : Matrix) : Matrix :=
  if isLeft side then mkMatrix (Width B) (scaleRows d (Rows B))
  else mkMatrix (Width B) (scaleCols d (Rows B)).

(** [lq::ApplyQ( side, orientation, A, t, d, B )] on [Matrix<F>]. *)
Definition ApplyQ (ApplyPackedReflectors : PackedReflectors)
    (side : LeftOrRight) (orientation : Orientation)
    (A : Matrix) (t d : Vec) (B : Matrix) : Matrix :=
  let normal := isNormal orientation in
  let onLeft := isLeft side in
  let applyDFirst := negb (Bool.eqb normal onLeft) in
  let B1 := if applyDFirst then scaleView side d B else B in
  let direction := if Bool.eqb normal onLeft then FORWARD else BACKWARD in
  let conjugation := if normal then CONJUGATED else UNCONJUGATED in
  let B2 :=
    ApplyPackedReflectors side UPPER HORIZONTAL direction conjugation 0%Z
      A t B1 in
  if negb applyDFirst then scaleView side d B2 else B2.

(** [lq::ApplyQ] on [DistMatrix<F>]: [t] is first redistributed to the
    diagonal of A ([tDiag = t]), the rest is the same text. *)
Definition ApplyQ_Dist (ApplyPackedReflectors : PackedReflectors)
    (side : LeftOrRight) (orientation : Orientation)
    (A : Matrix) (t d : Vec) (B : Matrix) : Matrix :=
  let normal := isNormal orientation in
  let onLeft := isLeft side in
  let applyDFirst := negb (Bool.eqb normal onLeft) in
  let B1 := if applyDFirst then scaleView side d B else B in
  let direction := if Bool.eqb normal onLeft then FORWARD else BACKWARD in
  let conjugation := if normal then CONJUGATED else UNCONJUGATED in
  let tDiag := t in
  let B2 :=
    ApplyPackedReflectors side UPPER HORIZONTAL direction conjugation 0%Z
      A tDiag B1 in
  if negb applyDFirst then scaleView side d B2 else B2.

(** The contract of the collaborator that makes Q unitary: the reflectors
    applied forward and conjugated are undone by the reflectors applied
    backward and unconjugated, and conversely. *)
Definition reflectorsInvert (apr : PackedReflectors) (side : LeftOrRight)
    (A : Matrix) (t : Vec) : Prop :=
  forall B,
    apr side UPPER HORIZONTAL BACKWARD UNCONJUGATED 0%Z A t
      (apr side UPPER HORIZONTAL FORWARD CONJUGATED 0%Z A t B) = B /\
    apr side UPPER HORIZONTAL FORWARD CONJUGATED 0%Z A t
      (apr side UPPER HORIZONTAL BACKWARD UNCONJUGATED 0%Z A t B) = B /\
    apr side UPPER HORIZONTAL BACKWARD CONJUGATED 0%Z A t
      (apr side UPPER HORIZONTAL FORWARD UNCONJUGATED 0%Z A t B) = B /\
    apr side UPPER HORIZONTAL FORWARD UNCONJUGATED 0%Z A t
      (apr side UPPER HORIZONTAL BACKWARD CONJUGATED 0%Z A t B) = B.

(** Every entry of d is a sign. *)
Definition signs (d : Vec) : Prop := Forall (fun a => a * a = 1) d.

(** A concrete collaborator: reversing the order of the rows, whatever
    the flags; it is its own inverse. *)
Definition reverseRows : PackedReflectors :=
  fun side uplo dir order conjugation offset H t B =>
    mkMatrix (Width B) (rev (Rows B)).

End LQ.

(** ** A solver for one-by-one systems *)

Module ScalarDemo.

(** An exact solver for the systems with one equation, [j s = r]: it
    breaks down on a zero pivot and on every larger system. *)
Definition scalarSolve (J : Matrix) (d : Vec) : option Vec :=
  match Rows J, d with
  | [[j]], [r] => if Req_EM_T j 0 then None else Some [r / j]
  | _, _ => None
  end.

(** A solver that answers with the guess of [guess] when the guess
    solves the system, and breaks down otherwise. *)
Definition checkedSolve (guess : Matrix -> Vec -> option Vec)
    (J : Matrix) (d : Vec) : option Vec :=
  match guess J d with
  | Some s =>
      if list_eq_dec Req_EM_T (MatVec J s) d then
        if Nat.eq_dec (length s) (length d) then Some s else None
      else None
  | None => None
  end.

(** The collaborators of [demoEnv] with a line search that always
    returns the step length [alpha]. *)
Definition stepEnv (alpha : R) (solve : Matrix -> Vec -> option Vec) : Env :=
  mkEnv unit unit unit unit unit Vec tt tt tt
    (1 / 4503599627370496)
    (fun A b c it => (repeat 1 (Width A), Zeros (Height A), repeat 1 (Width A)))
    (fun A b c it =>
       ((repeat 1 (Width A), Zeros (Height A), repeat 1 (Width A)),
        (tt, tt, tt, tt)))
    solve
    (fun A b c it dir bTol cTol ls => alpha)
    (fun J => (tt, tt, tt))
    (fun mp => tt)
    (fun J mp st inf => tt)
    (fun mp inf v => v)
    (fun mp inf v => v)
    (fun inf front pivTol regCand reg t => Some (tt, reg))
    (fun inf front t => Some tt)
    (fun inf front d => d)
    (fun J mp inf front dy minRed maxIts => dy).

End ScalarDemo.
Export ScalarDemo.

(** ** Vocabulary of the further properties *)

Module MoreProps.

Definition isLineSearch {E : Env} (c : Call E) : bool :=
  match c with CallLineSearch => true | _ => false end.

Definition isBuild {E : Env} (c : Call E) : bool :=
  match c with CallBuild _ _ _ => true | _ => false end.

Definition isSymmetricSolve {E : Env} (c : Call E) : bool :=
  match c with CallSymmetricSolve => true | _ => false end.

Definition isInitialize {E : Env} (c : Call E) : bool :=
  match c with CallInitialize => true | _ => false end.

(** The step length a pass takes along a direction. *)
Definition stepLength (E : Env) (ctrl : Ctrl E) (A : Matrix) (b c : Vec)
    (it : Iterate) (dir : Direction) : R :=
  IPFLineSearch E A b c it dir
    (tol ctrl * (1 + Nrm2 b)) (tol ctrl * (1 + Nrm2 c)) (lineSearchCtrl ctrl).

(** The line search returns step lengths between 0 and 1. *)
Definition unitSteps (E : Env) : Prop :=
  forall A b c it dir bTol cTol ls,
    0 <= IPFLineSearch E A b c it dir bTol cTol ls <= 1.

(** A stage logs one build and no line search per call, as both stages
    of IPF.cpp do. *)
Definition countsPerStage {E : Env} (stage : Stage E) : Prop :=
  forall ctrl numIts md log A c x z rc rb rmu,
    let log' := snd (fst (stage ctrl numIts md log A c x z rc rb rmu)) in
    countCalls isBuild log' = S (countCalls isBuild log) /\
    countCalls isLineSearch log' = countCalls isLineSearch log /\
    countCalls isInitialize log' = countCalls isInitialize log.

(** What an exception raised by the pass with counter [numIts] says
    about the iterate (x, y, z) the pass was entered with. *)
Definition describes {LS : Type} (ctrl : IPFCtrl LS) (A : Matrix)
    (b c : Vec) (e : Error) (numIts : Z) (x y z : Vec) : Prop :=
  match e with
  | InfeasibleIterate xNumNonPos zNumNonPos =>
      xNumNonPos = NumNonPositive x /\ zNumNonPos = NumNonPositive z /\
      (hasNonPositive x \/ hasNonPositive z)
  | IterationLimitExceeded limit =>
      limit = maxIts ctrl /\ numIts = maxIts ctrl /\
      positive x /\ positive z /\ ~ ratiosWithin (tol ctrl) A b c x y z
  | UnsupportedRepresentation => False
  | FactorizationBreakdown =>
      numIts <> maxIts ctrl /\
      positive x /\ positive z /\ ~ ratiosWithin (tol ctrl) A b c x y z
  end.

(** Every system the log builds is handed to the solver of the overload
    once: to [SymmetricSolve] in the dense overloads, to a front tree and
    a factorization in the sparse-distributed one. *)
Definition solvedOnce {E : Env} (rep : Representation) (log : list (Call E))
    : Prop :=
  match rep with
  | SparseDistributed =>
      countCalls isFrontTreeInitialize log = countCalls isBuild log /\
      countCalls isFactorization log = countCalls isBuild log /\
      countCalls isSymmetricSolve log = 0%nat
  | _ =>
      countCalls isSymmetricSolve log = countCalls isBuild log /\
      countCalls isFrontTreeInitialize log = 0%nat /\
      countCalls isFactorization log = 0%nat
  end.

(** The configuration with another formulation of the linear system. *)
Definition withSystem {LS : Type} (ctrl : IPFCtrl LS) (s : KKTSystem)
    : IPFCtrl LS :=
  mkIPFCtrl (initialized ctrl) (tol ctrl) (maxIts ctrl) (centering ctrl) s
    (print ctrl) (lineSearchCtrl ctrl).

(** The state in which an overload with a loop enters it. *)
Definition startOf (E : Env) (rep : Representation) (ctrl : Ctrl E)
    (A : Matrix) (b c : Vec) (it : Iterate)
    : Metadata E * list (Call E) * Iterate :=
  match rep with
  | SparseDistributed => sparseStart E ctrl A b c it
  | _ => denseStart E ctrl A b c it
  end.

End MoreProps.
Export MoreProps.

(** * Facts about the vector primitives *)

Module VecFacts.

Lemma zipWith_length f (u v : Vec) :
  length (zipWith f u v) = Nat.min (length u) (length v).
Proof.
  revert v. induction u as [|a u IH]; intros [|b v]; simpl; auto.
Qed.

Lemma zipWith_ext f g (u v : Vec) :
  (forall a b, f a b = g a b) -> zipWith f u v = zipWith g u v.
Proof.
  intros H. revert v. induction u as [|a u IH]; intros [|b v]; simpl; auto.
  rewrite H, IH. reflexivity.
Qed.

Lemma zipWith_swap f (u v : Vec) :
  zipWith f u v = zipWith (fun a b => f b a) v u.
Proof.
  revert v. induction u as [|a u IH]; intros [|b v]; simpl; auto.
  rewrite IH. reflexivity.
Qed.

Lemma zipWith_map_r f g (u v : Vec) :
  zipWith f u (map g v) = zipWith (fun a b => f a (g b)) u v.
Proof.
  revert v. induction u as [|a u IH]; intros [|b v]; simpl; auto.
  rewrite IH. reflexivity.
Qed.

Lemma zipWith_zipWith_ext f g f' g' (u v w : Vec) :
  (forall a b c, f (g a b) c = f' (g' a b) c) ->
  zipWith f (zipWith g u v) w = zipWith f' (zipWith g' u v) w.
Proof.
  intros H. revert v w.
  induction u as [|a u IH]; intros [|b v] [|c w]; simpl; auto.
  rewrite H, IH. reflexivity.
Qed.

(** r_b is A x - b, entry by entry. *)
Lemma residual_b_minus (A : Matrix) (b x : Vec) :
  residual_b A b x = zipWith Rminus (MatVec A x) b.
Proof.
  unfold residual_b, Gemv, Scale. rewrite zipWith_map_r.
  apply zipWith_ext. intros. lra.
Qed.

(** r_c is A^T y + c - z, entry by entry. *)
Lemma residual_c_minus (A : Matrix) (c y z : Vec) :
  residual_c A c y z = zipWith Rminus (zipWith Rplus (MatTVec A y) c) z.
Proof.
  unfold residual_c, Axpy, Gemv. rewrite zipWith_swap.
  apply zipWith_zipWith_ext. intros. lra.
Qed.

(** r_mu is x o z - centering mu, entry by entry. *)
Lemma residual_mu_entries (centering mu : R) (x z : Vec) :
  residual_mu centering mu x z =
  zipWith (fun xi zi => xi * zi - centering * mu) x z.
Proof.
  unfold residual_mu, Shift, DiagonalScale.
  revert z. induction x as [|a x IH]; intros [|b z]; simpl; auto.
  rewrite IH. f_equal. lra.
Qed.

(** Evaluation of absolute values and square roots of closed terms. *)
Ltac eval_Rabs :=
  repeat match goal with
         | |- context [Rabs ?e] =>
             first [ rewrite (Rabs_pos_eq e) by lra
                   | rewrite (Rabs_left1 e) by lra ]
         | H : context [Rabs ?e] |- _ =>
             first [ rewrite (Rabs_pos_eq e) in H by lra
                   | rewrite (Rabs_left1 e) in H by lra ]
         end.

Ltac eval_sqrt :=
  repeat match goal with
         | |- context [sqrt ?e] =>
             first [ replace e with 0 by lra; rewrite sqrt_0
                   | replace e with 1 by lra; rewrite sqrt_1 ]
         | H : context [sqrt ?e] |- _ =>
             first [ replace e with 0 in H by lra; rewrite sqrt_0 in H
                   | replace e with 1 in H by lra; rewrite sqrt_1 in H ]
         end.

End VecFacts.

(** * Properties of the iteration controller *)

Module ControllerFacts.

Lemma Rleb_true_iff (a b : R) : Rleb a b = true <-> a <= b.
Proof.
  unfold Rleb. destruct (Rle_dec a b); split; intros; auto; discriminate.
Qed.

Lemma nonPositive_true_iff (a : R) : nonPositive a = true <-> a <= 0.
Proof.
  unfold nonPositive. destruct (Rle_dec a 0); split; intros; auto; discriminate.
Qed.

Lemma NumNonPositive_nonneg (v : Vec) : (0 <= NumNonPositive v)%Z.
Proof. unfold NumNonPositive. lia. Qed.

Lemma NumNonPositive_cons (a : R) (v : Vec) :
  NumNonPositive (a :: v) =
  ((if nonPositive a then 1 else 0) + NumNonPositive v)%Z.
Proof.
  unfold NumNonPositive. simpl. destruct (nonPositive a); simpl length; lia.
Qed.

Lemma NumNonPositive_pos_iff (v : Vec) :
  (0 <? NumNonPositive v)%Z = true <-> hasNonPositive v.
Proof.
  unfold hasNonPositive. rewrite Z.ltb_lt.
  induction v as [|a v IH].
  - split; intros H; [cbv in H; discriminate | inversion H].
  - rewrite NumNonPositive_cons. pose proof (NumNonPositive_nonneg v) as Hv.
    destruct (nonPositive a) eqn:Ha.
    + split; intros _; [| lia].
      apply Exists_cons_hd. now apply nonPositive_true_iff.
    + split; intros H.
      * apply Exists_cons_tl. apply IH. lia.
      * inversion H as [? ? H1 | ? ? H1]; subst.
        -- apply nonPositive_true_iff in H1. congruence.
        -- apply IH in H1. lia.
Qed.

Lemma NumNonPositive_zero_iff (v : Vec) :
  (0 <? NumNonPositive v)%Z = false <-> positive v.
Proof.
  unfold positive. rewrite Z.ltb_ge.
  induction v as [|a v IH].
  - split; intros _; [constructor | cbv; discriminate].
  - rewrite NumNonPositive_cons. pose proof (NumNonPositive_nonneg v) as Hv.
    destruct (nonPositive a) eqn:Ha.
    + split; intros H; [lia |].
      inversion H; subst. apply nonPositive_true_iff in Ha. lra.
    + split; intros H.
      * constructor.
        -- destruct (Rlt_dec 0 a) as [|Hn]; auto.
           assert (a <= 0) as Hle by lra.
           apply nonPositive_true_iff in Hle. congruence.
        -- apply IH. lia.
      * inversion H; subst. apply IH in H3. lia.
Qed.

Section Generic.

Variable E : Env.
Variable stage : Stage E.
Variable ctrl : Ctrl E.
Variable A : Matrix.
Variables b c : Vec.

Let pass := IPF_pass E stage ctrl A b c (Nrm2 b) (Nrm2 c).
Let loop := IPF_loop E stage ctrl A b c (Nrm2 b) (Nrm2 c).
Let entry := IPF_entry E stage ctrl A b c (Nrm2 b) (Nrm2 c).

(** A pass on an iterate outside the cone raises at once. *)
Lemma pass_outside_cone numIts md log x y z :
  hasNonPositive x \/ hasNonPositive z ->
  pass numIts md log (x, y, z) =
  Throw E (InfeasibleIterate (NumNonPositive x) (NumNonPositive z)) md log.
Proof.
  intros H. unfold pass, IPF_pass.
  assert ((0 <? NumNonPositive x)%Z || (0 <? NumNonPositive z)%Z = true)%bool
    as ->; [| reflexivity].
  apply orb_true_iff.
  destruct H as [H | H]; [left | right]; now apply NumNonPositive_pos_iff.
Qed.

Lemma converged_test_iff x y z :
  (Rleb (Abs (Dot c x - - Dot b y) / (1 + Abs (Dot c x))) (tol ctrl)
   && Rleb (Nrm2 (residual_b A b x) / (1 + Nrm2 b)) (tol ctrl)
   && Rleb (Nrm2 (residual_c A c y z) / (1 + Nrm2 c)) (tol ctrl))%bool = true
  <-> ratiosWithin (tol ctrl) A b c x y z.
Proof.
  unfold ratiosWithin. rewrite !andb_true_iff, !Rleb_true_iff. tauto.
Qed.

(** A pass leaves through [break] exactly on a cone-feasible iterate
    whose three ratios are within the tolerance. *)
Lemma pass_break_iff numIts md log x y z :
  pass numIts md log (x, y, z) = Break E <->
  positive x /\ positive z /\ ratiosWithin (tol ctrl) A b c x y z.
Proof.
  unfold pass, IPF_pass.
  destruct ((0 <? NumNonPositive x)%Z || (0 <? NumNonPositive z)%Z)%bool
    eqn:Hcone.
  - split; [discriminate |]. intros (Hx & Hz & _).
    apply NumNonPositive_zero_iff in Hx, Hz. rewrite Hx, Hz in Hcone.
    discriminate.
  - apply orb_false_iff in Hcone. destruct Hcone as [Hx Hz].
    apply NumNonPositive_zero_iff in Hx, Hz.
    match goal with |- context [if ?t then _ else _] => destruct t eqn:Ht end.
    + apply converged_test_iff in Ht. tauto.
    + split.
      * destruct (numIts =? maxIts ctrl)%Z; [discriminate |].
        destruct (stage _ _ _ _ _ _ _ _ _ _ _) as [[? ?] [[[? ?] ?]|]];
          discriminate.
      * intros (_ & _ & Hr). apply converged_test_iff in Hr. congruence.
Qed.

(** Running on from a loop entry that is reached. *)
Lemma loop_from_entry k : forall fuel numIts md log it s,
  entry k numIts md log it = Some s ->
  loop (k + fuel) numIts md log it =
  let '(numIts', md', log', it') := s in loop fuel numIts' md' log' it'.
Proof.
  unfold loop, entry, pass.
  induction k as [|k IH]; intros fuel numIts md log it s H.
  - simpl in H. injection H as <-. reflexivity.
  - simpl in H |- *.
    destruct (IPF_pass E stage ctrl A b c (Nrm2 b) (Nrm2 c) numIts md log it);
      try discriminate.
    apply IH. exact H.
Qed.

(** The loop returns normally exactly when a reached entry breaks. *)
Lemma loop_converged_iff numIts md log it :
  (exists fuel, status (loop fuel numIts md log it) = Converged) <->
  (exists k numIts' md' log' it',
     entry k numIts md log it = Some (numIts', md', log', it') /\
     pass numIts' md' log' it' = Break E).
Proof.
  split.
  - intros [fuel H]. revert numIts md log it H. unfold loop, entry, pass.
    induction fuel as [|fuel IH]; intros numIts md log it H.
    + discriminate.
    + simpl in H.
      destruct (IPF_pass E stage ctrl A b c (Nrm2 b) (Nrm2 c) numIts md log it)
        as [| |md' log' it'] eqn:Hp.
      * exists 0%nat, numIts, md, log, it. split; [reflexivity | exact Hp].
      * discriminate.
      * destruct (IH _ _ _ _ H) as (k & n' & md'' & log'' & it'' & He & Hb).
        exists (S k), n', md'', log'', it''. split; [| exact Hb].
        simpl. rewrite Hp. exact He.
  - intros (k & n' & md' & log' & it' & He & Hb).
    exists (k + 1)%nat.
    rewrite (loop_from_entry k 1 _ _ _ _ _ He).
    unfold loop, pass in *. simpl. rewrite Hb. reflexivity.
Qed.

(** A cone-feasible, non-converged pass at the iteration cap raises. *)
Lemma pass_at_cap numIts md log x y z :
  positive x -> positive z ->
  ~ ratiosWithin (tol ctrl) A b c x y z ->
  numIts = maxIts ctrl ->
  pass numIts md log (x, y, z) =
  Throw E (IterationLimitExceeded (maxIts ctrl)) md log.
Proof.
  intros Hx Hz Hr Hn. unfold pass, IPF_pass.
  apply NumNonPositive_zero_iff in Hx, Hz. rewrite Hx, Hz. cbn [orb].
  match goal with |- context [if ?t then _ else _] => destruct t eqn:Ht end.
  - apply converged_test_iff in Ht. contradiction.
  - subst numIts. rewrite Z.eqb_refl. reflexivity.
Qed.

(** A cone-feasible, non-converged pass below the cap runs the stage on
    the residuals of the convergence check and on r_mu, then steps. *)
Lemma pass_proceeds numIts md log x y z :
  positive x -> positive z ->
  ~ ratiosWithin (tol ctrl) A b c x y z ->
  numIts <> maxIts ctrl ->
  pass numIts md log (x, y, z) =
  match stage ctrl numIts md log A c x z
          (residual_c A c y z) (residual_b A b x)
          (residual_mu (centering ctrl) (Dot x z / INR (Width A)) x z)
  with
  | (md', log', None) => Throw E FactorizationBreakdown md' log'
  | (md', log', Some (dx, dy, dz)) =>
      Continue E md' (log' ++ [CallLineSearch])
        (Axpy (IPFLineSearch E A b c (x, y, z) (dx, dy, dz)
                 (tol ctrl * (1 + Nrm2 b)) (tol ctrl * (1 + Nrm2 c))
                 (lineSearchCtrl ctrl)) dx x,
         Axpy (IPFLineSearch E A b c (x, y, z) (dx, dy, dz)
                 (tol ctrl * (1 + Nrm2 b)) (tol ctrl * (1 + Nrm2 c))
                 (lineSearchCtrl ctrl)) dy y,
         Axpy (IPFLineSearch E A b c (x, y, z) (dx, dy, dz)
                 (tol ctrl * (1 + Nrm2 b)) (tol ctrl * (1 + Nrm2 c))
                 (lineSearchCtrl ctrl)) dz z)
  end.
Proof.
  intros Hx Hz Hr Hn. unfold pass, IPF_pass.
  apply NumNonPositive_zero_iff in Hx, Hz. rewrite Hx, Hz. cbn [orb].
  match goal with |- context [if ?t then _ else _] => destruct t eqn:Ht end.
  - apply converged_test_iff in Ht. contradiction.
  - apply Z.eqb_neq in Hn. rewrite Hn. reflexivity.
Qed.

(** A pass that continues had not reached the cap. *)
Lemma pass_continue_below_cap numIts md log it md' log' it' :
  pass numIts md log it = Continue E md' log' it' -> numIts <> maxIts ctrl.
Proof.
  unfold pass, IPF_pass. destruct it as [[x y] z].
  destruct ((0 <? NumNonPositive x)%Z || (0 <? NumNonPositive z)%Z)%bool;
    [discriminate |].
  match goal with |- context [if ?t then _ else _] => destruct t end;
    [discriminate |].
  destruct (numIts =? maxIts ctrl)%Z eqn:Hn; [discriminate |].
  intros _. now apply Z.eqb_neq.
Qed.

(** With a non-negative cap the loop ends within maxIts + 1 passes: the
    bound on passes is only ever exhausted when the cap is negative. *)
Lemma loop_terminates_within_cap fuel : forall numIts md log it,
  (numIts <= maxIts ctrl)%Z ->
  (Z.to_nat (maxIts ctrl - numIts) < fuel)%nat ->
  status (loop fuel numIts md log it) <> OutOfFuel.
Proof.
  unfold loop.
  induction fuel as [|fuel IH]; intros numIts md log it Hle Hfuel; [lia |].
  simpl.
  destruct (IPF_pass E stage ctrl A b c (Nrm2 b) (Nrm2 c) numIts md log it)
    as [| |md' log' it'] eqn:Hp; try discriminate.
  apply pass_continue_below_cap in Hp.
  apply IH; lia.
Qed.

(** What a pass can do to the metadata and the log: nothing, or what
    the stage does, followed by the line search when a direction came
    back. *)
Lemma pass_effect numIts md log it :
  match pass numIts md log it with
  | Break _ => True
  | Throw _ _ md' log' =>
      (md' = md /\ log' = log) \/
      (exists x z rc rb rmu,
         stage ctrl numIts md log A c x z rc rb rmu = (md', log', None))
  | Continue _ md' log' _ =>
      exists x z rc rb rmu log1 dir,
        stage ctrl numIts md log A c x z rc rb rmu = (md', log1, Some dir) /\
        log' = log1 ++ [CallLineSearch]
  end.
Proof.
  unfold pass, IPF_pass. destruct it as [[x y] z].
  destruct ((0 <? NumNonPositive x)%Z || (0 <? NumNonPositive z)%Z)%bool;
    [left; auto |].
  match goal with |- context [if ?t then _ else _] => destruct t end;
    [exact I |].
  destruct (numIts =? maxIts ctrl)%Z; [left; auto |].
  destruct (stage _ _ _ _ _ _ _ _ _ _ _) as [[md' log'] [[[dx dy] dz]|]] eqn:Hs.
  - exists x, z, (residual_c A c y z), (residual_b A b x),
      (residual_mu (centering ctrl) (Dot x z / INR (Width A)) x z),
      log', (dx, dy, dz).
    split; [exact Hs | reflexivity].
  - right.
    exists x, z, (residual_c A c y z), (residual_b A b x),
      (residual_mu (centering ctrl) (Dot x z / INR (Width A)) x z).
    exact Hs.
Qed.

(** Invariants of the loop: [Inv] holds at every loop entry, [Fin] of
    the metadata and log the caller is left with. *)
Section Invariant.

Variable Inv : Z -> Metadata E -> list (Call E) -> Prop.
Variable Fin : Metadata E -> list (Call E) -> Prop.

Hypothesis Inv_Fin : forall numIts md log, Inv numIts md log -> Fin md log.

Hypothesis stage_Inv :
  forall numIts md log x z rc rb rmu md' log' r,
    Inv numIts md log ->
    stage ctrl numIts md log A c x z rc rb rmu = (md', log', r) ->
    Fin md' log' /\ Inv (numIts + 1) md' (log' ++ [CallLineSearch]).

Lemma entry_invariant k : forall numIts md log it numIts' md' log' it',
  Inv numIts md log ->
  entry k numIts md log it = Some (numIts', md', log', it') ->
  Inv numIts' md' log'.
Proof.
  unfold entry.
  induction k as [|k IH]; intros numIts md log it numIts' md' log' it' HI He.
  - simpl in He. injection He as <- <- <- <-. exact HI.
  - simpl in He. pose proof (pass_effect numIts md log it) as Hp.
    unfold pass in Hp.
    destruct (IPF_pass E stage ctrl A b c (Nrm2 b) (Nrm2 c) numIts md log it)
      as [| |md1 log1 it1]; try discriminate.
    destruct Hp as (x & z & rc & rb & rmu & log0 & dir & Hs & ->).
    apply (IH _ _ _ _ _ _ _ _ (proj2 (stage_Inv _ _ _ _ _ _ _ _ _ _ _ HI Hs)) He).
Qed.

Lemma loop_invariant fuel : forall numIts md log it,
  Inv numIts md log ->
  Fin (metadata (loop fuel numIts md log it))
      (calls (loop fuel numIts md log it)).
Proof.
  unfold loop.
  induction fuel as [|fuel IH]; intros numIts md log it HI.
  - simpl. apply (Inv_Fin _ _ _ HI).
  - simpl. pose proof (pass_effect numIts md log it) as Hp.
    unfold pass in Hp.
    destruct (IPF_pass E stage ctrl A b c (Nrm2 b) (Nrm2 c) numIts md log it)
      as [|e md1 log1|md1 log1 it1].
    + simpl. apply (Inv_Fin _ _ _ HI).
    + simpl. destruct Hp as [[-> ->] | (x & z & rc & rb & rmu & Hs)].
      * apply (Inv_Fin _ _ _ HI).
      * apply (proj1 (stage_Inv _ _ _ _ _ _ _ _ _ _ _ HI Hs)).
    + destruct Hp as (x & z & rc & rb & rmu & log0 & dir & Hs & ->).
      apply IH. apply (proj2 (stage_Inv _ _ _ _ _ _ _ _ _ _ _ HI Hs)).
Qed.

End Invariant.

End Generic.

End ControllerFacts.

(** * The claims about the controller *)

Module ControllerClaims.

Import ControllerFacts.

(** An overload that reaches its k-th loop entry continues from there. *)
Lemma IPF_from_entry E rep k fuel A b c it ctrl numIts md log it' :
  loopEntry E rep k A b c it ctrl = Some (numIts, md, log, it') ->
  IPF E rep (k + fuel) A b c it ctrl =
  IPF_loop E (stageOf E rep) ctrl A b c (Nrm2 b) (Nrm2 c) fuel numIts md log it'.
Proof.
  intros H.
  destruct rep; simpl in H |- *; try discriminate;
    unfold IPF_Matrix, IPF_DistMatrix, IPF_DistSparseMatrix.
  - destruct (denseStart E ctrl A b c it) as [[md0 log0] it0].
    exact (loop_from_entry E _ ctrl A b c k fuel _ _ _ _ _ H).
  - destruct (denseStart E ctrl A b c it) as [[md0 log0] it0].
    exact (loop_from_entry E _ ctrl A b c k fuel _ _ _ _ _ H).
  - destruct (sparseStart E ctrl A b c it) as [[md0 log0] it0].
    exact (loop_from_entry E _ ctrl A b c k fuel _ _ _ _ _ H).
Qed.

(** C3.  At every loop entry of every overload, and whatever the
    convergence ratios of the iterate are, an iterate with a non-positive
    entry in x or in z makes the solve call end with InfeasibleIterate
    carrying the number of non-positive entries of x and of z; the
    iterate, the metadata and the log of collaborator calls are those of
    the loop entry, so nothing was built, solved or updated. *)
Theorem cone_violation_raises_with_counts :
  forall E rep A b c it ctrl k fuel numIts md log x y z,
    loopEntry E rep k A b c it ctrl = Some (numIts, md, log, (x, y, z)) ->
    hasNonPositive x \/ hasNonPositive z ->
    IPF E rep (k + S fuel) A b c it ctrl =
    mkRun
      (Raised (InfeasibleIterate
                 (Z.of_nat (length (filter nonPositive x)))
                 (Z.of_nat (length (filter nonPositive z)))))
      (x, y, z) md log.
Proof.
  intros E rep A b c it ctrl k fuel numIts md log x y z He Hv.
  rewrite (IPF_from_entry _ _ _ _ _ _ _ _ _ _ _ _ _ He).
  cbn [IPF_loop]. rewrite pass_outside_cone by exact Hv. reflexivity.
Qed.

(** The cone check on a converged but infeasible start: x = [0]. *)
Lemma cone_violation_witness :
  let E := demoEnv noSolve in
  let ctrl := demoCtrl E tt true 50 AUGMENTED_KKT in
  loopEntry E DenseSerial 0 (oneByOne 1) [0] [1] ([0], [0], [1]) ctrl =
    Some (0%Z, emptyMetadata E, [], ([0], [0], [1])) /\
  (hasNonPositive [0] \/ hasNonPositive [1]) /\
  IPF E DenseSerial 1 (oneByOne 1) [0] [1] ([0], [0], [1]) ctrl =
    mkRun (Raised (InfeasibleIterate
                     (Z.of_nat (length (filter nonPositive [0])))
                     (Z.of_nat (length (filter nonPositive [1])))))
          ([0], [0], [1]) (emptyMetadata E) [].
Proof.
  intros E ctrl.
  assert (hasNonPositive [0] \/ hasNonPositive [1]) as Hv.
  { left. apply Exists_cons_hd. lra. }
  split; [reflexivity |]. split; [exact Hv |].
  apply (cone_violation_raises_with_counts E DenseSerial (oneByOne 1) [0] [1]
           ([0], [0], [1]) ctrl 0 0 0%Z (emptyMetadata E) [] [0] [0] [1]).
  - reflexivity.
  - exact Hv.
Defined.

(** C6.  The sparse-serial overload raises UnsupportedRepresentation for
    every input, whatever the bound on passes; it makes no collaborator
    call and leaves (x, y, z) as passed in. *)
Theorem sparse_serial_unsupported :
  forall E fuel A b c it ctrl,
    status (IPF E SparseSerial fuel A b c it ctrl) =
      Raised UnsupportedRepresentation /\
    iterate (IPF E SparseSerial fuel A b c it ctrl) = it /\
    calls (IPF E SparseSerial fuel A b c it ctrl) = [] /\
    IPF E SparseSerial fuel A b c it ctrl = IPF_SparseMatrix E A b c it ctrl.
Proof. intros. repeat split. Qed.

(** Whatever the formulation and the overload, the stage first logs the
    system it built, with the right-hand side assembled from the vectors
    it was handed. *)
Lemma stage_logs_build E rep ctrl numIts md log A c x z rc rb rmu :
  exists rest,
    snd (fst (stageOf E rep ctrl numIts md log A c x z rc rb rmu)) =
    log ++ CallBuild (system ctrl) (systemMatrix (system ctrl) A x z)
                     (systemRHS (system ctrl) A x z rc rb rmu) :: rest.
Proof.
  destruct rep; unfold stageOf, denseStage, sparseStage, regularizedSolve;
    destruct (system ctrl); cbn [systemMatrix systemRHS].
  1-9: destruct (SymmetricSolve E _ _); cbn [fst snd];
       rewrite <- ?app_assoc; eexists; reflexivity.
  - destruct (numIts =? 0)%Z;
      destruct (RegularizedLDL E _ _ _ _ _ _) as [[? ?]|]; cbn [fst snd];
      rewrite <- ?app_assoc; eexists; reflexivity.
  - destruct (initialized ctrl && (numIts =? 0)%Z)%bool;
      destruct (RegularizedLDL E _ _ _ _ _ _) as [[? ?]|]; cbn [fst snd];
      rewrite <- ?app_assoc; eexists; reflexivity.
  - destruct (numIts =? 0)%Z;
      destruct (LDL E _ _ _); cbn [fst snd];
      rewrite <- ?app_assoc; eexists; reflexivity.
Qed.

Lemma loopEntry_zero E rep A b c it ctrl numIts md log it' :
  loopEntry E rep 0 A b c it ctrl = Some (numIts, md, log, it') ->
  numIts = 0%Z /\ (log = [] \/ log = [CallInitialize]).
Proof.
  destruct rep; simpl; try discriminate; unfold denseStart, sparseStart.
  1-2: destruct (initialized ctrl); intros H; injection H as <- <- <- <-; auto.
  destruct (initialized ctrl).
  - intros H; injection H as <- <- <- <-; auto.
  - destruct (system ctrl);
      destruct (InitializeSparse E A b c it) as [it1 [[[? ?] ?] ?]];
      intros H; injection H as <- <- <- <-; auto.
Qed.

(** C5 (amended).  With maxIts = 0, an overload that enters its loop
    with x > 0 and z > 0 and convergence ratios not all within tol ends
    with IterationLimitExceeded reporting the limit 0; the iterate is the
    one the loop was entered with, and the log holds at most the
    initializer call: nothing was built, solved or searched. *)
Theorem iteration_cap_zero_raises :
  forall E rep A b c it ctrl fuel numIts md log x y z,
    maxIts ctrl = 0%Z ->
    loopEntry E rep 0 A b c it ctrl = Some (numIts, md, log, (x, y, z)) ->
    positive x -> positive z ->
    ~ ratiosWithin (tol ctrl) A b c x y z ->
    IPF E rep (S fuel) A b c it ctrl =
      mkRun (Raised (IterationLimitExceeded 0)) (x, y, z) md log /\
    (log = [] \/ log = [CallInitialize]).
Proof.
  intros E rep A b c it ctrl fuel numIts md log x y z Hcap He Hx Hz Hr.
  destruct (loopEntry_zero _ _ _ _ _ _ _ _ _ _ _ He) as [Hn Hlog].
  split; [| exact Hlog].
  change (S fuel) with (0 + S fuel)%nat.
  rewrite (IPF_from_entry E rep 0 (S fuel) _ _ _ _ _ _ _ _ _ He).
  cbn [IPF_loop]. rewrite pass_at_cap; auto; [| congruence].
  rewrite Hcap. reflexivity.
Qed.

Import VecFacts.

(** The cap at a feasible, non-converged start: x = [1/2], z = [1]. *)
Lemma iteration_cap_zero_witness :
  let E := demoEnv noSolve in
  let ctrl := demoCtrl E tt true 0 AUGMENTED_KKT in
  maxIts ctrl = 0%Z /\
  loopEntry E DenseSerial 0 (oneByOne 1) [1] [1] ([1 / 2], [0], [1]) ctrl =
    Some (0%Z, emptyMetadata E, [], ([1 / 2], [0], [1])) /\
  positive [1 / 2] /\ positive [1] /\
  ~ ratiosWithin (tol ctrl) (oneByOne 1) [1] [1] [1 / 2] [0] [1] /\
  IPF E DenseSerial 1 (oneByOne 1) [1] [1] ([1 / 2], [0], [1]) ctrl =
    mkRun (Raised (IterationLimitExceeded 0)) ([1 / 2], [0], [1])
          (emptyMetadata E) [] /\
  (@nil (Call E) = [] \/ @nil (Call E) = [CallInitialize]).
Proof.
  intros E ctrl.
  assert (positive [1 / 2]) as Hx by (repeat constructor; lra).
  assert (positive [1]) as Hz by (repeat constructor; lra).
  assert (~ ratiosWithin (tol ctrl) (oneByOne 1) [1] [1] [1 / 2] [0] [1])
    as Hr.
  { intros [H _]. simpl in H. unfold Abs in H. eval_Rabs. lra. }
  repeat (split; [first [reflexivity | assumption] |]).
  apply (iteration_cap_zero_raises E DenseSerial (oneByOne 1) [1] [1]
           ([1 / 2], [0], [1]) ctrl 0 0%Z (emptyMetadata E) []
           [1 / 2] [0] [1]); first [reflexivity | assumption].
Defined.

(** C5 as stated fails outside the cone: with maxIts = 0 and the
    non-converged start x = [0], y = [1], z = [1] the call raises
    InfeasibleIterate, never IterationLimitExceeded. *)
Lemma iteration_cap_zero_outside_cone :
  let E := demoEnv noSolve in
  let ctrl := demoCtrl E tt true 0 AUGMENTED_KKT in
  maxIts ctrl = 0%Z /\
  loopEntry E DenseSerial 0 (oneByOne 1) [1] [1] ([0], [1], [1]) ctrl =
    Some (0%Z, emptyMetadata E, [], ([0], [1], [1])) /\
  ~ ratiosWithin (tol ctrl) (oneByOne 1) [1] [1] [0] [1] [1] /\
  (forall fuel,
     IPF E DenseSerial (S fuel) (oneByOne 1) [1] [1] ([0], [1], [1]) ctrl =
     mkRun (Raised (InfeasibleIterate 1 0)) ([0], [1], [1])
           (emptyMetadata E) []) /\
  (forall fuel,
     status (IPF E DenseSerial fuel (oneByOne 1) [1] [1] ([0], [1], [1]) ctrl)
     <> Raised (IterationLimitExceeded 0)).
Proof.
  intros E ctrl.
  assert (forall fuel,
     IPF E DenseSerial (S fuel) (oneByOne 1) [1] [1] ([0], [1], [1]) ctrl =
     mkRun (Raised (InfeasibleIterate 1 0)) ([0], [1], [1])
           (emptyMetadata E) []) as Hrun.
  { intros fuel. unfold IPF, IPF_Matrix. cbn [denseStart ctrl demoCtrl initialized].
    cbn [IPF_loop]. rewrite pass_outside_cone.
    - unfold NumNonPositive. simpl. unfold nonPositive.
      destruct (Rle_dec 0 0); [| lra]. destruct (Rle_dec 1 0); [lra |].
      reflexivity.
    - left. apply Exists_cons_hd. lra. }
  split; [reflexivity |]. split; [reflexivity |]. split; [| split].
  - intros [H _]. simpl in H. unfold Abs in H. eval_Rabs. lra.
  - exact Hrun.
  - intros [|fuel]; [discriminate |]. rewrite Hrun. discriminate.
Qed.

(** Returning normally, overload by overload. *)
Lemma returnsNormally_iff_break E rep A b c it ctrl :
  returnsNormally E rep A b c it ctrl <->
  exists k numIts md log it',
    loopEntry E rep k A b c it ctrl = Some (numIts, md, log, it') /\
    IPF_pass E (stageOf E rep) ctrl A b c (Nrm2 b) (Nrm2 c) numIts md log it'
    = Break E.
Proof.
  unfold returnsNormally.
  destruct rep; simpl;
    unfold IPF_Matrix, IPF_DistMatrix, IPF_DistSparseMatrix.
  - destruct (denseStart E ctrl A b c it) as [[md0 log0] it0].
    apply loop_converged_iff.
  - destruct (denseStart E ctrl A b c it) as [[md0 log0] it0].
    apply loop_converged_iff.
  - split.
    + intros [_ H]. discriminate.
    + intros (k & n & md & log & it' & H & _). discriminate.
  - destruct (sparseStart E ctrl A b c it) as [[md0 log0] it0].
    apply loop_converged_iff.
Qed.

(** C1 (amended).  For every overload, the solve call returns normally
    exactly when it reaches a loop entry whose iterate passes the cone
    check (x > 0 and z > 0) and has
      |c^T x - (-b^T y)| / (1 + |c^T x|) <= tol,
      || A x - b ||_2 / (1 + || b ||_2) <= tol,
      || A^T y - z + c ||_2 / (1 + || c ||_2) <= tol.
    In a pass that goes on to the Newton system, the right-hand side is
    assembled from the very vectors r_b = A x - b and r_c = A^T y - z + c
    of that check, together with the r_mu = x o z - centering mu e of
    the pass. *)
Theorem returns_normally_iff_converged_entry :
  forall E rep A b c it ctrl,
    (returnsNormally E rep A b c it ctrl <->
     exists k numIts md log x y z,
       loopEntry E rep k A b c it ctrl = Some (numIts, md, log, (x, y, z)) /\
       positive x /\ positive z /\
       let rb := zipWith Rminus (MatVec A x) b in
       let rc := zipWith Rminus (zipWith Rplus (MatTVec A y) c) z in
       Rabs (Dot c x - (- Dot b y)) / (1 + Rabs (Dot c x)) <= tol ctrl /\
       sqrt (Dot rb rb) / (1 + sqrt (Dot b b)) <= tol ctrl /\
       sqrt (Dot rc rc) / (1 + sqrt (Dot c c)) <= tol ctrl) /\
    (forall k numIts md log x y z,
       loopEntry E rep k A b c it ctrl = Some (numIts, md, log, (x, y, z)) ->
       positive x -> positive z ->
       ~ ratiosWithin (tol ctrl) A b c x y z ->
       numIts <> maxIts ctrl ->
       let rmu :=
         zipWith (fun xi zi =>
                    xi * zi - centering ctrl * (Dot x z / INR (Width A)))
                 x z in
       exists rest,
         passLog (IPF_pass E (stageOf E rep) ctrl A b c (Nrm2 b) (Nrm2 c)
                    numIts md log (x, y, z)) log =
         log ++ CallBuild (system ctrl) (systemMatrix (system ctrl) A x z)
                  (systemRHS (system ctrl) A x z
                     (zipWith Rminus (zipWith Rplus (MatTVec A y) c) z)
                     (zipWith Rminus (MatVec A x) b) rmu) :: rest).
Proof.
  intros E rep A b c it ctrl. split.
  - rewrite returnsNormally_iff_break. split.
    + intros (k & n & md & log & [[x y] z] & He & Hb).
      apply pass_break_iff in Hb. destruct Hb as (Hx & Hz & Hr).
      exists k, n, md, log, x, y, z. repeat (split; [assumption |]).
      unfold ratiosWithin, Nrm2, Abs in Hr.
      rewrite residual_b_minus, residual_c_minus in Hr. exact Hr.
    + intros (k & n & md & log & x & y & z & He & Hx & Hz & Hr).
      exists k, n, md, log, (x, y, z). split; [assumption |].
      apply pass_break_iff. repeat (split; [assumption |]).
      unfold ratiosWithin, Nrm2, Abs.
      rewrite residual_b_minus, residual_c_minus. exact Hr.
  - intros k n md log x y z He Hx Hz Hr Hn rmu. subst rmu.
    rewrite pass_proceeds by assumption.
    rewrite <- residual_b_minus, <- residual_c_minus, <- residual_mu_entries.
    destruct (stage_logs_build E rep ctrl n md log A c x z
                (residual_c A c y z) (residual_b A b x)
                (residual_mu (centering ctrl) (Dot x z / INR (Width A)) x z))
      as [rest Hrest].
    destruct (stageOf E rep ctrl n md log A c x z _ _ _)
      as [[md' log'] [[[dx dy] dz]|]]; cbn [fst snd] in Hrest; cbn [passLog].
    + exists (rest ++ [CallLineSearch]). rewrite Hrest.
      rewrite <- app_assoc. reflexivity.
    + exists rest. exact Hrest.
Qed.

(** C1 as stated fails outside the cone: at the first loop entry of the
    start x = [0], y = [0], z = [1] all three ratios are 0, but the cone
    check raises before the convergence check is reached. *)
Lemma converged_ratios_outside_cone :
  let E := demoEnv noSolve in
  let ctrl := demoCtrl E tt true 50 AUGMENTED_KKT in
  (exists k numIts md log x y z,
     loopEntry E DenseSerial k (oneByOne 1) [0] [1] ([0], [0], [1]) ctrl =
       Some (numIts, md, log, (x, y, z)) /\
     ratiosWithin (tol ctrl) (oneByOne 1) [0] [1] x y z) /\
  ~ returnsNormally E DenseSerial (oneByOne 1) [0] [1] ([0], [0], [1]) ctrl.
Proof.
  intros E ctrl. split.
  - exists 0%nat, 0%Z, (emptyMetadata E), [], [0], [0], [1].
    split; [reflexivity |].
    unfold ratiosWithin, Nrm2, residual_b, residual_c, Abs. simpl.
    eval_sqrt. eval_Rabs. repeat split; lra.
  - intros [fuel H]. destruct fuel as [|fuel]; [discriminate |].
    unfold IPF, IPF_Matrix in H.
    cbn [denseStart ctrl demoCtrl initialized IPF_loop] in H.
    rewrite pass_outside_cone in H; [discriminate |].
    left. apply Exists_cons_hd. lra.
Qed.

(** C9 (amended).  A pass of any overload whose iterate passes the cone
    check, is not converged and has not reached the iteration cap
    (numIts <> maxIts) computes mu = (x^T z) / n and
    r_mu = x o z - centering mu e, and runs its build/solve/expand stage
    on that r_mu: the right-hand side of the chosen formulation is
    assembled from it, and the step taken is the one the stage returns. *)
Theorem newton_rhs_uses_duality_measure :
  forall E rep A b c it ctrl k numIts md log x y z,
    loopEntry E rep k A b c it ctrl = Some (numIts, md, log, (x, y, z)) ->
    positive x -> positive z ->
    ~ ratiosWithin (tol ctrl) A b c x y z ->
    numIts <> maxIts ctrl ->
    let mu := Dot x z / INR (Width A) in
    let rmu := zipWith (fun xi zi => xi * zi - centering ctrl * mu) x z in
    let staged :=
      stageOf E rep ctrl numIts md log A c x z
        (residual_c A c y z) (residual_b A b x) rmu in
    IPF_pass E (stageOf E rep) ctrl A b c (Nrm2 b) (Nrm2 c) numIts md log
      (x, y, z) =
    match staged with
    | (md', log', None) => Throw E FactorizationBreakdown md' log'
    | (md', log', Some (dx, dy, dz)) =>
        let alpha :=
          IPFLineSearch E A b c (x, y, z) (dx, dy, dz)
            (tol ctrl * (1 + Nrm2 b)) (tol ctrl * (1 + Nrm2 c))
            (lineSearchCtrl ctrl) in
        Continue E md' (log' ++ [CallLineSearch])
          (Axpy alpha dx x, Axpy alpha dy y, Axpy alpha dz z)
    end /\
    exists rest,
      snd (fst staged) =
      log ++ CallBuild (system ctrl) (systemMatrix (system ctrl) A x z)
               (systemRHS (system ctrl) A x z
                  (residual_c A c y z) (residual_b A b x) rmu) :: rest.
Proof.
  intros E rep A b c it ctrl k n md log x y z He Hx Hz Hr Hn mu rmu staged.
  subst staged rmu mu. rewrite <- residual_mu_entries. split.
  - rewrite pass_proceeds by assumption. reflexivity.
  - apply stage_logs_build.
Qed.

(** A feasible, non-converged first pass below the cap. *)
Lemma newton_rhs_witness :
  let E := demoEnv noSolve in
  let ctrl := demoCtrl E tt true 50 FULL_KKT in
  let A := oneByOne 1 in
  loopEntry E DenseSerial 0 A [1] [1] ([1 / 2], [0], [1]) ctrl =
    Some (0%Z, emptyMetadata E, [], ([1 / 2], [0], [1])) /\
  positive [1 / 2] /\ positive [1] /\
  ~ ratiosWithin (tol ctrl) A [1] [1] [1 / 2] [0] [1] /\
  0%Z <> maxIts ctrl /\
  exists rest,
    snd (fst (stageOf E DenseSerial ctrl 0%Z (emptyMetadata E) [] A [1]
                [1 / 2] [1] (residual_c A [1] [0] [1])
                (residual_b A [1] [1 / 2])
                (zipWith (fun xi zi =>
                            xi * zi
                            - centering ctrl * (Dot [1 / 2] [1] / INR (Width A)))
                         [1 / 2] [1]))) =
    [] ++ CallBuild FULL_KKT (KKT A [1 / 2] [1])
            (KKTRHS (residual_c A [1] [0] [1]) (residual_b A [1] [1 / 2])
               (zipWith (fun xi zi =>
                           xi * zi
                           - centering ctrl * (Dot [1 / 2] [1] / INR (Width A)))
                        [1 / 2] [1]) [1]) :: rest.
Proof.
  intros E ctrl A.
  assert (positive [1 / 2]) as Hx by (repeat constructor; lra).
  assert (positive [1]) as Hz by (repeat constructor; lra).
  assert (~ ratiosWithin (tol ctrl) A [1] [1] [1 / 2] [0] [1]) as Hr.
  { intros [H _]. simpl in H. unfold Abs in H. eval_Rabs. lra. }
  assert (0%Z <> maxIts ctrl) as Hn by discriminate.
  repeat (split; [first [reflexivity | assumption] |]).
  exact (proj2 (newton_rhs_uses_duality_measure E DenseSerial A [1] [1]
                  ([1 / 2], [0], [1]) ctrl 0 0%Z (emptyMetadata E) []
                  [1 / 2] [0] [1] eq_refl Hx Hz Hr Hn)).
Defined.

(** C9 as stated fails at the iteration cap: with maxIts = 0 the first
    pass of a feasible, non-converged start raises before the duality
    measure is computed, and no right-hand side is assembled. *)
Lemma capped_iteration_assembles_nothing :
  let E := demoEnv noSolve in
  let ctrl := demoCtrl E tt true 0 FULL_KKT in
  let A := oneByOne 1 in
  loopEntry E DenseSerial 0 A [1] [1] ([1 / 2], [0], [1]) ctrl =
    Some (0%Z, emptyMetadata E, [], ([1 / 2], [0], [1])) /\
  positive [1 / 2] /\ positive [1] /\
  ~ ratiosWithin (tol ctrl) A [1] [1] [1 / 2] [0] [1] /\
  IPF_pass E (stageOf E DenseSerial) ctrl A [1] [1] (Nrm2 [1]) (Nrm2 [1])
    0 (emptyMetadata E) [] ([1 / 2], [0], [1]) =
    Throw E (IterationLimitExceeded 0) (emptyMetadata E) [] /\
  forall fuel, calls (IPF E DenseSerial fuel A [1] [1] ([1 / 2], [0], [1]) ctrl)
               = [].
Proof.
  intros E ctrl A.
  assert (positive [1 / 2]) as Hx by (repeat constructor; lra).
  assert (positive [1]) as Hz by (repeat constructor; lra).
  assert (~ ratiosWithin (tol ctrl) A [1] [1] [1 / 2] [0] [1]) as Hr.
  { intros [H _]. simpl in H. unfold Abs in H. eval_Rabs. lra. }
  assert (IPF_pass E (stageOf E DenseSerial) ctrl A [1] [1] (Nrm2 [1])
            (Nrm2 [1]) 0 (emptyMetadata E) [] ([1 / 2], [0], [1]) =
          Throw E (IterationLimitExceeded 0) (emptyMetadata E) []) as Hp.
  { apply (pass_at_cap E (stageOf E DenseSerial) ctrl A [1] [1]);
      first [assumption | reflexivity]. }
  repeat (split; [first [reflexivity | assumption] |]).
  intros [|fuel]; [reflexivity |].
  unfold IPF, IPF_Matrix. cbn [denseStart ctrl demoCtrl initialized IPF_loop].
  change (denseStage E) with (stageOf E DenseSerial). rewrite Hp. reflexivity.
Qed.

End ControllerClaims.

(** * The claims about the sparse-distributed pipeline *)

Module SparseClaims.

Import ControllerFacts ControllerClaims.

(** The sparse stage, branch by branch: what it logs and returns in
    terms of the system of the formulation, the metadata of the pass and
    the outcome of the factorization. *)
Lemma sparseStage_normal_form E ctrl numIts md log A c x z rc rb rmu :
  let s := system ctrl in
  let m := Height A in
  let n := Width A in
  let J := systemMatrix s A x z in
  let d := systemRHS s A x z rc rb rmu in
  let md1 := passMetadata E ctrl numIts md J in
  let front := FrontTreeInitialize E J (map_ md1) (sepTree md1) (info md1) in
  let pivTol := MaxNorm J * MachineEpsilon E in
  let regCand := regCandOf s m n (MachineEpsilon E) in
  let reg := regOf s m n in
  let built :=
    log ++ CallBuild s J d :: analysisCalls E ctrl numIts J
        ++ [CallFrontTreeInitialize J md1] in
  sparseStage E ctrl numIts md log A c x z rc rb rmu =
  match s with
  | NORMAL_KKT =>
      match LDL E (info md1) front LDL_INTRAPIV_1D with
      | None => (md1, built ++ [CallLDL LDL_INTRAPIV_1D], None)
      | Some front' =>
          (md1,
           built ++ [CallLDL LDL_INTRAPIV_1D;
                     CallSolveWithIterativeRefinement 2 10;
                     CallExpand s],
           Some (expand s A c x z rc rmu
                   (SolveWithIterativeRefinement E J (invMap md1) (info md1)
                      front' d 2 10)))
      end
  | _ =>
      match RegularizedLDL E (info md1) front pivTol
              (Pull E (invMap md1) (info md1) regCand)
              (Pull E (invMap md1) (info md1) reg) LDL_1D with
      | None => (md1, built ++ [CallRegularizedLDL pivTol regCand reg LDL_1D],
                 None)
      | Some (front', _) =>
          (md1,
           built ++ [CallRegularizedLDL pivTol regCand reg LDL_1D;
                     CallSolve; CallExpand s],
           Some (expand s A c x z rc rmu
                   (Push E (invMap md1) (info md1)
                      (Solve E (info md1) front'
                         (Pull E (invMap md1) (info md1) d)))))
      end
  end.
Proof.
  unfold sparseStage, regularizedSolve, passMetadata, analysisCalls, analysesAt.
  destruct (system ctrl);
    cbn [systemMatrix systemRHS regCandOf regOf expand].
  - destruct (numIts =? 0)%Z;
      destruct (RegularizedLDL E _ _ _ _ _ _) as [[? ?]|];
      cbn; rewrite <- ?app_assoc; reflexivity.
  - destruct (initialized ctrl && (numIts =? 0)%Z)%bool;
      destruct (RegularizedLDL E _ _ _ _ _ _) as [[? ?]|];
      cbn; rewrite <- ?app_assoc; reflexivity.
  - destruct (numIts =? 0)%Z;
      destruct (LDL E _ _ _);
      cbn; rewrite <- ?app_assoc; reflexivity.
Qed.

Lemma skipn_length_app {T : Type} (l l' : list T) :
  skipn (length l) (l ++ l') = l'.
Proof. induction l; simpl; auto. Qed.

Lemma nth_map_seq (f : nat -> R) (N i : nat) :
  (i < N)%nat -> nth i (map f (seq 0 N)) 0 = f i.
Proof.
  intros Hi. rewrite (nth_indep _ 0 (f 0%nat)) by (rewrite length_map, length_seq; lia).
  rewrite map_nth, seq_nth by lia. reflexivity.
Qed.

(** The regularization realized with no a priori regularization: the
    candidate where the pivot is below the tolerance, nothing elsewhere. *)
Lemma nth_realizedRegularization (pivTol : R) :
  forall (regCand pivots : Vec) (i : nat),
    length pivots = length regCand -> (i < length regCand)%nat ->
    nth i (realizedRegularization pivTol regCand (Zeros (length regCand))
             pivots) 0 =
    if Rlt_dec (Rabs (nth i pivots 0)) pivTol then nth i regCand 0 else 0.
Proof.
  induction regCand as [|cand regCand IH]; intros [|p pivots] i Hl Hi;
    simpl in Hl, Hi; try lia; try discriminate.
  destruct i as [|i]; cbn [length Zeros repeat realizedRegularization nth].
  - destruct (Rlt_dec (Rabs p) pivTol); [apply Rplus_0_l | reflexivity].
  - apply IH; lia.
Qed.

(** C7 (amended).  In every pass of the sparse-distributed overload the
    FULL_KKT and AUGMENTED_KKT branches factor with RegularizedLDL
    (LDL_1D), with pivot tolerance MaxNorm(J) * epsilon, no a priori
    regularization, and the candidates epsilon^0.75 at the indices below
    n (x block), -epsilon^0.5 at the indices of the y block and
    -epsilon^0.5 at those of the z block (present for FULL_KKT only);
    with these arguments the regularization realized at an index is the
    candidate where the pivot falls below the tolerance and zero
    everywhere else.  The NORMAL_KKT branch does not regularize: its
    only factorization is the plain LDL (LDL_INTRAPIV_1D). *)
Theorem regularized_ldl_in_full_and_augmented :
  forall E ctrl numIts md log A c x z rc rb rmu,
    let s := system ctrl in
    let m := Height A in
    let n := Width A in
    let epsilon := MachineEpsilon E in
    let J := systemMatrix s A x z in
    let new :=
      stageCalls log (sparseStage E ctrl numIts md log A c x z rc rb rmu) in
    match s with
    | NORMAL_KKT =>
        filter isFactorization new = [CallLDL LDL_INTRAPIV_1D]
    | _ =>
        exists regCand,
          filter isFactorization new =
            [CallRegularizedLDL (MaxNorm J * epsilon) regCand
               (Zeros (length regCand)) LDL_1D] /\
          length regCand =
            match s with FULL_KKT => (n + m + n)%nat | _ => (n + m)%nat end /\
          (forall i, (i < length regCand)%nat ->
             nth i regCand 0 =
             if (i <? n)%nat then Rpower epsilon (3 / 4)
             else if (i <? n + m)%nat then - Rpower epsilon (1 / 2)
             else - Rpower epsilon (1 / 2)) /\
          forall pivots i,
            length pivots = length regCand -> (i < length regCand)%nat ->
            let realized :=
              realizedRegularization (MaxNorm J * epsilon) regCand
                (Zeros (length regCand)) pivots in
            (Rabs (nth i pivots 0) < MaxNorm J * epsilon ->
             nth i realized 0 = nth i regCand 0) /\
            (MaxNorm J * epsilon <= Rabs (nth i pivots 0) ->
             nth i realized 0 = 0)
    end.
Proof.
  intros E ctrl numIts md log A c x z rc rb rmu s m n epsilon J new.
  assert (forall regCand pivots i,
            length pivots = length regCand -> (i < length regCand)%nat ->
            let realized :=
              realizedRegularization (MaxNorm J * epsilon) regCand
                (Zeros (length regCand)) pivots in
            (Rabs (nth i pivots 0) < MaxNorm J * epsilon ->
             nth i realized 0 = nth i regCand 0) /\
            (MaxNorm J * epsilon <= Rabs (nth i pivots 0) ->
             nth i realized 0 = 0)) as Hreal.
  { intros regCand pivots i Hl Hi realized. subst realized.
    rewrite nth_realizedRegularization by assumption.
    destruct (Rlt_dec (Rabs (nth i pivots 0)) (MaxNorm J * epsilon));
      split; intros; try reflexivity; lra. }
  subst new. unfold stageCalls. rewrite sparseStage_normal_form.
  fold s m n J. unfold analysisCalls.
  destruct s eqn:Hs; cbn [regCandOf regOf].
  - exists (regCandFull m n epsilon).
    assert (length (regCandFull m n epsilon) = (n + m + n)%nat) as Hlen.
    { unfold regCandFull. rewrite length_map, length_seq. lia. }
    split; [| split; [exact Hlen | split; [| apply Hreal]]].
    + rewrite Hlen. replace (n + m + n)%nat with (m + 2 * n)%nat by lia.
      destruct (RegularizedLDL E _ _ _ _ _ _) as [[? ?]|];
        destruct (analysesAt ctrl numIts); cbn [fst snd];
        rewrite <- ?app_assoc, skipn_length_app; reflexivity.
    + intros i Hi. rewrite Hlen in Hi. unfold regCandFull.
      rewrite nth_map_seq by lia. reflexivity.
  - exists (regCandAugmented m n epsilon).
    assert (length (regCandAugmented m n epsilon) = (n + m)%nat) as Hlen.
    { unfold regCandAugmented. rewrite length_map, length_seq. lia. }
    split; [| split; [exact Hlen | split; [| apply Hreal]]].
    + rewrite Hlen. replace (n + m)%nat with (m + n)%nat by lia.
      destruct (RegularizedLDL E _ _ _ _ _ _) as [[? ?]|];
        destruct (analysesAt ctrl numIts); cbn [fst snd];
        rewrite <- ?app_assoc, skipn_length_app; reflexivity.
    + intros i Hi. rewrite Hlen in Hi. unfold regCandAugmented.
      rewrite nth_map_seq by lia.
      destruct (i <? n)%nat; [reflexivity |].
      destruct (i <? n + m)%nat; reflexivity.
  - destruct (LDL E _ _ _); destruct (analysesAt ctrl numIts); cbn [fst snd];
      rewrite <- ?app_assoc, skipn_length_app; reflexivity.
Qed.

(** C7 as stated fails for NORMAL_KKT: the pass of a feasible,
    non-converged start factors with the plain LDL and never calls
    RegularizedLDL. *)
Lemma normal_kkt_is_not_regularized :
  let E := demoEnv noSolve in
  let ctrl := demoCtrl E tt true 50 NORMAL_KKT in
  let run :=
    IPF E SparseDistributed 1 (oneByOne 1) [1] [1] ([1 / 2], [0], [1]) ctrl in
  system ctrl = NORMAL_KKT /\
  filter isFactorization (calls run) = [CallLDL LDL_INTRAPIV_1D] /\
  countCalls isRegularizedLDL (calls run) = 0%nat.
Proof.
  intros E ctrl run. split; [reflexivity |].
  assert (calls run =
          stageCalls []
            (sparseStage E ctrl 0%Z (emptyMetadata E) [] (oneByOne 1) [1]
               [1 / 2] [1]
               (residual_c (oneByOne 1) [1] [0] [1])
               (residual_b (oneByOne 1) [1] [1 / 2])
               (residual_mu (centering ctrl)
                  (Dot [1 / 2] [1] / INR (Width (oneByOne 1))) [1 / 2] [1]))
          ++ [CallLineSearch]) as Hcalls.
  { subst run. unfold IPF, IPF_DistSparseMatrix.
    cbn [sparseStart ctrl demoCtrl initialized IPF_loop].
    rewrite pass_proceeds.
    - reflexivity.
    - repeat constructor; lra.
    - repeat constructor; lra.
    - intros [H _]. simpl in H. unfold Abs in H. VecFacts.eval_Rabs. lra.
    - discriminate. }
  rewrite Hcalls. split; reflexivity.
Qed.

(** The start of the sparse-distributed overload logs at most the
    initializer call. *)
Lemma sparseStart_log E ctrl A b c it :
  snd (fst (sparseStart E ctrl A b c it)) = [] \/
  snd (fst (sparseStart E ctrl A b c it)) = [CallInitialize].
Proof.
  unfold sparseStart. destruct (initialized ctrl); [left; reflexivity |].
  destruct (system ctrl);
    destruct (InitializeSparse E A b c it) as [it1 [[[? ?] ?] ?]];
    right; reflexivity.
Qed.

(** C10.  In the sparse-distributed overload with FULL_KKT or
    AUGMENTED_KKT no call of a run is an iterative refinement or a plain
    LDL, and a pass whose factorization completes solves by one
    Pull / Solve / Push against the factored tree.  With NORMAL_KKT no
    call of a run is a plain Solve or a RegularizedLDL, every
    factorization is LDL with LDL_INTRAPIV_1D (no pivot tolerance, no
    regularization), and a pass whose factorization completes solves by
    SolveWithIterativeRefinement with minimum reduction factor 2 and at
    most 10 refinement steps. *)
Theorem refinement_only_for_normal_kkt :
  forall E fuel A b c it ctrl,
    (match system ctrl with
     | NORMAL_KKT =>
         Forall normalCall
           (calls (IPF E SparseDistributed fuel A b c it ctrl))
     | _ =>
         Forall regularizedCall
           (calls (IPF E SparseDistributed fuel A b c it ctrl))
     end) /\
    (forall numIts md log x z rc rb rmu,
       let s := system ctrl in
       let J := systemMatrix s A x z in
       let d := systemRHS s A x z rc rb rmu in
       let md1 := passMetadata E ctrl numIts md J in
       let front :=
         FrontTreeInitialize E J (map_ md1) (sepTree md1) (info md1) in
       let out := sparseStage E ctrl numIts md log A c x z rc rb rmu in
       match s with
       | NORMAL_KKT =>
           match LDL E (info md1) front LDL_INTRAPIV_1D with
           | None =>
               snd out = None /\ filter isAnySolve (stageCalls log out) = []
           | Some front' =>
               snd out =
                 Some (ExpandNormalSolution A c x z rc rmu
                         (SolveWithIterativeRefinement E J (invMap md1)
                            (info md1) front' d 2 10)) /\
               filter isAnySolve (stageCalls log out) =
                 [CallSolveWithIterativeRefinement 2 10]
           end
       | _ =>
           match RegularizedLDL E (info md1) front
                   (MaxNorm J * MachineEpsilon E)
                   (Pull E (invMap md1) (info md1)
                      (regCandOf s (Height A) (Width A) (MachineEpsilon E)))
                   (Pull E (invMap md1) (info md1)
                      (regOf s (Height A) (Width A))) LDL_1D with
           | None =>
               snd out = None /\ filter isAnySolve (stageCalls log out) = []
           | Some (front', _) =>
               snd out =
                 Some (expand s A c x z rc rmu
                         (Push E (invMap md1) (info md1)
                            (Solve E (info md1) front'
                               (Pull E (invMap md1) (info md1) d)))) /\
               filter isAnySolve (stageCalls log out) = [CallSolve]
           end
       end).
Proof.
  intros E fuel A b c it ctrl. split.
  - assert (forall P : Call E -> Prop,
              P CallInitialize -> P CallLineSearch ->
              (forall numIts md log x z rc rb rmu,
                 Forall P log ->
                 Forall P
                   (snd (fst (sparseStage E ctrl numIts md log A c x z
                                rc rb rmu)))) ->
              Forall P (calls (IPF E SparseDistributed fuel A b c it ctrl)))
      as Hrun.
    { intros P Hinit Hls Hstage. unfold IPF, IPF_DistSparseMatrix.
      pose proof (sparseStart_log E ctrl A b c it) as Hlog.
      destruct (sparseStart E ctrl A b c it) as [[md0 log0] it0].
      cbn [fst snd] in Hlog.
      apply (loop_invariant E (sparseStage E) ctrl A b c
               (fun _ _ log => Forall P log) (fun _ log => Forall P log)).
      - auto.
      - intros numIts md log x z rc rb rmu md' log' r HI Hs.
        pose proof (Hstage numIts md log x z rc rb rmu HI) as H.
        rewrite Hs in H. cbn [fst snd] in H. split; [exact H |].
        apply Forall_app. split; [exact H | repeat constructor; exact Hls].
      - destruct Hlog as [-> | ->]; repeat constructor; exact Hinit. }
    destruct (system ctrl) eqn:Hs; apply Hrun;
      try (unfold regularizedCall, normalCall; cbn; tauto);
      intros numIts md log x z rc rb rmu HI;
      rewrite sparseStage_normal_form; rewrite Hs;
      unfold analysisCalls.
    1-2: destruct (RegularizedLDL E _ _ _ _ _ _) as [[? ?]|];
         destruct (analysesAt ctrl numIts); cbn [fst snd];
         rewrite ?Forall_app; repeat split; auto;
         repeat constructor.
    destruct (LDL E _ _ _); destruct (analysesAt ctrl numIts); cbn [fst snd];
      rewrite ?Forall_app; repeat split; auto;
      repeat (constructor; [unfold normalCall; cbn; tauto |]); constructor.
  - intros numIts md log x z rc rb rmu s J d md1 front out.
    subst out. unfold stageCalls. rewrite sparseStage_normal_form.
    fold s J d md1 front. unfold analysisCalls.
    destruct s eqn:Hs.
    1-2: destruct (RegularizedLDL E _ _ _ _ _ _) as [[? ?]|];
         destruct (analysesAt ctrl numIts); cbn [fst snd];
         rewrite <- ?app_assoc, skipn_length_app; split; reflexivity.
    destruct (LDL E _ _ _); destruct (analysesAt ctrl numIts); cbn [fst snd];
      rewrite <- ?app_assoc, skipn_length_app; split; reflexivity.
Qed.

Lemma countCalls_app {E : Env} (p : Call E -> bool) (l l' : list (Call E)) :
  countCalls p (l ++ l') = (countCalls p l + countCalls p l')%nat.
Proof. unfold countCalls. rewrite filter_app, length_app. reflexivity. Qed.

Lemma countCalls_filter {E : Env} (p : Call E -> bool) (l : list (Call E)) :
  countCalls p l = length (filter p l).
Proof. reflexivity. Qed.

Lemma countCalls_In {E : Env} (p : Call E -> bool) (l : list (Call E)) c0 :
  In c0 l -> p c0 = true -> (0 < countCalls p l)%nat.
Proof.
  intros Hin Hp. unfold countCalls.
  assert (In c0 (filter p l)) as H by (apply filter_In; auto).
  destruct (filter p l); [inversion H | simpl; lia].
Qed.

Lemma In_filter_FrontTreeInitialize {E : Env} (l : list (Call E)) J md :
  In (CallFrontTreeInitialize J md) l <->
  In (CallFrontTreeInitialize J md) (filter isFrontTreeInitialize l).
Proof. rewrite filter_In. cbn. tauto. Qed.

(** What a sparse stage adds to the log, as far as the analysis and the
    front tree are concerned. *)
Lemma sparseStage_analysis E ctrl numIts md log A c x z rc rb rmu :
  let J := systemMatrix (system ctrl) A x z in
  let out := sparseStage E ctrl numIts md log A c x z rc rb rmu in
  fst (fst out) = passMetadata E ctrl numIts md J /\
  exists new,
    snd (fst out) = log ++ new /\
    filter isNestedDissection new = analysisCalls E ctrl numIts J /\
    filter isFrontTreeInitialize new =
      [CallFrontTreeInitialize J (passMetadata E ctrl numIts md J)].
Proof.
  intros J out. subst out. rewrite sparseStage_normal_form. fold J.
  unfold analysisCalls.
  destruct (system ctrl).
  1-2: destruct (RegularizedLDL E _ _ _ _ _ _) as [[? ?]|];
       cbn [fst snd]; (split; [reflexivity |]);
       rewrite <- ?app_assoc; eexists; (split; [reflexivity |]);
       destruct (analysesAt ctrl numIts); split; reflexivity.
  destruct (LDL E _ _ _);
    cbn [fst snd]; (split; [reflexivity |]);
    rewrite <- ?app_assoc; eexists; (split; [reflexivity |]);
    destruct (analysesAt ctrl numIts); split; reflexivity.
Qed.

Lemma analysesAt_zero {LS : Type} (ctrl : IPFCtrl LS) :
  analysesAt ctrl 0 = negb (inheritsMetadata ctrl).
Proof.
  unfold analysesAt, inheritsMetadata.
  destruct (system ctrl); cbn; try reflexivity.
  rewrite andb_true_r, negb_involutive. reflexivity.
Qed.

Lemma analysesAt_later {LS : Type} (ctrl : IPFCtrl LS) numIts :
  numIts <> 0%Z -> analysesAt ctrl numIts = false.
Proof.
  intros H. apply Z.eqb_neq in H. unfold analysesAt. rewrite H.
  destruct (system ctrl); try reflexivity. apply andb_false_r.
Qed.

Lemma orderingInv_Fin {E : Env} (ctrl : Ctrl E) md0 numIts md log :
  orderingInv ctrl md0 numIts md log -> orderingFin ctrl md0 md log.
Proof.
  intros (Hn & H0 & Hpos). unfold orderingFin.
  destruct (Z.eq_dec numIts 0) as [-> | Hne].
  - destruct (H0 eq_refl) as (-> & Hnd & Hfti). rewrite Hnd.
    split; [lia |]. split; [auto |]. split; [lia |].
    intros J md' Hin.
    pose proof (countCalls_In isFrontTreeInitialize _ _ Hin eq_refl). lia.
  - destruct Hpos as (Hnd & Hfti & Hmd & Hall); [lia |]. rewrite Hnd.
    split; [destruct (inheritsMetadata ctrl); lia |].
    split; [intros Hi; rewrite Hi; auto |].
    split; [intros _ Hi; rewrite Hi; reflexivity | exact Hall].
Qed.

Lemma orderingInv_linesearch {E : Env} (ctrl : Ctrl E) md0 numIts md log :
  orderingInv ctrl md0 numIts md log ->
  orderingInv ctrl md0 numIts md (log ++ [CallLineSearch]).
Proof.
  unfold orderingInv. rewrite !countCalls_app. cbn [countCalls filter length
    isNestedDissection isFrontTreeInitialize]. rewrite !Nat.add_0_r.
  intros (Hn & H0 & Hpos). split; [exact Hn |]. split; [exact H0 |].
  intros Hlt. destruct (Hpos Hlt) as (Hnd & Hfti & Hmd & Hall).
  repeat split; auto.
  intros J md' Hin. apply in_app_or in Hin. destruct Hin as [Hin | Hin].
  - eauto.
  - destruct Hin as [Hin | []]. discriminate.
Qed.

Lemma sparseStage_orderingInv {E : Env} (ctrl : Ctrl E) md0 A c
    numIts md log x z rc rb rmu md' log' r :
  orderingInv ctrl md0 numIts md log ->
  sparseStage E ctrl numIts md log A c x z rc rb rmu = (md', log', r) ->
  orderingInv ctrl md0 (numIts + 1) md' log'.
Proof.
  intros (Hn & H0 & Hpos) Hs.
  destruct (sparseStage_analysis E ctrl numIts md log A c x z rc rb rmu)
    as (Hmd & new & Hlog & Hnd & Hfti).
  rewrite Hs in Hmd, Hlog. cbn [fst snd] in Hmd, Hlog. subst md' log'.
  unfold orderingInv. split; [lia |]. split; [lia |]. intros _.
  rewrite !countCalls_app. rewrite (countCalls_filter _ new), Hnd.
  rewrite (countCalls_filter isFrontTreeInitialize new), Hfti.
  assert (forall J md',
            In (CallFrontTreeInitialize J md') (log ++ new) ->
            In (CallFrontTreeInitialize J md') log \/
            md' = passMetadata E ctrl numIts md
                    (systemMatrix (system ctrl) A x z)) as Hin.
  { intros J md' H. apply in_app_or in H. destruct H as [H | H]; [auto |].
    apply In_filter_FrontTreeInitialize in H. rewrite Hfti in H.
    destruct H as [H | []]. injection H as _ <-. auto. }
  unfold passMetadata, analysisCalls in *.
  destruct (Z.eq_dec numIts 0) as [-> | Hne].
  - destruct (H0 eq_refl) as (-> & Hnd0 & Hfti0). rewrite Hnd0, Hfti0.
    rewrite analysesAt_zero in *.
    destruct (inheritsMetadata ctrl); cbn [negb length]; repeat split;
      try lia; try discriminate.
    + intros J md' H. destruct (Hin J md' H) as [H1 | H1]; [| exact H1].
      pose proof (countCalls_In isFrontTreeInitialize _ _ H1 eq_refl). lia.
    + intros J md' H. destruct (Hin J md' H) as [H1 | H1]; [| exact H1].
      pose proof (countCalls_In isFrontTreeInitialize _ _ H1 eq_refl). lia.
  - destruct Hpos as (Hnd1 & Hfti1 & Hmd1 & Hall); [lia |].
    rewrite (analysesAt_later ctrl numIts Hne) in *.
    cbn [length]. repeat split; try lia; auto.
    intros J md' H. destruct (Hin J md' H) as [H1 | H1]; eauto.
Qed.

(** C8 (amended).  In a solve call of the sparse-distributed overload
    the nested dissection (ordering map, its inverse, separator tree and
    symbolic information) is run at most once, and only by the pass with
    numIts = 0; it is not run at all when the metadata is inherited from
    the initializer (ctrl.initialized false and AUGMENTED_KKT), and it is
    run exactly once as soon as one pass reaches the factorization
    otherwise.  Every front tree of the call is set up with the same
    metadata, the one the caller is left with, and every pass that
    reaches the factorization sets up the front tree anew from the J of
    that pass. *)
Theorem ordering_computed_once_and_reused :
  forall E fuel A b c it ctrl,
    let run := IPF E SparseDistributed fuel A b c it ctrl in
    (inheritsMetadata ctrl = true <->
     initialized ctrl = false /\ system ctrl = AUGMENTED_KKT) /\
    (countCalls isNestedDissection (calls run) <= 1)%nat /\
    (inheritsMetadata ctrl = true ->
       countCalls isNestedDissection (calls run) = 0%nat /\
       forall it' mp inv st inf,
         InitializeSparse E A b c it = (it', (mp, inv, st, inf)) ->
         metadata run = mkMetadata mp inv st inf) /\
    ((0 < countCalls isFrontTreeInitialize (calls run))%nat ->
       inheritsMetadata ctrl = false ->
       countCalls isNestedDissection (calls run) = 1%nat) /\
    (forall J md,
       In (CallFrontTreeInitialize J md) (calls run) -> md = metadata run) /\
    (forall numIts md log x z rc rb rmu,
       let J := systemMatrix (system ctrl) A x z in
       let out := sparseStage E ctrl numIts md log A c x z rc rb rmu in
       filter isFrontTreeInitialize (stageCalls log out) =
         [CallFrontTreeInitialize J (fst (fst out))] /\
       filter isNestedDissection (stageCalls log out) =
         (if analysesAt ctrl numIts then [CallNestedDissection J] else []) /\
       fst (fst out) = (if analysesAt ctrl numIts then analyse E J else md)) /\
    analysesAt ctrl 0 = negb (inheritsMetadata ctrl) /\
    (forall numIts, numIts <> 0%Z -> analysesAt ctrl numIts = false).
Proof.
  intros E fuel A b c it ctrl run.
  split.
  { unfold inheritsMetadata. destruct (system ctrl), (initialized ctrl);
      cbn; split; intros H; try discriminate; try (destruct H; discriminate);
      auto. }
  assert (orderingFin ctrl (fst (fst (sparseStart E ctrl A b c it)))
            (metadata run) (calls run)) as (Hle & Hinh & Hone & Hall).
  { subst run. unfold IPF, IPF_DistSparseMatrix.
    pose proof (sparseStart_log E ctrl A b c it) as Hlog.
    destruct (sparseStart E ctrl A b c it) as [[md0 log0] it0].
    cbn [fst snd] in Hlog |- *.
    apply (loop_invariant E (sparseStage E) ctrl A b c
             (orderingInv ctrl md0) (orderingFin ctrl md0)).
    - intros numIts md log. apply orderingInv_Fin.
    - intros numIts md log x z rc rb rmu md' log' r HI Hs.
      pose proof (sparseStage_orderingInv ctrl md0 A c _ _ _ _ _ _ _ _ _ _ _
                    HI Hs) as HI'.
      split.
      + apply (orderingInv_Fin _ _ _ _ _ HI').
      + apply orderingInv_linesearch. exact HI'.
    - unfold orderingInv. split; [lia |]. split; [| lia].
      intros _. destruct Hlog as [-> | ->]; repeat split. }
  split; [exact Hle |]. split; [| split; [exact Hone | split; [exact Hall |]]].
  - intros Hi. destruct (Hinh Hi) as [H0 Hmd]. split; [exact H0 |].
    intros it' mp inv st inf HInit. rewrite Hmd.
    unfold inheritsMetadata in Hi. unfold sparseStart.
    destruct (system ctrl); try discriminate.
    destruct (initialized ctrl); [discriminate |].
    rewrite HInit. reflexivity.
  - split; [| split; [apply analysesAt_zero | apply analysesAt_later]].
    intros numIts md log x z rc rb rmu J out.
    destruct (sparseStage_analysis E ctrl numIts md log A c x z rc rb rmu)
      as (Hmd & new & Hlog & Hnd & Hfti).
    fold J out in Hmd, Hlog, Hnd, Hfti.
    unfold stageCalls. rewrite Hlog, skipn_length_app, Hmd.
    repeat split; assumption.
Qed.

(** C8 as stated fails for a call that never reaches the factorization:
    a start that already meets the tolerance returns normally without any
    nested dissection, although nothing is inherited. *)
Lemma ordering_never_computed_when_converged_at_entry :
  let E := demoEnv noSolve in
  let ctrl := mkIPFCtrl true 1 50%Z (1 / 10) FULL_KKT false tt : Ctrl E in
  inheritsMetadata ctrl = false /\
  forall fuel,
    let run :=
      IPF E SparseDistributed (S fuel) (oneByOne 1) [1] [1] ([1], [0], [1])
        ctrl in
    status run = Converged /\
    countCalls isNestedDissection (calls run) = 0%nat.
Proof.
  intros E ctrl. split; [reflexivity |]. intros fuel run.
  assert (IPF_pass E (sparseStage E) ctrl (oneByOne 1) [1] [1]
            (Nrm2 [1]) (Nrm2 [1]) 0 (emptyMetadata E) [] ([1], [0], [1])
          = Break E) as Hb.
  { apply pass_break_iff.
    split; [repeat constructor; lra |]. split; [repeat constructor; lra |].
    unfold ratiosWithin, Nrm2, residual_b, residual_c, Abs. simpl.
    VecFacts.eval_sqrt. VecFacts.eval_Rabs. repeat split; lra. }
  subst run. unfold IPF, IPF_DistSparseMatrix.
  cbn [sparseStart ctrl initialized IPF_loop]. rewrite Hb.
  split; reflexivity.
Qed.

End SparseClaims.

(** * Linear algebra of the three formulations *)

Module NewtonFacts.

Import VecFacts.

Lemma Dot_nil_r (u : Vec) : Dot u [] = 0.
Proof. destruct u; reflexivity. Qed.

Lemma Dot_Zeros_l (n : nat) (v : Vec) : Dot (Zeros n) v = 0.
Proof.
  revert v. induction n as [|n IH]; intros [|b v]; simpl; auto.
  rewrite IH. lra.
Qed.

Lemma Dot_Zeros_r (u : Vec) (n : nat) : Dot u (Zeros n) = 0.
Proof.
  revert n. induction u as [|a u IH]; intros [|n]; simpl; auto.
  rewrite IH. lra.
Qed.

Lemma Dot_app (u1 u2 v1 v2 : Vec) :
  length u1 = length v1 ->
  Dot (u1 ++ u2) (v1 ++ v2) = Dot u1 v1 + Dot u2 v2.
Proof.
  revert v1. induction u1 as [|a u1 IH]; intros [|b v1] H; simpl in *;
    try discriminate; [lra |].
  rewrite IH by lia. lra.
Qed.

Lemma Dot_DiagonalScale (r d w : Vec) :
  Dot (DiagonalScale r d) w = Dot r (DiagonalScale d w).
Proof.
  unfold DiagonalScale. revert d w.
  induction r as [|a r IH]; intros [|b d] [|e w]; simpl; auto.
  rewrite IH. lra.
Qed.

(** The dot product is linear in its second argument. *)
Lemma Dot_combine (alpha beta : R) (r u v : Vec) :
  length u = length v ->
  Dot r (zipWith (fun a b => alpha * a + beta * b) u v) =
  alpha * Dot r u + beta * Dot r v.
Proof.
  revert u v. induction r as [|e r IH]; intros [|a u] [|b v] H; simpl in *;
    try discriminate; try lra.
  rewrite IH by lia. lra.
Qed.

Lemma length_consCols r T : length (consCols r T) = Nat.min (length r) (length T).
Proof. revert T. induction r; intros [|t T]; simpl; auto. Qed.

Lemma length_transposeRows n rows :
  Forall (fun r => length r = n) rows -> length (transposeRows n rows) = n.
Proof.
  induction 1 as [|r rows Hr _ IH]; simpl.
  - apply repeat_length.
  - rewrite length_consCols, IH, Hr. lia.
Qed.

Lemma length_rowsTVec n rows w :
  Forall (fun r => length r = n) rows -> length (rowsTVec n rows w) = n.
Proof.
  intros H. revert w. induction H as [|r rows Hr _ IH]; intros w; simpl.
  - apply repeat_length.
  - destruct w as [|b w]; [apply repeat_length |].
    rewrite zipWith_length, IH, Hr. lia.
Qed.

Lemma rows_zeroRows m n : Forall (fun r => length r = n) (zeroRows m n).
Proof.
  unfold zeroRows. induction m; simpl; constructor; auto. apply repeat_length.
Qed.

Lemma rows_diagRows d : Forall (fun r => length r = length d) (diagRows d).
Proof.
  induction d as [|a d IH]; simpl; constructor.
  - simpl. unfold Zeros. rewrite repeat_length. reflexivity.
  - apply Forall_map. eapply Forall_impl; [| exact IH]. simpl. intros; lia.
Qed.

Lemma rows_consCols k r T :
  Forall (fun t => length t = k) T ->
  Forall (fun t => length t = S k) (consCols r T).
Proof.
  intros H. revert r. induction H as [|t T Ht _ IH]; intros [|a r]; simpl;
    constructor; simpl; auto.
Qed.

Lemma rows_transposeRows n rows :
  Forall (fun t => length t = length rows) (transposeRows n rows).
Proof.
  induction rows as [|r rows IH]; simpl.
  - induction n; simpl; constructor; auto.
  - apply rows_consCols. exact IH.
Qed.

(** Block rows applied to stacked vectors. *)
Lemma mv_app (P Q : list Vec) (v : Vec) :
  map (fun r => Dot r v) (P ++ Q) =
  map (fun r => Dot r v) P ++ map (fun r => Dot r v) Q.
Proof. apply map_app. Qed.

Lemma mv_hcat (P Q : list Vec) (u v : Vec) :
  Forall (fun p => length p = length u) P ->
  map (fun r => Dot r (u ++ v)) (hcat P Q) =
  zipWith Rplus (map (fun r => Dot r u) P) (map (fun r => Dot r v) Q).
Proof.
  intros H. revert Q. induction H as [|p P Hp _ IH]; intros [|q Q]; simpl; auto.
  rewrite IH, Dot_app by assumption. reflexivity.
Qed.

Lemma mv_zeroRows m n v : map (fun r => Dot r v) (zeroRows m n) = Zeros m.
Proof.
  unfold zeroRows, Zeros at 2. induction m; simpl; auto.
  rewrite IHm, Dot_Zeros_l. reflexivity.
Qed.

Lemma mv_diagRows d v :
  length v = length d ->
  map (fun r => Dot r v) (diagRows d) = zipWith Rmult d v.
Proof.
  revert v. induction d as [|a d IH]; intros [|b v] H; simpl in *;
    try discriminate; auto.
  rewrite Dot_Zeros_l, map_map. f_equal; [lra |].
  rewrite <- IH by lia. apply map_ext. intros r. simpl. lra.
Qed.

Lemma mv_consCols r T b w :
  map (fun t => Dot t (b :: w)) (consCols r T) =
  zipWith (fun a t => b * a + t) r (map (fun t => Dot t w) T).
Proof.
  revert T. induction r as [|a r IH]; intros [|t T]; simpl; auto.
  rewrite IH. f_equal. lra.
Qed.

Lemma map_const_zero {T : Type} (l : list T) :
  map (fun _ => 0) l = repeat 0 (length l).
Proof. induction l as [|t l IH]; simpl; [| rewrite IH]; reflexivity. Qed.

Lemma mv_transposeRows n rows w :
  Forall (fun r => length r = n) rows ->
  map (fun t => Dot t w) (transposeRows n rows) = rowsTVec n rows w.
Proof.
  intros H. revert w. induction H as [|r rows Hr Hrows IH]; intros w.
  - simpl. destruct w; unfold Zeros; induction n; simpl; auto;
      rewrite IHn; reflexivity.
  - destruct w as [|b w].
    + cbn [rowsTVec transposeRows].
      rewrite (map_ext _ (fun _ => 0)) by (intros; apply Dot_nil_r).
      pose proof (length_transposeRows n rows Hrows) as HT.
      pose proof (length_consCols r (transposeRows n rows)) as HC.
      rewrite HT, Hr, Nat.min_id in HC.
      unfold Zeros. rewrite map_const_zero, HC. reflexivity.
    + cbn [rowsTVec transposeRows]. rewrite mv_consCols, IH. reflexivity.
Qed.

(** J = A diag(d) A^T acts as A (d o (A^T w)). *)
Lemma Dot_rowsTVec n rows u w :
  Forall (fun r => length r = n) rows ->
  Dot (map (fun rk => Dot u rk) rows) w = Dot u (rowsTVec n rows w).
Proof.
  intros H. revert w. induction H as [|r rows Hr Hrows IH]; intros w.
  - simpl. rewrite Dot_Zeros_r. reflexivity.
  - destruct w as [|b w]; simpl.
    + rewrite Dot_Zeros_r. reflexivity.
    + rewrite IH.
      rewrite (zipWith_ext _ (fun a t => b * a + 1 * t)) by (intros; lra).
      rewrite Dot_combine by (rewrite length_rowsTVec; auto).
      lra.
Qed.

Lemma nth_zipWith f (u v : Vec) i :
  (i < length u)%nat -> (i < length v)%nat ->
  nth i (zipWith f u v) 0 = f (nth i u 0) (nth i v 0).
Proof.
  revert v i. induction u as [|a u IH]; intros [|b v] [|i] Hu Hv; simpl in *;
    try lia; auto.
  apply IH; lia.
Qed.

Lemma nth_map0 (f : R -> R) (v : Vec) i :
  (i < length v)%nat -> nth i (map f v) 0 = f (nth i v 0).
Proof.
  intros H. rewrite (nth_indep _ 0 (f 0)) by (rewrite length_map; exact H).
  apply map_nth.
Qed.

Lemma nth_repeat0 (a : R) n i : (i < n)%nat -> nth i (repeat a n) 0 = a.
Proof.
  revert i. induction n as [|n IH]; intros [|i] H; simpl; try lia; auto.
  apply IH. lia.
Qed.

Lemma positive_nth v i : positive v -> (i < length v)%nat -> 0 < nth i v 0.
Proof.
  intros H. revert i. induction H as [|a v Ha _ IH]; intros [|i] Hi; simpl in *;
    try lia; auto.
  apply IH. lia.
Qed.

Lemma length_MatTVec A w : wfMatrix A -> length (MatTVec A w) = Width A.
Proof. intros H. apply length_rowsTVec. exact H. Qed.

(** Lengths of vector expressions, given the lengths in the context. *)
Ltac vlen :=
  unfold Zeros, minusOnes, Scale, Axpy, Shift, DiagonalScale, DiagonalSolve,
    Gemv, MatVec, Height in *;
  repeat first
    [ rewrite zipWith_length
    | rewrite length_map
    | rewrite repeat_length
    | rewrite length_app
    | rewrite length_MatTVec by assumption
    | rewrite length_firstn
    | rewrite length_skipn
    | match goal with
      | H : length ?t = _ |- context [length ?t] => rewrite H
      end ];
  lia.

(** Read an entry off a vector expression. *)
Ltac vnth :=
  repeat first
    [ rewrite nth_zipWith by vlen
    | rewrite nth_map0 by vlen
    | rewrite nth_repeat0 by vlen ].

Ltac vnth_in H :=
  repeat first
    [ rewrite nth_zipWith in H by vlen
    | rewrite nth_map0 in H by vlen
    | rewrite nth_repeat0 in H by vlen ].

(** The rows of a block have the length of the vector they meet. *)
Ltac rows_conform :=
  match goal with
  | |- Forall _ _ =>
      eapply Forall_impl;
      [| first [ apply rows_zeroRows | apply rows_diagRows
               | apply rows_transposeRows | eassumption ] ];
      cbv beta;
      let r := fresh "r" in
      let Hr := fresh "Hr" in
      intros r Hr; rewrite Hr; vlen
  end.

(** The action of the full KKT matrix on a stacked vector. *)
Lemma KKT_action A x z dx dy dz :
  wfMatrix A ->
  length x = Width A -> length z = Width A ->
  length dx = Width A -> length dy = Height A -> length dz = Width A ->
  MatVec (KKT A x z) (dx ++ dy ++ dz) =
  zipWith Rminus (MatTVec A dy) dz
  ++ MatVec A dx
  ++ zipWith (fun a b => - a - b) dx
       (zipWith Rmult (zipWith Rdiv x z) dz).
Proof.
  intros HA Hx Hz Hdx Hdy Hdz.
  unfold MatVec, KKT. cbn [Rows].
  rewrite !mv_app.
  rewrite !mv_hcat by rows_conform.
  rewrite !mv_zeroRows, !mv_diagRows, mv_transposeRows by
    first [assumption | vlen].
  fold (MatTVec A dy). fold (MatVec A dx).
  f_equal; [| f_equal].
  - apply nth_ext with (d := 0) (d' := 0); [vlen |].
    intros i Hi. assert (i < Width A)%nat as Hi' by (revert Hi; vlen).
    unfold Zeros, minusOnes. vnth. lra.
  - apply nth_ext with (d := 0) (d' := 0); [vlen |].
    intros i Hi. assert (i < Height A)%nat as Hi' by (revert Hi; vlen).
    unfold Zeros. vnth. lra.
  - apply nth_ext with (d := 0) (d' := 0); [vlen |].
    intros i Hi. assert (i < Width A)%nat as Hi' by (revert Hi; vlen).
    unfold Zeros, minusOnes. vnth. unfold Rdiv. lra.
Qed.

Lemma AugmentedKKT_action A x z dx dy :
  wfMatrix A ->
  length x = Width A -> length z = Width A ->
  length dx = Width A -> length dy = Height A ->
  MatVec (AugmentedKKT A x z) (dx ++ dy) =
  zipWith Rplus (zipWith Rmult (zipWith (fun xi zi => zi / xi) x z) dx)
                (MatTVec A dy)
  ++ MatVec A dx.
Proof.
  intros HA Hx Hz Hdx Hdy.
  unfold MatVec, AugmentedKKT. cbn [Rows].
  rewrite !mv_app.
  rewrite !mv_hcat by rows_conform.
  rewrite !mv_zeroRows, !mv_diagRows, mv_transposeRows by
    first [assumption | vlen].
  fold (MatTVec A dy). fold (MatVec A dx).
  f_equal.
  apply nth_ext with (d := 0) (d' := 0); [vlen |].
  intros i Hi. assert (i < Height A)%nat as Hi' by (revert Hi; vlen).
  unfold Zeros. vnth. lra.
Qed.

Lemma NormalKKT_action A x z w :
  wfMatrix A ->
  MatVec (NormalKKT A x z) w =
  MatVec A (DiagonalScale (zipWith (fun xi zi => xi / zi) x z) (MatTVec A w)).
Proof.
  intros HA. unfold MatVec, NormalKKT. cbn [Rows].
  rewrite map_map. apply map_ext. intros r.
  rewrite (Dot_rowsTVec (Width A)) by exact HA.
  apply Dot_DiagonalScale.
Qed.

(** Splitting a stacked solution. *)
Lemma split3 (s : Vec) n m :
  length s = (n + m + n)%nat ->
  s = firstn n s ++ firstn m (skipn n s) ++ skipn (n + m) s.
Proof.
  intros H. rewrite <- (firstn_skipn n s) at 1. f_equal.
  rewrite <- (firstn_skipn m (skipn n s)) at 1. f_equal.
  rewrite skipn_skipn. f_equal. lia.
Qed.

Lemma app_inj_length (a1 a2 b1 b2 : Vec) :
  length a1 = length a2 -> a1 ++ b1 = a2 ++ b2 -> a1 = a2 /\ b1 = b2.
Proof.
  revert a2. induction a1 as [|e a1 IH]; intros [|e' a2] Hl H; simpl in *;
    try discriminate; auto.
  injection H as -> H. destruct (IH a2 ltac:(lia) H) as [-> ->]. auto.
Qed.

Lemma app_inj3 (a1 a2 b1 b2 c1 c2 : Vec) :
  length a1 = length a2 -> length b1 = length b2 ->
  a1 ++ b1 ++ c1 = a2 ++ b2 ++ c2 -> a1 = a2 /\ b1 = b2 /\ c1 = c2.
Proof.
  intros Ha Hb H.
  apply app_inj_length in H; [| exact Ha]. destruct H as [-> H].
  apply app_inj_length in H; [| exact Hb]. destruct H as [-> ->]. auto.
Qed.

(** Entries of a vector equation. *)
Lemma vec_eq_nth (u v : Vec) i : u = v -> nth i u 0 = nth i v 0.
Proof. intros ->. reflexivity. Qed.

(** A solution of the full system is a Newton direction, and back. *)
Lemma full_newton A x z rc rb rmu dx dy dz :
  conformal A x z rc rb rmu ->
  positive z ->
  length dx = Width A -> length dy = Height A -> length dz = Width A ->
  (MatVec (KKT A x z) (dx ++ dy ++ dz) = KKTRHS rc rb rmu z <->
   NewtonSystem A x z rc rb rmu (dx, dy, dz)).
Proof.
  intros (HA & Hx & Hz & Hrc & Hrmu & Hrb) Hpz Hdx Hdy Hdz.
  rewrite KKT_action by assumption.
  unfold KKTRHS, NewtonSystem.
  assert (forall i, (i < Width A)%nat -> nth i z 0 <> 0) as Hz0.
  { intros i Hi. pose proof (positive_nth z i Hpz ltac:(lia)). lra. }
  split.
  - intros H. apply app_inj3 in H; [| vlen | vlen].
    destruct H as (H1 & H2 & H3).
    repeat (split; [assumption |]).
    apply nth_ext with (d := 0) (d' := 0); [vlen |].
    intros i Hi. assert (i < Width A)%nat as Hi' by (revert Hi; vlen).
    apply (vec_eq_nth _ _ i) in H3.
    unfold DiagonalScale, DiagonalSolve, Scale in *.
    vnth_in H3. vnth. pose proof (Hz0 i Hi') as Hzi.
    unfold Rdiv in H3.
    assert (nth i z 0 * (- nth i dx 0 - nth i x 0 * / nth i z 0 * nth i dz 0)
            = nth i z 0 * (nth i rmu 0 * / nth i z 0)) as H by (rewrite H3; reflexivity).
    field_simplify in H; [| assumption | assumption]. lra.
  - intros (_ & _ & _ & H1 & H2 & H3).
    rewrite H1, H2. f_equal. f_equal.
    apply nth_ext with (d := 0) (d' := 0); [vlen |].
    intros i Hi. assert (i < Width A)%nat as Hi' by (revert Hi; vlen).
    apply (vec_eq_nth _ _ i) in H3.
    unfold DiagonalScale, DiagonalSolve, Scale in *.
    vnth_in H3. vnth. pose proof (Hz0 i Hi') as Hzi.
    unfold Rdiv.
    replace (nth i rmu 0) with (- (nth i x 0 * nth i dz 0 + nth i z 0 * nth i dx 0))
      by lra.
    field. assumption.
Qed.

Lemma split2 (s : Vec) n : s = firstn n s ++ skipn n s.
Proof. symmetry. apply firstn_skipn. Qed.

(** The expansion of a solution of the augmented system is a Newton
    direction. *)
Lemma augmented_newton A x z rc rb rmu s :
  conformal A x z rc rb rmu ->
  positive x ->
  solvesExactly (AugmentedKKT A x z) (AugmentedKKTRHS x rc rb rmu) s ->
  NewtonSystem A x z rc rb rmu (ExpandAugmentedSolution x z rmu s).
Proof.
  intros (HA & Hx & Hz & Hrc & Hrmu & Hrb) Hpx [Hlen Hs].
  assert (length s = (Width A + Height A)%nat) as Hs_len.
  { rewrite Hlen. unfold AugmentedKKTRHS. vlen. }
  unfold ExpandAugmentedSolution. rewrite Hrmu.
  set (dx := firstn (Width A) s) in *. set (dy := skipn (Width A) s) in *.
  assert (length dx = Width A) as Hdx by (subst dx; vlen).
  assert (length dy = Height A) as Hdy by (subst dy; vlen).
  rewrite (split2 s (Width A)) in Hs. fold dx dy in Hs.
  rewrite AugmentedKKT_action in Hs by assumption.
  unfold AugmentedKKTRHS in Hs.
  apply app_inj_length in Hs; [| vlen]. destruct Hs as [H1 H2].
  assert (forall i, (i < Width A)%nat -> nth i x 0 <> 0) as Hx0.
  { intros i Hi. pose proof (positive_nth x i Hpx ltac:(lia)). lra. }
  unfold NewtonSystem.
  split; [exact Hdx |]. split; [exact Hdy |]. split; [vlen |].
  split; [exact H2 |]. split.
  - apply nth_ext with (d := 0) (d' := 0); [vlen |].
    intros i Hi. assert (i < Width A)%nat as Hi' by (revert Hi; vlen).
    apply (vec_eq_nth _ _ i) in H1.
    unfold DiagonalScale, DiagonalSolve, Scale, Axpy in *.
    vnth_in H1. vnth. pose proof (Hx0 i Hi') as Hxi.
    unfold Rdiv in *.
    assert (nth i (MatTVec A dy) 0 =
            - nth i rc 0 - nth i rmu 0 * / nth i x 0
            - nth i z 0 * / nth i x 0 * nth i dx 0) as -> by lra.
    field. assumption.
  - apply nth_ext with (d := 0) (d' := 0); [vlen |].
    intros i Hi. assert (i < Width A)%nat as Hi' by (revert Hi; vlen).
    unfold DiagonalScale, DiagonalSolve, Scale, Axpy in *.
    vnth. pose proof (Hx0 i Hi') as Hxi. field. assumption.
Qed.

(** The expansion of a solution of the normal equations is a Newton
    direction. *)
Lemma normal_newton A c x z rc rb rmu s :
  conformal A x z rc rb rmu ->
  positive x -> positive z ->
  solvesExactly (NormalKKT A x z) (NormalKKTRHS A x z rc rb rmu) s ->
  NewtonSystem A x z rc rb rmu (ExpandNormalSolution A c x z rc rmu s).
Proof.
  intros (HA & Hx & Hz & Hrc & Hrmu & Hrb) Hpx Hpz [Hlen Hs].
  assert (length s = Height A) as Hs_len.
  { rewrite Hlen. unfold NormalKKTRHS. vlen. }
  rewrite NormalKKT_action in Hs by assumption.
  assert (forall i, (i < Width A)%nat -> nth i x 0 <> 0) as Hx0.
  { intros i Hi. pose proof (positive_nth x i Hpx ltac:(lia)). lra. }
  assert (forall i, (i < Width A)%nat -> nth i z 0 <> 0) as Hz0.
  { intros i Hi. pose proof (positive_nth z i Hpz ltac:(lia)). lra. }
  unfold ExpandNormalSolution.
  set (w1 := DiagonalSolve z (Axpy 1 (DiagonalScale x rc) rmu)) in *.
  set (w2 := DiagonalScale (zipWith (fun xi zi => xi / zi) x z) (MatTVec A s))
    in *.
  set (dx := DiagonalSolve z
               (Scale (-1)
                  (Axpy 1 (DiagonalScale x (Gemv TRANSPOSE 1 A s 1 rc)) rmu))).
  assert (length w1 = Width A) as Hw1 by (subst w1; vlen).
  assert (length w2 = Width A) as Hw2 by (subst w2; vlen).
  assert (length dx = Width A) as Hdx by (subst dx; vlen).
  assert (dx = zipWith (fun a b => (-1) * a + (-1) * b) w1 w2) as Hdx_eq.
  { apply nth_ext with (d := 0) (d' := 0); [vlen |].
    intros i Hi. assert (i < Width A)%nat as Hi' by lia.
    subst dx w1 w2.
    unfold DiagonalScale, DiagonalSolve, Scale, Axpy, Gemv in *.
    vnth. pose proof (Hz0 i Hi') as Hzi. field. assumption. }
  unfold NewtonSystem.
  split; [exact Hdx |]. split; [exact Hs_len |]. split; [vlen |].
  split; [| split].
  - rewrite Hdx_eq. unfold MatVec in *.
    rewrite (map_ext _ (fun r => (-1) * Dot r w1 + (-1) * Dot r w2))
      by (intros r; apply Dot_combine; lia).
    unfold NormalKKTRHS, MatVec in Hs. fold w1 in Hs.
    apply nth_ext with (d := 0) (d' := 0); [vlen |].
    intros i Hi. assert (i < Height A)%nat as Hi' by (revert Hi; vlen).
    apply (vec_eq_nth _ _ i) in Hs.
    unfold Axpy, Scale in *.
    rewrite nth_zipWith in Hs by vlen.
    rewrite nth_map0 by vlen.
    rewrite (nth_indep _ 0 ((-1) * Dot [] w1 + (-1) * Dot [] w2))
      by vlen.
    rewrite (map_nth (fun r => (-1) * Dot r w1 + (-1) * Dot r w2)).
    rewrite (nth_indep _ 0 (Dot [] w2)) in Hs by vlen.
    rewrite (map_nth (fun r => Dot r w2)) in Hs.
    rewrite (nth_indep _ 0 (Dot [] w1)) in Hs by vlen.
    rewrite (map_nth (fun r => Dot r w1)) in Hs.
    lra.
  - apply nth_ext with (d := 0) (d' := 0); [vlen |].
    intros i Hi. assert (i < Width A)%nat as Hi' by (revert Hi; vlen).
    subst dx.
    unfold DiagonalScale, DiagonalSolve, Scale, Axpy, Gemv in *.
    vnth. pose proof (Hz0 i Hi') as Hzi. pose proof (Hx0 i Hi') as Hxi.
    field. split; assumption.
  - apply nth_ext with (d := 0) (d' := 0); [vlen |].
    intros i Hi. assert (i < Width A)%nat as Hi' by (revert Hi; vlen).
    subst dx.
    unfold DiagonalScale, DiagonalSolve, Scale, Axpy, Gemv in *.
    vnth. pose proof (Hz0 i Hi') as Hzi. pose proof (Hx0 i Hi') as Hxi.
    field. split; assumption.
Qed.

Lemma Dot_comm (u v : Vec) : Dot u v = Dot v u.
Proof.
  revert v. induction u as [|a u IH]; intros [|b v]; simpl; auto.
  rewrite IH. lra.
Qed.

Lemma zipWith_maps {T : Type} (h : R -> R -> R) (f g : T -> R) (l : list T) :
  zipWith h (map f l) (map g l) = map (fun t => h (f t) (g t)) l.
Proof. induction l as [|t l IH]; simpl; [| rewrite IH]; reflexivity. Qed.

Lemma rowsTVec_minus n rows : forall w1 w2 : Vec,
  Forall (fun r => length r = n) rows ->
  length w1 = length w2 ->
  rowsTVec n rows (zipWith Rminus w1 w2) =
  zipWith Rminus (rowsTVec n rows w1) (rowsTVec n rows w2).
Proof.
  induction rows as [|r rows IH]; intros w1 w2 Hrows Hw.
  - simpl. apply nth_ext with (d := 0) (d' := 0); [vlen |].
    intros i Hi. assert (i < n)%nat as Hi' by (revert Hi; vlen).
    unfold Zeros. vnth. lra.
  - inversion Hrows as [|? ? Hr Hrows']; subst.
    destruct w1 as [|b1 w1], w2 as [|b2 w2]; simpl in Hw; try discriminate.
    + simpl. apply nth_ext with (d := 0) (d' := 0); [vlen |].
      intros i Hi. assert (i < length r)%nat as Hi' by (revert Hi; vlen).
      unfold Zeros. vnth. lra.
    + cbn [rowsTVec zipWith]. rewrite IH by (auto; lia).
      pose proof (length_rowsTVec (length r) rows w1 Hrows') as H1.
      pose proof (length_rowsTVec (length r) rows w2 Hrows') as H2.
      apply nth_ext with (d := 0) (d' := 0); [vlen |].
      intros i Hi. assert (i < length r)%nat as Hi' by (revert Hi; vlen).
      vnth. lra.
Qed.

(** A^T is the adjoint of A for the dot product. *)
Lemma Dot_MatVec_adjoint A (w u : Vec) :
  wfMatrix A -> Dot w (MatVec A u) = Dot (MatTVec A w) u.
Proof.
  intros HA. unfold MatVec, MatTVec.
  rewrite (Dot_comm (rowsTVec _ _ _) u).
  rewrite <- (Dot_rowsTVec (Width A)) by exact HA.
  rewrite Dot_comm. f_equal. apply map_ext. intros r. apply Dot_comm.
Qed.

Lemma Dot_weighted_nonneg (D u : Vec) :
  positive D -> 0 <= Dot u (zipWith Rmult D u).
Proof.
  intros HD. revert u. induction HD as [|d D Hd _ IH]; intros [|a u]; simpl;
    try lra.
  pose proof (IH u). nra.
Qed.

Lemma Dot_weighted_zero (D u : Vec) :
  positive D -> length u = length D ->
  Dot u (zipWith Rmult D u) = 0 -> u = Zeros (length u).
Proof.
  intros HD. revert u. induction HD as [|d D Hd HD' IH]; intros [|a u] Hl H;
    simpl in *; try discriminate; auto.
  pose proof (Dot_weighted_nonneg D u HD') as Hnn.
  assert (a = 0) as ->.
  { destruct (Rtotal_order a 0) as [Ha | [Ha | Ha]]; [| exact Ha |];
      exfalso; assert (0 < a * a) as Haa by nra;
      pose proof (Rmult_lt_0_compat d (a * a) Hd Haa); lra. }
  change (0 :: u = 0 :: Zeros (length u)). f_equal. apply IH; [lia | lra].
Qed.

Lemma positive_quotient (x z : Vec) :
  positive x -> positive z -> positive (zipWith (fun xi zi => xi / zi) x z).
Proof.
  intros Hx. revert z. induction Hx as [|a x Ha _ IH]; intros z Hz;
    destruct Hz as [|b z Hb Hz]; simpl; constructor.
  - apply Rdiv_lt_0_compat; assumption.
  - apply IH. exact Hz.
Qed.

(** With x > 0, z > 0 and linearly independent rows of A the Newton
    system has at most one solution. *)
Lemma newton_unique A x z rc rb rmu d1 d2 :
  conformal A x z rc rb rmu ->
  positive x -> positive z -> fullRowRank A ->
  NewtonSystem A x z rc rb rmu d1 ->
  NewtonSystem A x z rc rb rmu d2 ->
  d1 = d2.
Proof.
  intros (HA & Hx & Hz & Hrc & Hrmu & Hrb) Hpx Hpz Hrank.
  destruct d1 as [[dx1 dy1] dz1], d2 as [[dx2 dy2] dz2].
  intros (Lx1 & Ly1 & Lz1 & A1 & B1 & C1) (Lx2 & Ly2 & Lz2 & A2 & B2 & C2).
  assert (forall i, (i < Width A)%nat -> 0 < nth i x 0) as Hx0
    by (intros; apply positive_nth; auto; lia).
  assert (forall i, (i < Width A)%nat -> 0 < nth i z 0) as Hz0
    by (intros; apply positive_nth; auto; lia).
  set (D := zipWith (fun xi zi => xi / zi) x z).
  set (dy := zipWith Rminus dy1 dy2).
  set (g := MatTVec A dy).
  assert (length g = Width A) as Lg by (subst g; vlen).
  assert (length D = Width A) as LD by (subst D; vlen).
  assert (g = zipWith Rminus (MatTVec A dy1) (MatTVec A dy2)) as Hg.
  { subst g dy. unfold MatTVec. apply rowsTVec_minus; [exact HA | lia]. }
  (* entrywise consequences of the two systems *)
  assert (forall i, (i < Width A)%nat ->
            nth i g 0 = nth i dz1 0 - nth i dz2 0) as Hgz.
  { intros i Hi. rewrite Hg.
    apply (vec_eq_nth _ _ i) in B1. apply (vec_eq_nth _ _ i) in B2.
    unfold Scale in *. vnth_in B1. vnth_in B2. vnth. lra. }
  assert (forall i, (i < Width A)%nat ->
            nth i dx1 0 - nth i dx2 0 = - (nth i D 0 * nth i g 0)) as Hgx.
  { intros i Hi. rewrite (Hgz i Hi).
    apply (vec_eq_nth _ _ i) in C1. apply (vec_eq_nth _ _ i) in C2.
    subst D. unfold Scale, DiagonalScale in *. vnth_in C1. vnth_in C2. vnth.
    pose proof (Hz0 i Hi). field_simplify; [| lra].
    apply (Rmult_eq_reg_l (nth i z 0)); [| lra]. field_simplify; [| lra].
    lra. }
  (* the quadratic form of A D A^T vanishes on dy *)
  assert (Dot g (zipWith Rmult D g) = 0) as Hq.
  { assert (zipWith Rmult D g =
            zipWith (fun a b => (-1) * a + 1 * b) dx1 dx2) as ->.
    { apply nth_ext with (d := 0) (d' := 0); [vlen |].
      intros i Hi. assert (i < Width A)%nat as Hi' by (revert Hi; vlen).
      vnth. pose proof (Hgx i Hi'). lra. }
    rewrite Dot_combine by lia.
    subst g. rewrite <- !Dot_MatVec_adjoint by exact HA.
    rewrite A1, A2. lra. }
  apply Dot_weighted_zero in Hq;
    [| subst D; apply positive_quotient; assumption | lia].
  rewrite Lg in Hq.
  assert (dy = Zeros (Height A)) as Hdy0.
  { apply Hrank; [subst dy; vlen | exact Hq]. }
  assert (dy1 = dy2) as ->.
  { apply nth_ext with (d := 0) (d' := 0); [lia |].
    intros i Hi. apply (vec_eq_nth _ _ i) in Hdy0. subst dy.
    unfold Zeros in Hdy0. vnth_in Hdy0. lra. }
  assert (forall i, (i < Width A)%nat -> nth i g 0 = 0) as Hg0.
  { intros i Hi. fold g in Hq. rewrite Hq. unfold Zeros. vnth. reflexivity. }
  assert (dz1 = dz2) as ->.
  { apply nth_ext with (d := 0) (d' := 0); [lia |].
    intros i Hi. pose proof (Hgz i ltac:(lia)). rewrite Hg0 in H by lia. lra. }
  assert (dx1 = dx2) as ->.
  { apply nth_ext with (d := 0) (d' := 0); [lia |].
    intros i Hi. pose proof (Hgx i ltac:(lia)). rewrite Hg0 in H by lia. lra. }
  reflexivity.
Qed.

End NewtonFacts.

(** * The claims about the three formulations *)

Module NewtonClaims.

Import VecFacts NewtonFacts.

(** The dense stage returns the expansion of what the solver returns. *)
Lemma denseStage_direction E ctrl numIts md log A c x z rc rb rmu :
  snd (denseStage E ctrl numIts md log A c x z rc rb rmu) =
  denseDirection E (system ctrl) A c x z rc rb rmu.
Proof.
  unfold denseStage, denseDirection.
  destruct (system ctrl); cbn [systemMatrix systemRHS expand];
    destruct (SymmetricSolve E _ _); reflexivity.
Qed.

(** Whatever the formulation, the expansion of an exact solution of its
    system is a Newton direction. *)
Lemma expand_newton s A c x z rc rb rmu d :
  conformal A x z rc rb rmu ->
  positive x -> positive z ->
  solvesExactly (systemMatrix s A x z) (systemRHS s A x z rc rb rmu) d ->
  NewtonSystem A x z rc rb rmu (expand s A c x z rc rmu d).
Proof.
  intros Hc Hx Hz Hs. destruct s; cbn [systemMatrix systemRHS expand] in *.
  - destruct Hs as [Hlen Hs].
    pose proof Hc as (HA & Lx & Lz & Lrc & Lrmu & Lrb).
    assert (length d = (Width A + Height A + Width A)%nat) as Ld.
    { rewrite Hlen. unfold KKTRHS. vlen. }
    unfold ExpandSolution.
    rewrite (split3 d (Width A) (Height A) Ld) in Hs.
    apply full_newton in Hs; auto; vlen.
  - apply augmented_newton; assumption.
  - apply normal_newton; assumption.
Qed.

(** C4.  For every formulation, when the dense symmetric solve returns
    an exact solution s of the system that was built, the stage returns
    the direction (dx, dy, dz) expanded from s, and that direction
    satisfies the full Newton system against the right-hand side vectors
    the system was built from:
      A dx = -r_b,  A^T dy - dz = -r_c,  x o dz + z o dx = -r_mu. *)

Theorem expanded_direction_solves_newton_system :
  forall E ctrl numIts md log A c x z rc rb rmu s,
    conformal A x z rc rb rmu ->
    positive x -> positive z ->
    soundSolve E (systemMatrix (system ctrl) A x z)
      (systemRHS (system ctrl) A x z rc rb rmu) ->
    SymmetricSolve E (systemMatrix (system ctrl) A x z)
      (systemRHS (system ctrl) A x z rc rb rmu) = Some s ->
    exists dir,
      snd (denseStage E ctrl numIts md log A c x z rc rb rmu) = Some dir /\
      dir = expand (system ctrl) A c x z rc rmu s /\
      NewtonSystem A x z rc rb rmu dir.
Proof.
  intros E ctrl numIts md log A c x z rc rb rmu s Hc Hx Hz Hsound Hs.
  exists (expand (system ctrl) A c x z rc rmu s).
  split; [| split; [reflexivity |]].
  - rewrite denseStage_direction. unfold denseDirection.
    rewrite Hs. reflexivity.
  - apply expand_newton; auto.
Qed.

(** The demonstration problem: A = [1], x = [1/2], z = [1], r_c = [0],
    r_b = [-1/2], r_mu = [9/20]. *)
Lemma demo_conformal : conformal (oneByOne 1) [1 / 2] [1] [0] [- (1 / 2)] [9 / 20].
Proof. unfold conformal, wfMatrix. simpl. repeat split; auto. Qed.

Lemma demo_exact s :
  exactSolve (demoEnv demoSolve) (systemMatrix s (oneByOne 1) [1 / 2] [1])
    (systemRHS s (oneByOne 1) [1 / 2] [1] [0] [- (1 / 2)] [9 / 20]).
Proof.
  intros d Hd. destruct s; cbn in Hd; injection Hd as <-.
  - split.
    + split; [reflexivity |]. cbn. repeat (f_equal; try lra).
    + intros s' [Hl Hs']. cbn in Hl.
      destruct s' as [|a [|b [|e [|? ?]]]]; try discriminate.
      cbn in Hs'. injection Hs' as H1 H2 H3.
      repeat (f_equal; try lra).
  - split.
    + split; [reflexivity |]. cbn. repeat (f_equal; try lra).
    + intros s' [Hl Hs']. cbn in Hl.
      destruct s' as [|a [|b [|? ?]]]; try discriminate.
      cbn in Hs'. injection Hs' as H1 H2.
      repeat (f_equal; try lra).
  - split.
    + split; [reflexivity |]. cbn. repeat (f_equal; try lra).
    + intros s' [Hl Hs']. cbn in Hl.
      destruct s' as [|a [|? ?]]; try discriminate.
      cbn in Hs'. injection Hs' as H1.
      repeat (f_equal; try lra).
Qed.

Lemma demo_positive_x : positive [1 / 2].
Proof. repeat constructor; lra. Qed.

Lemma demo_positive_z : positive [1].
Proof. repeat constructor; lra. Qed.

Lemma demo_sound s :
  soundSolve (demoEnv demoSolve) (systemMatrix s (oneByOne 1) [1 / 2] [1])
    (systemRHS s (oneByOne 1) [1 / 2] [1] [0] [- (1 / 2)] [9 / 20]).
Proof. intros d Hd. exact (proj1 (demo_exact s d Hd)). Qed.

Lemma demo_fullRowRank : fullRowRank (oneByOne 1).
Proof.
  intros w Hl Hw. cbn in Hl. destruct w as [|a [|? ?]]; try discriminate.
  cbn in Hw. injection Hw as Hw. cbn. f_equal. lra.
Qed.

(** The three formulations on the demonstration problem. *)
Lemma expanded_direction_witness :
  let E := demoEnv demoSolve in
  let A := oneByOne 1 in
  let holdsFor := fun sys : KKTSystem =>
    let ctrl := demoCtrl E tt true 50 sys in
    soundSolve E (systemMatrix (system ctrl) A [1 / 2] [1])
      (systemRHS (system ctrl) A [1 / 2] [1] [0] [- (1 / 2)] [9 / 20]) /\
    exists s dir,
      SymmetricSolve E (systemMatrix (system ctrl) A [1 / 2] [1])
        (systemRHS (system ctrl) A [1 / 2] [1] [0] [- (1 / 2)] [9 / 20])
        = Some s /\
      snd (denseStage E ctrl 0%Z (emptyMetadata E) [] A [1] [1 / 2] [1] [0]
             [- (1 / 2)] [9 / 20]) = Some dir /\
      dir = expand (system ctrl) A [1] [1 / 2] [1] [0] [9 / 20] s /\
      NewtonSystem A [1 / 2] [1] [0] [- (1 / 2)] [9 / 20] dir in
  conformal A [1 / 2] [1] [0] [- (1 / 2)] [9 / 20] /\
  positive [1 / 2] /\ positive [1] /\
  holdsFor FULL_KKT /\ holdsFor AUGMENTED_KKT /\ holdsFor NORMAL_KKT.
Proof.
  intros E A holdsFor.
  split; [exact demo_conformal |]. split; [exact demo_positive_x |].
  split; [exact demo_positive_z |].
  assert (forall sys, holdsFor sys) as H.
  { intros sys. unfold holdsFor.
    set (ctrl := demoCtrl E tt true 50 sys).
    split; [exact (demo_sound sys) |].
    assert (exists s,
              SymmetricSolve E (systemMatrix (system ctrl) A [1 / 2] [1])
                (systemRHS (system ctrl) A [1 / 2] [1] [0] [- (1 / 2)]
                   [9 / 20]) = Some s) as [s Hs]
      by (destruct sys; eexists; reflexivity).
    exists s.
    destruct (expanded_direction_solves_newton_system E ctrl 0%Z
                (emptyMetadata E) [] A [1] [1 / 2] [1] [0] [- (1 / 2)]
                [9 / 20] s
                demo_conformal demo_positive_x demo_positive_z (demo_sound sys)
                Hs) as (dir & Hdir & Hexp & HN).
    exists dir. split; [exact Hs |]. split; [exact Hdir |].
    split; [exact Hexp | exact HN]. }
  split; [apply H |]. split; apply H.
Defined.

Lemma ExpandSolution_app m n (dx dy dz : Vec) :
  length dx = n -> length dy = m ->
  ExpandSolution m n (dx ++ dy ++ dz) = (dx, dy, dz).
Proof.
  intros Hx Hy. unfold ExpandSolution.
  rewrite firstn_app, <- Hx, firstn_all, Nat.sub_diag, firstn_O, app_nil_r.
  rewrite skipn_app, skipn_all, Nat.sub_diag, skipn_O. cbn [app].
  rewrite firstn_app, <- Hy, firstn_all, Nat.sub_diag, firstn_O, app_nil_r.
  rewrite skipn_app.
  rewrite (skipn_all2 dx) by lia.
  replace (length dx + length dy - length dx)%nat with (length dy) by lia.
  rewrite skipn_app, skipn_all, Nat.sub_diag, skipn_O. reflexivity.
Qed.

(** A Newton direction is the expansion of the solution of a
    nonsingular full system. *)
Lemma newton_is_full_solution A x z rc rb rmu s dir :
  conformal A x z rc rb rmu -> positive z ->
  (forall s', solvesExactly (KKT A x z) (KKTRHS rc rb rmu z) s' -> s' = s) ->
  NewtonSystem A x z rc rb rmu dir ->
  dir = ExpandSolution (Height A) (Width A) s.
Proof.
  intros Hc Hz Huniq Hn. destruct dir as [[dx dy] dz].
  pose proof Hn as (Lx & Ly & Lz & _).
  pose proof Hc as (HA & Hx & Hz' & Hrc & Hrmu & Hrb).
  rewrite <- (Huniq (dx ++ dy ++ dz)).
  - symmetry. apply ExpandSolution_app; assumption.
  - split.
    + unfold KKTRHS. vlen.
    + apply full_newton; assumption.
Qed.

(** C2.  For the same A, c, iterate and residuals, and a dense symmetric
    solver that is exact on the three systems, the build/solve/expand
    stage yields under AUGMENTED_KKT the direction it yields under
    FULL_KKT, and, when A has full row rank, under NORMAL_KKT as well. *)
Theorem formulations_agree :
  forall E ctrlF ctrlA ctrlN numIts md log A c x z rc rb rmu,
    system ctrlF = FULL_KKT ->
    system ctrlA = AUGMENTED_KKT ->
    system ctrlN = NORMAL_KKT ->
    conformal A x z rc rb rmu ->
    positive x -> positive z ->
    exactSolve E (KKT A x z) (KKTRHS rc rb rmu z) ->
    exactSolve E (AugmentedKKT A x z) (AugmentedKKTRHS x rc rb rmu) ->
    exactSolve E (NormalKKT A x z) (NormalKKTRHS A x z rc rb rmu) ->
    forall dF,
      snd (denseStage E ctrlF numIts md log A c x z rc rb rmu) = Some dF ->
      (forall dA,
         snd (denseStage E ctrlA numIts md log A c x z rc rb rmu) = Some dA ->
         dA = dF) /\
      (fullRowRank A ->
       forall dN,
         snd (denseStage E ctrlN numIts md log A c x z rc rb rmu) = Some dN ->
         dN = dF).
Proof.
  intros E ctrlF ctrlA ctrlN numIts md log A c x z rc rb rmu HF HA HN
    Hc Hx Hz EF EA EN dF HdF.
  rewrite denseStage_direction in HdF. rewrite HF in HdF.
  unfold denseDirection in HdF. cbn [systemMatrix systemRHS expand] in HdF.
  destruct (SymmetricSolve E (KKT A x z) _) as [sF|] eqn:HsF; [| discriminate].
  injection HdF as <-. destruct (EF sF HsF) as [HsolF HuniqF].
  split.
  - intros dA HdA. rewrite denseStage_direction in HdA. rewrite HA in HdA.
    unfold denseDirection in HdA. cbn [systemMatrix systemRHS] in HdA.
    destruct (SymmetricSolve E (AugmentedKKT A x z) _) as [sA|] eqn:HsA;
      [| discriminate].
    injection HdA as <-.
    apply (newton_is_full_solution A x z rc rb rmu sF); auto.
    apply (expand_newton AUGMENTED_KKT); auto.
    exact (proj1 (EA sA HsA)).
  - intros Hrank dN HdN. rewrite denseStage_direction in HdN.
    rewrite HN in HdN.
    unfold denseDirection in HdN. cbn [systemMatrix systemRHS] in HdN.
    destruct (SymmetricSolve E (NormalKKT A x z) _) as [sN|] eqn:HsN;
      [| discriminate].
    injection HdN as <-.
    apply (newton_unique A x z rc rb rmu); auto.
    + apply (expand_newton NORMAL_KKT); auto. exact (proj1 (EN sN HsN)).
    + apply (expand_newton FULL_KKT); auto.
Qed.

(** The three formulations on the demonstration problem. *)
Lemma formulations_agree_witness :
  let E := demoEnv demoSolve in
  let A := oneByOne 1 in
  let stage s :=
    snd (denseStage E (demoCtrl E tt true 50 s) 0%Z (emptyMetadata E) [] A [1]
           [1 / 2] [1] [0] [- (1 / 2)] [9 / 20]) in
  conformal A [1 / 2] [1] [0] [- (1 / 2)] [9 / 20] /\
  positive [1 / 2] /\ positive [1] /\
  exactSolve E (KKT A [1 / 2] [1]) (KKTRHS [0] [- (1 / 2)] [9 / 20] [1]) /\
  exactSolve E (AugmentedKKT A [1 / 2] [1])
    (AugmentedKKTRHS [1 / 2] [0] [- (1 / 2)] [9 / 20]) /\
  exactSolve E (NormalKKT A [1 / 2] [1])
    (NormalKKTRHS A [1 / 2] [1] [0] [- (1 / 2)] [9 / 20]) /\
  fullRowRank A /\
  exists dF dA dN,
    stage FULL_KKT = Some dF /\ stage AUGMENTED_KKT = Some dA /\
    stage NORMAL_KKT = Some dN /\ dA = dF /\ dN = dF.
Proof.
  intros E A stage.
  split; [exact demo_conformal |]. split; [exact demo_positive_x |].
  split; [exact demo_positive_z |]. split; [exact (demo_exact FULL_KKT) |].
  split; [exact (demo_exact AUGMENTED_KKT) |].
  split; [exact (demo_exact NORMAL_KKT) |]. split; [exact demo_fullRowRank |].
  eexists. eexists. eexists.
  split; [reflexivity |]. split; [reflexivity |]. split; [reflexivity |].
  pose proof (formulations_agree E
                (demoCtrl E tt true 50 FULL_KKT)
                (demoCtrl E tt true 50 AUGMENTED_KKT)
                (demoCtrl E tt true 50 NORMAL_KKT)
                0%Z (emptyMetadata E) [] A [1] [1 / 2] [1] [0] [- (1 / 2)]
                [9 / 20] eq_refl eq_refl eq_refl
                demo_conformal demo_positive_x demo_positive_z
                (demo_exact FULL_KKT) (demo_exact AUGMENTED_KKT)
                (demo_exact NORMAL_KKT) _ eq_refl) as [HA HN].
  split.
  - exact (HA _ eq_refl).
  - exact (HN demo_fullRowRank _ eq_refl).
Defined.

End NewtonClaims.

(** * Further properties of the solve call *)

Module RunFacts.

Import VecFacts ControllerFacts.

Lemma IPF_as_loop E rep fuel A b c it ctrl :
  rep <> SparseSerial ->
  IPF E rep fuel A b c it ctrl =
  let '(md, log, it0) := startOf E rep ctrl A b c it in
  IPF_loop E (stageOf E rep) ctrl A b c (Nrm2 b) (Nrm2 c) fuel 0 md log it0.
Proof.
  destruct rep; intros H; try congruence; reflexivity.
Qed.

Lemma Representation_eq_SparseSerial (rep : Representation) :
  rep = SparseSerial \/ rep <> SparseSerial.
Proof. destruct rep; auto; right; discriminate. Qed.

Lemma startOf_cases E rep ctrl A b c it :
  (initialized ctrl = true /\
   startOf E rep ctrl A b c it = (emptyMetadata E, [], it)) \/
  (initialized ctrl = false /\
   exists md it0, startOf E rep ctrl A b c it = (md, [CallInitialize], it0)).
Proof.
  unfold startOf, denseStart, sparseStart.
  destruct (initialized ctrl); [left; destruct rep; auto | right].
  split; [reflexivity |].
  destruct rep; try (eexists; eexists; reflexivity).
  destruct (system ctrl);
    destruct (InitializeSparse E A b c it) as [it1 [[[? ?] ?] ?]];
    eexists; eexists; reflexivity.
Qed.

Lemma countCalls_snoc {E : Env} (p : Call E -> bool) log c0 :
  countCalls p (log ++ [c0]) =
  (countCalls p log + (if p c0 then 1 else 0))%nat.
Proof.
  unfold countCalls. rewrite filter_app, length_app. simpl.
  destruct (p c0); reflexivity.
Qed.

Lemma countCalls_append {E : Env} (p : Call E -> bool) l1 l2 :
  countCalls p (l1 ++ l2) = (countCalls p l1 + countCalls p l2)%nat.
Proof. unfold countCalls. rewrite filter_app, length_app. reflexivity. Qed.

Lemma stageOf_counts E rep : countsPerStage (stageOf E rep).
Proof.
  intros ctrl numIts md log A c x z rc rb rmu.
  destruct rep; unfold stageOf, denseStage, sparseStage, regularizedSolve;
    destruct (system ctrl).
  1-9: destruct (SymmetricSolve E _ _); cbn [fst snd];
       rewrite ?countCalls_append; cbn; repeat split; lia.
  - destruct (numIts =? 0)%Z;
      destruct (RegularizedLDL E _ _ _ _ _ _) as [[? ?]|]; cbn [fst snd];
      rewrite ?countCalls_append; cbn; repeat split; lia.
  - destruct (initialized ctrl && (numIts =? 0)%Z)%bool;
      destruct (RegularizedLDL E _ _ _ _ _ _) as [[? ?]|]; cbn [fst snd];
      rewrite ?countCalls_append; cbn; repeat split; lia.
  - destruct (numIts =? 0)%Z;
      destruct (LDL E _ _ _); cbn [fst snd];
      rewrite ?countCalls_append; cbn; repeat split; lia.
Qed.

Section Generic.

Variable E : Env.
Variable stage : Stage E.
Variable ctrl : Ctrl E.
Variable A : Matrix.
Variables b c : Vec.

Lemma pass_throw_inv numIts md log x y z e md' log' :
  IPF_pass E stage ctrl A b c (Nrm2 b) (Nrm2 c) numIts md log (x, y, z) =
    Throw E e md' log' ->
  describes ctrl A b c e numIts x y z /\
  (e <> FactorizationBreakdown -> md' = md /\ log' = log).
Proof.
  unfold IPF_pass.
  destruct ((0 <? NumNonPositive x)%Z || (0 <? NumNonPositive z)%Z)%bool eqn:Hc.
  - intros H. injection H as <- <- <-. split; [| auto].
    simpl. repeat split.
    apply orb_true_iff in Hc.
    destruct Hc as [Hc | Hc]; [left | right];
      apply NumNonPositive_pos_iff; exact Hc.
  - apply orb_false_iff in Hc. destruct Hc as [Hx Hz].
    apply NumNonPositive_zero_iff in Hx. apply NumNonPositive_zero_iff in Hz.
    destruct (Rleb _ _ && Rleb _ _ && Rleb _ _)%bool eqn:Ht; [discriminate |].
    assert (~ ratiosWithin (tol ctrl) A b c x y z) as Hr.
    { intros Hr. apply converged_test_iff in Hr.
      unfold Abs in *. congruence. }
    destruct (numIts =? maxIts ctrl)%Z eqn:Hn.
    + intros H. injection H as <- <- <-. apply Z.eqb_eq in Hn.
      split; [simpl; auto | auto].
    + apply Z.eqb_neq in Hn.
      destruct (stage _ _ _ _ _ _ _ _ _ _ _) as [[md1 log1] [[[dx dy] dz]|]];
        [discriminate |].
      intros H. injection H as <- <- <-. split; [simpl; auto |].
      intros H; congruence.
Qed.

Lemma pass_continue_inv numIts md log x y z md' log' it' :
  IPF_pass E stage ctrl A b c (Nrm2 b) (Nrm2 c) numIts md log (x, y, z) =
    Continue E md' log' it' ->
  exists log1 dx dy dz,
    stage ctrl numIts md log A c x z (residual_c A c y z) (residual_b A b x)
      (residual_mu (centering ctrl) (Dot x z / INR (Width A)) x z) =
      (md', log1, Some (dx, dy, dz)) /\
    log' = log1 ++ [CallLineSearch] /\
    it' = (Axpy (stepLength E ctrl A b c (x, y, z) (dx, dy, dz)) dx x,
           Axpy (stepLength E ctrl A b c (x, y, z) (dx, dy, dz)) dy y,
           Axpy (stepLength E ctrl A b c (x, y, z) (dx, dy, dz)) dz z) /\
    numIts <> maxIts ctrl /\
    positive x /\ positive z /\ ~ ratiosWithin (tol ctrl) A b c x y z.
Proof.
  unfold IPF_pass.
  destruct ((0 <? NumNonPositive x)%Z || (0 <? NumNonPositive z)%Z)%bool eqn:Hc;
    [discriminate |].
  apply orb_false_iff in Hc. destruct Hc as [Hx Hz].
  apply NumNonPositive_zero_iff in Hx. apply NumNonPositive_zero_iff in Hz.
  destruct (Rleb _ _ && Rleb _ _ && Rleb _ _)%bool eqn:Ht; [discriminate |].
  assert (~ ratiosWithin (tol ctrl) A b c x y z) as Hr.
  { intros Hr. apply converged_test_iff in Hr. unfold Abs in *. congruence. }
  destruct (numIts =? maxIts ctrl)%Z eqn:Hn; [discriminate |].
  apply Z.eqb_neq in Hn.
  destruct (stage _ _ _ _ _ _ _ _ _ _ _) as [[md1 log1] [[[dx dy] dz]|]];
    [| discriminate].
  intros H. injection H as <- <- <-.
  exists log1, dx, dy, dz. repeat split; auto.
Qed.

(** The pass that ended the loop, read off the run. *)
Lemma loop_final_pass fuel : forall numIts md log it,
  let run := IPF_loop E stage ctrl A b c (Nrm2 b) (Nrm2 c) fuel numIts md log it in
  match status run with
  | Converged =>
      exists n md' log',
        IPF_pass E stage ctrl A b c (Nrm2 b) (Nrm2 c) n md' log' (iterate run)
        = Break E
  | Raised e =>
      exists n md' log',
        (numIts <= n)%Z /\
        IPF_pass E stage ctrl A b c (Nrm2 b) (Nrm2 c) n md' log' (iterate run)
        = Throw E e (metadata run) (calls run)
  | OutOfFuel => True
  end.
Proof.
  induction fuel as [|fuel IH]; intros numIts md log it; [exact I |].
  cbn [IPF_loop].
  destruct (IPF_pass E stage ctrl A b c (Nrm2 b) (Nrm2 c) numIts md log it)
    as [| e md' log' | md' log' it'] eqn:Hp.
  - simpl. eauto.
  - simpl. exists numIts, md, log. split; [lia | exact Hp].
  - specialize (IH (numIts + 1)%Z md' log' it'). cbv zeta in IH.
    destruct (status _); auto.
    destruct IH as (n & md1 & log1 & Hn & H).
    exists n, md1, log1. split; [lia | exact H].
Qed.

(** The log only grows. *)
Lemma loop_extends_log fuel : forall numIts md log it,
  (forall ctrl' n md0 log0 A' c' x z rc rb rmu,
     exists rest,
       snd (fst (stage ctrl' n md0 log0 A' c' x z rc rb rmu)) = log0 ++ rest) ->
  exists rest,
    calls (IPF_loop E stage ctrl A b c (Nrm2 b) (Nrm2 c) fuel numIts md log it)
    = log ++ rest.
Proof.
  intros numIts md log it Hst. revert numIts md log it.
  induction fuel as [|fuel IH]; intros numIts md log it.
  - exists []. simpl. rewrite app_nil_r. reflexivity.
  - cbn [IPF_loop].
    pose proof (pass_effect E stage ctrl A b c numIts md log it) as He.
    destruct (IPF_pass E stage ctrl A b c (Nrm2 b) (Nrm2 c) numIts md log it)
      as [| e md' log' | md' log' it'].
    + exists []. simpl. rewrite app_nil_r. reflexivity.
    + simpl. destruct He as [[_ ->] | (x & z & rc & rb & rmu & He)].
      * exists []. rewrite app_nil_r. reflexivity.
      * destruct (Hst ctrl numIts md log A c x z rc rb rmu) as [rest Hr].
        rewrite He in Hr. simpl in Hr. eauto.
    + destruct He as (x & z & rc & rb & rmu & log1 & dir & He & ->).
      destruct (Hst ctrl numIts md log A c x z rc rb rmu) as [rest Hr].
      rewrite He in Hr. simpl in Hr. subst log1.
      destruct (IH (numIts + 1)%Z md' ((log ++ rest) ++ [CallLineSearch]) it')
        as [rest' Hr'].
      rewrite Hr'. rewrite <- !app_assoc. eauto.
Qed.

Hypothesis stage_counts : countsPerStage stage.

(** Steps and builds are counted by the pass counter. *)
Lemma loop_counts fuel : forall numIts md log it,
  Z.of_nat (countCalls isLineSearch log) = numIts ->
  countCalls isBuild log = countCalls isLineSearch log ->
  let run := IPF_loop E stage ctrl A b c (Nrm2 b) (Nrm2 c) fuel numIts md log it in
  (countCalls isLineSearch (calls run) <= countCalls isBuild (calls run))%nat /\
  ((numIts <= maxIts ctrl)%Z ->
     (Z.of_nat (countCalls isBuild (calls run)) <= maxIts ctrl)%Z) /\
  (forall limit, status run = Raised (IterationLimitExceeded limit) ->
     limit = maxIts ctrl /\
     Z.of_nat (countCalls isLineSearch (calls run)) = maxIts ctrl) /\
  countCalls isInitialize (calls run) = countCalls isInitialize log.
Proof.
  induction fuel as [|fuel IH]; intros numIts md log it Hn Hb.
  - simpl. split; [lia | split; [lia | split; [discriminate | reflexivity]]].
  - cbn [IPF_loop].
    destruct it as [[x y] z].
    destruct (IPF_pass E stage ctrl A b c (Nrm2 b) (Nrm2 c) numIts md log
                (x, y, z)) as [| e md' log' | md' log' it'] eqn:Hp.
    + simpl. split; [lia | split; [lia | split; [discriminate | reflexivity]]].
    + simpl. pose proof (pass_throw_inv _ _ _ _ _ _ _ _ _ Hp) as [Hd Hsame].
      destruct e as [a0 b0 | l | |]; simpl in Hd.
      * destruct Hsame as [-> ->]; [discriminate |].
        split; [lia | split; [lia | split; [discriminate | reflexivity]]].
      * destruct Hsame as [-> ->]; [discriminate |].
        destruct Hd as (-> & Hcap & _).
        split; [lia | split; [lia | split; [| reflexivity]]].
        intros ? [= <-]. split; [reflexivity | lia].
      * contradiction.
      * destruct Hd as (Hcap & _).
        unfold IPF_pass in Hp.
        destruct ((0 <? _)%Z || _)%bool; [discriminate |].
        destruct (_ && _ && _)%bool; [discriminate |].
        destruct (numIts =? maxIts ctrl)%Z; [discriminate |].
        match type of Hp with
        | context [stage ?a ?b1 ?c1 ?d ?e1 ?f ?g ?h ?i ?j ?k] =>
            pose proof (stage_counts a b1 c1 d e1 f g h i j k) as Hs;
            destruct (stage a b1 c1 d e1 f g h i j k)
              as [[md1 log1] [[[dx dy] dz]|]]; [discriminate |]
        end.
        injection Hp as <- <-. cbn [fst snd] in Hs.
        destruct Hs as (Hs1 & Hs2 & Hs3).
        split; [lia | split; [lia | split; [discriminate | lia]]].
    + destruct (pass_continue_inv _ _ _ _ _ _ _ _ _ Hp)
        as (log1 & dx & dy & dz & Hst & -> & -> & Hcap & _).
      match type of Hst with
      | stage ?a ?b1 ?c1 ?d ?e1 ?f ?g ?h ?i ?j ?k = _ =>
          pose proof (stage_counts a b1 c1 d e1 f g h i j k) as Hs
      end.
      rewrite Hst in Hs. cbn [fst snd] in Hs.
      destruct Hs as (Hs1 & Hs2 & Hs3).
      match goal with
      | |- context [IPF_loop _ _ _ _ _ _ _ _ _ _ ?md1 ?lg ?it1] =>
          specialize (IH (numIts + 1)%Z md1 lg it1)
      end.
      rewrite !countCalls_snoc in IH. cbn [isLineSearch isBuild isInitialize] in IH.
      cbv zeta in IH.
      destruct IH as (I1 & I2 & I3 & I4); [lia | lia |].
      split; [lia | split; [intros Hle; apply I2; lia | split; [exact I3 | lia]]].
Qed.

End Generic.

End RunFacts.

Module RunProperties.

Import VecFacts ControllerFacts ControllerClaims RunFacts.

Lemma ratio_nonneg (a d : R) : 0 <= a -> 0 <= d -> 0 <= a / (1 + d).
Proof.
  intros Ha Hd. apply Rmult_le_pos; [exact Ha |].
  left. apply Rinv_0_lt_compat. lra.
Qed.

(** A run of the demonstration problem that converges at entry. *)
Lemma demo_converged_pass E (ctrl : Ctrl E) stage n md log :
  tol ctrl = 1 ->
  IPF_pass E stage ctrl (oneByOne 1) [1] [1] (Nrm2 [1]) (Nrm2 [1]) n md log
    ([1], [0], [1]) = Break E.
Proof.
  intros Ht. apply pass_break_iff.
  split; [repeat constructor; lra |]. split; [repeat constructor; lra |].
  rewrite Ht.
  unfold ratiosWithin, Nrm2, residual_b, residual_c, Abs. simpl.
  eval_sqrt. eval_Rabs. repeat split; lra.
Qed.

Lemma demo_not_converged E (ctrl : Ctrl E) :
  tol ctrl <= 1 / 100000000 ->
  ~ ratiosWithin (tol ctrl) (oneByOne 1) [1] [1] [1 / 2] [0] [1].
Proof.
  intros Ht [H _]. simpl in H. unfold Abs in H. eval_Rabs. lra.
Qed.

Lemma demo_capped_run :
  IPF (demoEnv noSolve) DenseSerial 1 (oneByOne 1) [1] [1]
    ([1 / 2], [0], [1])
    (demoCtrl (demoEnv noSolve) tt true 0 AUGMENTED_KKT) =
  mkRun (Raised (IterationLimitExceeded 0)) ([1 / 2], [0], [1])
    (emptyMetadata (demoEnv noSolve)) [].
Proof.
  unfold IPF, IPF_Matrix.
  cbn [denseStart demoCtrl initialized IPF_loop].
  rewrite pass_at_cap; try reflexivity.
  - repeat constructor; lra.
  - repeat constructor; lra.
  - apply demo_not_converged. simpl. lra.
Qed.

(** The iterate of a run that left the loop through [break]. *)
Lemma converged_iterate E rep fuel A b c it (ctrl : Ctrl E) :
  status (IPF E rep fuel A b c it ctrl) = Converged ->
  let '(x, y, z) := iterate (IPF E rep fuel A b c it ctrl) in
  positive x /\ positive z /\ ratiosWithin (tol ctrl) A b c x y z.
Proof.
  destruct (Representation_eq_SparseSerial rep) as [-> | Hrep];
    [discriminate |].
  rewrite IPF_as_loop by exact Hrep.
  destruct (startOf E rep ctrl A b c it) as [[md0 log0] it0].
  intros H.
  pose proof (loop_final_pass E (stageOf E rep) ctrl A b c fuel 0 md0 log0 it0)
    as Hf.
  cbv zeta in Hf. rewrite H in Hf.
  destruct Hf as (n & md' & log' & Hf).
  destruct (iterate _) as [[x y] z].
  apply (pass_break_iff E (stageOf E rep) ctrl A b c n md' log' x y z).
  exact Hf.
Qed.

(** X1: when a solve call returns normally, the iterate handed back lies
    strictly inside the cone (every entry of x and of z is positive) and
    its three convergence ratios are at most [ctrl.tol]. *)
Theorem normal_return_postcondition E rep fuel A b c it (ctrl : Ctrl E) :
  status (IPF E rep fuel A b c it ctrl) = Converged ->
  let '(x, y, z) := iterate (IPF E rep fuel A b c it ctrl) in
  positive x /\ positive z /\ ratiosWithin (tol ctrl) A b c x y z.
Proof.
  intros H. pose proof (converged_iterate E rep fuel A b c it ctrl H) as Hp.
  destruct (iterate _) as [[x y] z].
  destruct Hp as (Hx & Hz & Hr). split; [exact Hx | split; [exact Hz | exact Hr]].
Qed.

Lemma normal_return_witness :
  let E := demoEnv noSolve in
  let ctrl := mkIPFCtrl true 1 50%Z (1 / 10) FULL_KKT false tt : Ctrl E in
  status (IPF E DenseSerial 1 (oneByOne 1) [1] [1] ([1], [0], [1]) ctrl)
    = Converged /\
  (positive [1] /\ positive [1] /\
   ratiosWithin (tol ctrl) (oneByOne 1) [1] [1] [1] [0] [1]).
Proof.
  intros E ctrl.
  assert (IPF E DenseSerial 1 (oneByOne 1) [1] [1] ([1], [0], [1]) ctrl =
          mkRun Converged ([1], [0], [1]) (emptyMetadata E) []) as Hrun.
  { unfold IPF, IPF_Matrix. cbn [denseStart ctrl initialized IPF_loop].
    rewrite demo_converged_pass by reflexivity. reflexivity. }
  split; [rewrite Hrun; reflexivity |].
  pose proof (normal_return_postcondition E DenseSerial 1 (oneByOne 1) [1] [1]
                ([1], [0], [1]) ctrl) as H.
  rewrite Hrun in H. exact (H eq_refl).
Defined.

(** X2: an initialized iterate that is inside the cone and already meets
    the three tolerances is handed back unchanged after zero steps, with
    no system built, solved or searched, whatever the iteration cap is
    (also 0 or negative). *)
Theorem converged_start_returns_unchanged E rep fuel A b c x y z
    (ctrl : Ctrl E) :
  rep <> SparseSerial ->
  initialized ctrl = true ->
  positive x -> positive z ->
  ratiosWithin (tol ctrl) A b c x y z ->
  IPF E rep (S fuel) A b c (x, y, z) ctrl =
  mkRun Converged (x, y, z) (emptyMetadata E) [].
Proof.
  intros Hrep Hinit Hx Hz Hr.
  rewrite IPF_as_loop by exact Hrep.
  destruct (startOf_cases E rep ctrl A b c (x, y, z)) as [[_ ->] | [H _]];
    [| congruence].
  cbn [IPF_loop].
  rewrite (proj2 (pass_break_iff E (stageOf E rep) ctrl A b c 0
                    (emptyMetadata E) [] x y z))
    by auto.
  reflexivity.
Qed.

Lemma converged_start_witness :
  let E := demoEnv noSolve in
  let ctrl := mkIPFCtrl true 1 0%Z (1 / 10) NORMAL_KKT false tt : Ctrl E in
  IPF E SparseDistributed 1 (oneByOne 1) [1] [1] ([1], [0], [1]) ctrl =
  mkRun Converged ([1], [0], [1]) (emptyMetadata E) [].
Proof.
  intros E ctrl.
  apply (converged_start_returns_unchanged E SparseDistributed 0 (oneByOne 1)
           [1] [1] [1] [0] [1] ctrl).
  - discriminate.
  - reflexivity.
  - repeat constructor; lra.
  - repeat constructor; lra.
  - unfold ratiosWithin, Nrm2, residual_b, residual_c, Abs. simpl.
    eval_sqrt. eval_Rabs. repeat split; lra.
Defined.

(** X3: with a negative tolerance no solve call returns normally: the
    three ratios are quotients of norms and absolute values and cannot
    fall below zero. *)
Theorem negative_tol_never_returns E rep A b c it (ctrl : Ctrl E) :
  tol ctrl < 0 -> ~ returnsNormally E rep A b c it ctrl.
Proof.
  intros Ht [fuel H].
  pose proof (converged_iterate E rep fuel A b c it ctrl H) as Hp.
  destruct (iterate _) as [[x y] z].
  destruct Hp as (_ & _ & Hobj & _).
  pose proof (ratio_nonneg (Abs (Dot c x - - Dot b y)) (Abs (Dot c x))
                (Rabs_pos _) (Rabs_pos _)).
  lra.
Qed.

Lemma negative_tol_witness :
  let E := demoEnv noSolve in
  let ctrl := mkIPFCtrl true (-1) 50%Z (1 / 10) FULL_KKT false tt : Ctrl E in
  ~ returnsNormally E DenseSerial (oneByOne 1) [1] [1] ([1], [0], [1]) ctrl.
Proof.
  intros E ctrl.
  apply (negative_tol_never_returns E DenseSerial (oneByOne 1) [1] [1]
           ([1], [0], [1]) ctrl).
  simpl. lra.
Defined.

Lemma IPF_counts E rep fuel A b c it (ctrl : Ctrl E) :
  let run := IPF E rep fuel A b c it ctrl in
  (countCalls isLineSearch (calls run) <= countCalls isBuild (calls run))%nat /\
  ((0 <= maxIts ctrl)%Z ->
     (Z.of_nat (countCalls isBuild (calls run)) <= maxIts ctrl)%Z) /\
  (forall limit, status run = Raised (IterationLimitExceeded limit) ->
     limit = maxIts ctrl /\
     Z.of_nat (countCalls isLineSearch (calls run)) = maxIts ctrl).
Proof.
  destruct (Representation_eq_SparseSerial rep) as [-> | Hrep].
  - unfold IPF, IPF_SparseMatrix. cbn.
    split; [apply Nat.le_refl | split; [auto | discriminate]].
  - cbv zeta. rewrite IPF_as_loop by exact Hrep.
    destruct (startOf_cases E rep ctrl A b c it)
      as [[_ ->] | [_ (md & it0 & ->)]];
      match goal with
      | |- context [IPF_loop _ _ _ _ _ _ _ _ _ _ ?md1 ?lg ?it1] =>
          pose proof (loop_counts E (stageOf E rep) ctrl A b c
                        (stageOf_counts E rep) fuel 0%Z md1 lg it1
                        eq_refl eq_refl) as H
      end;
      cbv zeta in H; destruct H as (H1 & H2 & H3 & _);
      (split; [exact H1 | split; [exact H2 | exact H3]]).
Qed.

(** X4: with a non-negative iteration cap a solve call takes at most
    [maxIts] steps and builds at most [maxIts] systems, it raises
    IterationLimitExceeded only after exactly [maxIts] steps, and
    [maxIts + 1] passes always end it. *)
Theorem steps_bounded_by_cap E rep fuel A b c it (ctrl : Ctrl E) :
  (0 <= maxIts ctrl)%Z ->
  let run := IPF E rep fuel A b c it ctrl in
  (Z.of_nat (countCalls isLineSearch (calls run)) <= maxIts ctrl)%Z /\
  (Z.of_nat (countCalls isBuild (calls run)) <= maxIts ctrl)%Z /\
  (forall limit, status run = Raised (IterationLimitExceeded limit) ->
     limit = maxIts ctrl /\
     Z.of_nat (countCalls isLineSearch (calls run)) = maxIts ctrl) /\
  ((Z.to_nat (maxIts ctrl) < fuel)%nat -> status run <> OutOfFuel).
Proof.
  intros Hcap run. subst run.
  pose proof (IPF_counts E rep fuel A b c it ctrl) as H.
  cbv zeta in H. destruct H as (H1 & H2 & H3). specialize (H2 Hcap).
  split; [| split; [exact H2 | split; [exact H3 |]]].
  { apply Nat2Z.inj_le in H1. lia. }
  intros Hfuel.
  destruct (Representation_eq_SparseSerial rep) as [-> | Hrep];
    [discriminate |].
  rewrite IPF_as_loop by exact Hrep.
  destruct (startOf E rep ctrl A b c it) as [[md0 log0] it0].
  apply loop_terminates_within_cap; [exact Hcap |].
  rewrite Z.sub_0_r. exact Hfuel.
Qed.

Lemma steps_bounded_witness :
  let E := demoEnv noSolve in
  let ctrl := demoCtrl E tt true 0 AUGMENTED_KKT in
  let run :=
    IPF E DenseSerial 1 (oneByOne 1) [1] [1] ([1 / 2], [0], [1]) ctrl in
  status run = Raised (IterationLimitExceeded 0) /\
  (Z.of_nat (countCalls isLineSearch (calls run)) <= 0)%Z /\
  (Z.of_nat (countCalls isBuild (calls run)) <= 0)%Z /\
  (forall limit, status run = Raised (IterationLimitExceeded limit) ->
     limit = 0%Z /\
     Z.of_nat (countCalls isLineSearch (calls run)) = 0%Z) /\
  ((Z.to_nat 0 < 1)%nat -> status run <> OutOfFuel).
Proof.
  intros E ctrl run.
  split; [unfold run, ctrl, E; rewrite demo_capped_run; reflexivity |].
  apply (steps_bounded_by_cap E DenseSerial 1 (oneByOne 1) [1] [1]
           ([1 / 2], [0], [1]) ctrl).
  simpl. lia.
Defined.

(** X5: with a negative iteration cap the limit never fires: the pass
    counter starts at 0 and is compared with [maxIts] for equality, so
    as long as it has not wrapped (fewer than 2^31 passes) no solve call
    ends with IterationLimitExceeded. *)
Theorem negative_cap_never_fires E rep fuel A b c it (ctrl : Ctrl E) limit :
  (maxIts ctrl < 0)%Z ->
  (Z.of_nat fuel <= 2147483647)%Z ->
  status (IPF E rep fuel A b c it ctrl) <> Raised (IterationLimitExceeded limit).
Proof.
  intros Hcap _ H.
  destruct (IPF_counts E rep fuel A b c it ctrl) as (_ & _ & H3).
  apply H3 in H. lia.
Qed.

Lemma negative_cap_witness :
  let E := demoEnv noSolve in
  let ctrl := demoCtrl E tt true (-1) FULL_KKT in
  status (IPF E DenseSerial 3 (oneByOne 1) [1] [1] ([1 / 2], [0], [1]) ctrl)
  <> Raised (IterationLimitExceeded (-1)).
Proof.
  intros E ctrl.
  apply (negative_cap_never_fires E DenseSerial 3 (oneByOne 1) [1] [1]
           ([1 / 2], [0], [1]) ctrl (-1)%Z).
  - simpl. lia.
  - simpl. lia.
Defined.

(** X6: an exception describes the iterate the caller is left with:
    InfeasibleIterate carries the numbers of non-positive entries of the
    returned x and z, at least one of which is not zero;
    IterationLimitExceeded and a breakdown of the solver leave an iterate
    inside the cone that misses a tolerance, the former after the pass
    counter reached [maxIts]; UnsupportedRepresentation is raised by the
    sparse-serial overload alone, which returns the iterate it was
    given. *)
Theorem raised_error_describes_iterate E rep fuel A b c it (ctrl : Ctrl E) e :
  status (IPF E rep fuel A b c it ctrl) = Raised e ->
  (e = UnsupportedRepresentation /\ rep = SparseSerial /\
   iterate (IPF E rep fuel A b c it ctrl) = it) \/
  (rep <> SparseSerial /\
   exists numIts, (0 <= numIts)%Z /\
     let '(x, y, z) := iterate (IPF E rep fuel A b c it ctrl) in
     describes ctrl A b c e numIts x y z).
Proof.
  destruct (Representation_eq_SparseSerial rep) as [-> | Hrep].
  - simpl. intros [= <-]. left. auto.
  - intros H. right. split; [exact Hrep |].
    revert H. rewrite IPF_as_loop by exact Hrep.
    destruct (startOf E rep ctrl A b c it) as [[md0 log0] it0].
    intros H.
    pose proof (loop_final_pass E (stageOf E rep) ctrl A b c fuel 0 md0 log0
                  it0) as Hf.
    cbv zeta in Hf. rewrite H in Hf.
    destruct Hf as (n & md' & log' & Hn & Hf).
    exists n. split; [exact Hn |].
    destruct (iterate _) as [[x y] z].
    apply (pass_throw_inv E (stageOf E rep) ctrl A b c _ _ _ _ _ _ _ _ _ Hf).
Qed.

Lemma raised_error_witness :
  let E := demoEnv noSolve in
  let ctrl := demoCtrl E tt true 0 AUGMENTED_KKT in
  let run :=
    IPF E DenseSerial 1 (oneByOne 1) [1] [1] ([1 / 2], [0], [1]) ctrl in
  status run = Raised (IterationLimitExceeded 0) /\
  ((IterationLimitExceeded 0 = UnsupportedRepresentation /\
    DenseSerial = SparseSerial /\ iterate run = ([1 / 2], [0], [1])) \/
   (DenseSerial <> SparseSerial /\
    exists numIts, (0 <= numIts)%Z /\
      let '(x, y, z) := iterate run in
      describes ctrl (oneByOne 1) [1] [1] (IterationLimitExceeded 0) numIts
        x y z)).
Proof.
  intros E ctrl run.
  assert (status run = Raised (IterationLimitExceeded 0)) as H
    by (unfold run, ctrl, E; rewrite demo_capped_run; reflexivity).
  split; [exact H |].
  exact (raised_error_describes_iterate E DenseSerial 1 (oneByOne 1) [1] [1]
           ([1 / 2], [0], [1]) ctrl (IterationLimitExceeded 0) H).
Defined.

(** X7: the initializer runs exactly once, before anything else, when
    the caller has not marked the iterate as initialized, and never
    otherwise; no pass of the loop calls it. *)
Theorem initializer_runs_once_iff_uninitialized E rep fuel A b c it
    (ctrl : Ctrl E) :
  rep <> SparseSerial ->
  let run := IPF E rep fuel A b c it ctrl in
  (initialized ctrl = true -> countCalls isInitialize (calls run) = 0%nat) /\
  (initialized ctrl = false ->
     countCalls isInitialize (calls run) = 1%nat /\
     exists rest, calls run = CallInitialize :: rest).
Proof.
  intros Hrep run. subst run. rewrite IPF_as_loop by exact Hrep.
  assert (forall ctrl' n md0 log0 A' c' x z rc rb rmu,
            exists rest,
              snd (fst (stageOf E rep ctrl' n md0 log0 A' c' x z rc rb rmu))
              = log0 ++ rest) as Hext.
  { intros. destruct (stage_logs_build E rep ctrl' n md0 log0 A' c' x z rc rb
                        rmu) as [rest Hr].
    rewrite Hr. eauto. }
  destruct (startOf_cases E rep ctrl A b c it)
    as [[Hi ->] | [Hi (md & it0 & ->)]];
    match goal with
    | |- context [IPF_loop _ _ _ _ _ _ _ _ _ _ ?md1 ?lg ?it1] =>
        pose proof (loop_counts E (stageOf E rep) ctrl A b c
                      (stageOf_counts E rep) fuel 0%Z md1 lg it1
                      eq_refl eq_refl) as H;
        destruct (loop_extends_log E (stageOf E rep) ctrl A b c fuel 0%Z
                    md1 lg it1 Hext) as [rest Hrest]
    end;
    cbv zeta in H; destruct H as (_ & _ & _ & H4);
    (split; [intros Hi' | intros Hi']; try congruence).
  - exact H4.
  - split; [exact H4 |]. exists rest. exact Hrest.
Qed.

Lemma initializer_witness :
  let E := demoEnv noSolve in
  let ctrl := demoCtrl E tt false 50 FULL_KKT in
  let run := IPF E SparseDistributed 2 (oneByOne 1) [1] [1] ([], [], []) ctrl in
  (initialized ctrl = true -> countCalls isInitialize (calls run) = 0%nat) /\
  (initialized ctrl = false ->
     countCalls isInitialize (calls run) = 1%nat /\
     exists rest, calls run = CallInitialize :: rest).
Proof.
  intros E ctrl.
  apply (initializer_runs_once_iff_uninitialized E SparseDistributed 2
           (oneByOne 1) [1] [1] ([], [], []) ctrl).
  discriminate.
Defined.

End RunProperties.

(** * The effect of one step *)

Module StepFacts.

Import VecFacts ControllerFacts SparseClaims NewtonFacts RunFacts.

Lemma Dot_Scale_Scale (k : R) (v : Vec) :
  Dot (Scale k v) (Scale k v) = k * k * Dot v v.
Proof. induction v as [|a v IH]; simpl; [| rewrite IH]; ring. Qed.

Lemma Dot_self_nonneg (v : Vec) : 0 <= Dot v v.
Proof. induction v as [|a v IH]; simpl; [lra | nra]. Qed.

Lemma Nrm2_Scale (k : R) (v : Vec) : Nrm2 (Scale k v) = Rabs k * Nrm2 v.
Proof.
  unfold Nrm2. rewrite Dot_Scale_Scale.
  rewrite sqrt_mult_alt by nra.
  fold (Rsqr k). rewrite sqrt_Rsqr_abs. reflexivity.
Qed.

Lemma Dot_Axpy (alpha : R) (r u v : Vec) :
  length u = length v ->
  Dot r (Axpy alpha u v) = alpha * Dot r u + Dot r v.
Proof.
  intros H. unfold Axpy.
  rewrite (zipWith_ext _ (fun a b => alpha * a + 1 * b)) by (intros; lra).
  rewrite Dot_combine by exact H. lra.
Qed.

(** The primal residual along a direction with A dx + rb = 0. *)
Lemma residual_b_along (alpha : R) (rows : list Vec) (x dx : Vec) :
  length dx = length x ->
  forall b : Vec,
  zipWith (fun s t => 1 * s + 1 * t) (map (fun r => Dot r dx) rows)
    (zipWith (fun s t => 1 * s + 1 * t) (map (fun r => Dot r x) rows)
       (map (fun a => -1 * a) b)) =
  repeat 0
    (length (zipWith (fun s t => 1 * s + 1 * t) (map (fun r => Dot r x) rows)
               (map (fun a => -1 * a) b))) ->
  zipWith (fun s t => 1 * s + 1 * t)
    (map (fun r => Dot r (Axpy alpha dx x)) rows) (map (fun a => -1 * a) b) =
  map (fun a => (1 - alpha) * a)
    (zipWith (fun s t => 1 * s + 1 * t) (map (fun r => Dot r x) rows)
       (map (fun a => -1 * a) b)).
Proof.
  intros Hlen. induction rows as [|r rows IH]; intros [|b0 b] H; simpl in *;
    auto.
  injection H as Hhd Htl.
  rewrite (IH b Htl). f_equal.
  rewrite Dot_Axpy by exact Hlen. nra.
Qed.

Lemma rowsTVec_Axpy (alpha : R) n rows : forall w1 w2 : Vec,
  Forall (fun r => length r = n) rows ->
  length w1 = length w2 ->
  rowsTVec n rows (Axpy alpha w1 w2) =
  zipWith (fun a b => alpha * a + b) (rowsTVec n rows w1) (rowsTVec n rows w2).
Proof.
  induction rows as [|r rows IH]; intros w1 w2 Hrows Hw.
  - simpl. apply nth_ext with (d := 0) (d' := 0); [vlen |].
    intros i Hi. assert (i < n)%nat as Hi' by (revert Hi; vlen).
    unfold Zeros. vnth. lra.
  - inversion Hrows as [|? ? Hr Hrows']; subst.
    destruct w1 as [|b1 w1], w2 as [|b2 w2]; simpl in Hw; try discriminate.
    + simpl. apply nth_ext with (d := 0) (d' := 0); [vlen |].
      intros i Hi. assert (i < length r)%nat as Hi' by (revert Hi; vlen).
      unfold Zeros. vnth. lra.
    + unfold Axpy. cbn [rowsTVec zipWith]. fold (Axpy alpha w1 w2).
      rewrite IH by (auto; lia).
      pose proof (length_rowsTVec (length r) rows w1 Hrows') as H1.
      pose proof (length_rowsTVec (length r) rows w2 Hrows') as H2.
      apply nth_ext with (d := 0) (d' := 0); [vlen |].
      intros i Hi. assert (i < length r)%nat as Hi' by (revert Hi; vlen).
      vnth. lra.
Qed.

(** The dual residual along a direction with A^T dy - dz + rc = 0. *)
Lemma residual_c_along (alpha : R) (A : Matrix) (c y z dy dz : Vec) :
  wfMatrix A ->
  length dy = length y -> length dz = length z ->
  dyError A (residual_c A c y z) dy dz =
    Zeros (length (residual_c A c y z)) ->
  residual_c A c (Axpy alpha dy y) (Axpy alpha dz z) =
  Scale (1 - alpha) (residual_c A c y z).
Proof.
  intros HA Hdy Hdz Herr.
  assert (length (residual_c A c y z) =
          Nat.min (length z) (Nat.min (Width A) (length c))) as Lrc
    by (unfold residual_c; vlen).
  rewrite Lrc in Herr.
  unfold dyError, residual_c, Gemv, MatTVec in *.
  rewrite rowsTVec_Axpy by assumption.
  pose proof (length_rowsTVec (Width A) (Rows A) dy HA) as L1.
  pose proof (length_rowsTVec (Width A) (Rows A) y HA) as L2.
  apply nth_ext with (d := 0) (d' := 0); [vlen |].
  intros i Hi.
  assert (i < Nat.min (length z) (Nat.min (Width A) (length c)))%nat as Hi'
    by (revert Hi; vlen).
  pose proof (vec_eq_nth _ _ i Herr) as Hn.
  unfold Zeros, Axpy, Scale in *. vnth_in Hn. vnth.
  match type of Hn with
  | ?l = 0 => assert (alpha * l = 0) as Hm by (rewrite Hn; ring)
  end.
  lra.
Qed.

(** The complementarity products along a direction. *)
Lemma Dot_along (alpha k : R) : forall x z dx dz : Vec,
  length z = length x -> length dx = length x -> length dz = length x ->
  (forall i, (i < length x)%nat ->
     (nth i x 0 * nth i z 0 - k)
     + (nth i x 0 * nth i dz 0 + nth i z 0 * nth i dx 0) = 0) ->
  Dot (Axpy alpha dx x) (Axpy alpha dz z) =
  Dot x z - alpha * (Dot x z - INR (length x) * k) + alpha * alpha * Dot dx dz.
Proof.
  induction x as [|a x IH]; intros [|e z] [|da dx] [|de dz] Hz Hdx Hdz H;
    try discriminate.
  - simpl. ring.
  - cbn [Axpy zipWith Dot]. fold (Axpy alpha dx x). fold (Axpy alpha dz z).
    rewrite (IH z dx dz); try (simpl in *; lia).
    + pose proof (H 0%nat ltac:(simpl; lia)) as H0. simpl in H0.
      change (length (a :: x)) with (S (length x)). rewrite S_INR.
      nra.
    + intros i Hi. apply (H (S i)). simpl. lia.
Qed.

(** Reading the entries of a vanishing dzError. *)
Lemma dzError_entries n (x z rmu dx dz : Vec) i :
  length rmu = n ->
  dzError n x z rmu dx dz = Zeros n ->
  (i < n)%nat ->
  nth i rmu 0 + (nth i x 0 * nth i dz 0 + nth i z 0 * nth i dx 0) = 0.
Proof.
  intros Hl H Hi. pose proof (vec_eq_nth _ _ i H) as Hn.
  unfold dzError in Hn. rewrite Hl in Hn.
  rewrite nth_map_seq in Hn by exact Hi.
  apply Nat.ltb_lt in Hi. rewrite Hi in Hn. apply Nat.ltb_lt in Hi.
  unfold Zeros in Hn. rewrite nth_repeat0 in Hn by exact Hi. exact Hn.
Qed.

(** The complementarity gap along a direction with
    r_mu + x o dz + z o dx = 0, for r_mu = x o z - sigma mu e. *)
Lemma complementarity_along (alpha sigma : R) n (x z dx dz : Vec) :
  (0 < n)%nat ->
  length x = n -> length z = n -> length dx = n -> length dz = n ->
  dzError n x z (residual_mu sigma (Dot x z / INR n) x z) dx dz = Zeros n ->
  Dot (Axpy alpha dx x) (Axpy alpha dz z) =
  (1 - alpha * (1 - sigma)) * Dot x z + alpha * alpha * Dot dx dz.
Proof.
  intros Hn Hx Hz Hdx Hdz Herr.
  rewrite (Dot_along alpha (sigma * (Dot x z / INR n))); try lia.
  - rewrite Hx.
    assert (INR n <> 0) as Hne by (apply not_0_INR; lia).
    field. exact Hne.
  - intros i Hi. rewrite Hx in Hi.
    assert (length (residual_mu sigma (Dot x z / INR n) x z) = n) as Lmu
      by (unfold residual_mu; vlen).
    pose proof (dzError_entries n x z _ dx dz i Lmu Herr Hi) as Hi'.
    rewrite residual_mu_entries in Hi'.
    rewrite nth_zipWith in Hi' by lia. lra.
Qed.

(** Directions of a feasible iterate: A dx = 0 and dz = A^T dy make dx
    and dz orthogonal. *)
Lemma feasible_direction_orthogonal A (dx dy dz : Vec) :
  wfMatrix A ->
  length dx = Width A -> length dy = Height A -> length dz = Width A ->
  dxError A (Zeros (Height A)) dx = Zeros (Height A) ->
  dyError A (Zeros (Width A)) dy dz = Zeros (Width A) ->
  Dot dx dz = 0.
Proof.
  intros HA Ldx Ldy Ldz E1 E2.
  pose proof (length_MatTVec A dy HA) as LT.
  assert (length (MatVec A dx) = Height A) as LM
    by (unfold MatVec, Height; apply length_map).
  assert (MatVec A dx = Zeros (Height A)) as H1.
  { apply nth_ext with (d := 0) (d' := 0);
      [unfold Zeros; rewrite repeat_length; exact LM |].
    intros i Hi. rewrite LM in Hi.
    pose proof (vec_eq_nth _ _ i E1) as Hn.
    unfold dxError, Gemv, Zeros in *.
    rewrite nth_zipWith in Hn by (rewrite ?repeat_length; lia).
    rewrite !nth_repeat0 in Hn by lia.
    rewrite nth_repeat0 by lia. lra. }
  assert (dz = MatTVec A dy) as H2.
  { apply nth_ext with (d := 0) (d' := 0); [congruence |].
    intros i Hi. rewrite Ldz in Hi.
    pose proof (vec_eq_nth _ _ i E2) as Hn.
    unfold dyError, Gemv, Zeros, Axpy in *. vnth_in Hn. lra. }
  rewrite H2, Dot_comm, <- Dot_MatVec_adjoint by exact HA.
  rewrite H1. apply Dot_Zeros_r.
Qed.

End StepFacts.

Module StepProperties.

Import VecFacts ControllerFacts SparseClaims NewtonFacts RunFacts StepFacts.

Section Step.

Variable E : Env.
Variable stage : Stage E.
Variable ctrl : Ctrl E.
Variable A : Matrix.
Variables b c : Vec.

(** The iterate a completed pass hands to the next one. *)
Lemma pass_step numIts md log x y z md1 log1 dx dy dz md' log' it' :
  IPF_pass E stage ctrl A b c (Nrm2 b) (Nrm2 c) numIts md log (x, y, z) =
    Continue E md' log' it' ->
  stage ctrl numIts md log A c x z (residual_c A c y z) (residual_b A b x)
    (residual_mu (centering ctrl) (Dot x z / INR (Width A)) x z) =
    (md1, log1, Some (dx, dy, dz)) ->
  it' = (Axpy (stepLength E ctrl A b c (x, y, z) (dx, dy, dz)) dx x,
         Axpy (stepLength E ctrl A b c (x, y, z) (dx, dy, dz)) dy y,
         Axpy (stepLength E ctrl A b c (x, y, z) (dx, dy, dz)) dz z).
Proof.
  intros Hp Hs.
  destruct (pass_continue_inv E stage ctrl A b c _ _ _ _ _ _ _ _ _ Hp)
    as (log2 & dx' & dy' & dz' & Hs' & _ & -> & _).
  rewrite Hs in Hs'. injection Hs' as _ _ <- <- <-. reflexivity.
Qed.

(** X8: when the direction of a pass satisfies the first Newton equation
    exactly (the cross-check vector dxError = r_b + A dx is zero), the
    step of length alpha scales the primal residual A x - b by
    (1 - alpha), and the primal convergence ratio by |1 - alpha|. *)
Theorem step_scales_primal_residual numIts md log x y z md1 log1 dx dy dz
    md' log' x' y' z' :
  let rb := residual_b A b x in
  let rc := residual_c A c y z in
  let rmu := residual_mu (centering ctrl) (Dot x z / INR (Width A)) x z in
  let alpha := stepLength E ctrl A b c (x, y, z) (dx, dy, dz) in
  IPF_pass E stage ctrl A b c (Nrm2 b) (Nrm2 c) numIts md log (x, y, z) =
    Continue E md' log' (x', y', z') ->
  stage ctrl numIts md log A c x z rc rb rmu = (md1, log1, Some (dx, dy, dz)) ->
  length dx = length x ->
  dxError A rb dx = Zeros (length rb) ->
  residual_b A b x' = Scale (1 - alpha) rb /\
  Nrm2 (residual_b A b x') / (1 + Nrm2 b) =
  Rabs (1 - alpha) * (Nrm2 rb / (1 + Nrm2 b)).
Proof.
  intros rb rc rmu alpha Hp Hs Hlen Herr.
  pose proof (pass_step _ _ _ _ _ _ _ _ _ _ _ _ _ _ Hp Hs) as Hit.
  injection Hit as -> _ _. fold alpha.
  assert (residual_b A b (Axpy alpha dx x) = Scale (1 - alpha) rb) as Hrb.
  { unfold rb, residual_b, Gemv, MatVec, Scale in *.
    apply residual_b_along; [exact Hlen |].
    unfold dxError, Gemv, MatVec, Zeros in Herr. exact Herr. }
  split; [exact Hrb |].
  rewrite Hrb, Nrm2_Scale. unfold Rdiv. ring.
Qed.

(** X9: when the direction of a pass satisfies the second Newton
    equation exactly (the cross-check vector dyError = r_c + A^T dy - dz
    is zero), the step of length alpha scales the dual residual
    A^T y - z + c by (1 - alpha), and the dual convergence ratio by
    |1 - alpha|. *)
Theorem step_scales_dual_residual numIts md log x y z md1 log1 dx dy dz
    md' log' x' y' z' :
  let rb := residual_b A b x in
  let rc := residual_c A c y z in
  let rmu := residual_mu (centering ctrl) (Dot x z / INR (Width A)) x z in
  let alpha := stepLength E ctrl A b c (x, y, z) (dx, dy, dz) in
  IPF_pass E stage ctrl A b c (Nrm2 b) (Nrm2 c) numIts md log (x, y, z) =
    Continue E md' log' (x', y', z') ->
  stage ctrl numIts md log A c x z rc rb rmu = (md1, log1, Some (dx, dy, dz)) ->
  wfMatrix A ->
  length dy = length y -> length dz = length z ->
  dyError A rc dy dz = Zeros (length rc) ->
  residual_c A c y' z' = Scale (1 - alpha) rc /\
  Nrm2 (residual_c A c y' z') / (1 + Nrm2 c) =
  Rabs (1 - alpha) * (Nrm2 rc / (1 + Nrm2 c)).
Proof.
  intros rb rc rmu alpha Hp Hs HA Hdy Hdz Herr.
  pose proof (pass_step _ _ _ _ _ _ _ _ _ _ _ _ _ _ Hp Hs) as Hit.
  injection Hit as _ -> ->. fold alpha.
  assert (residual_c A c (Axpy alpha dy y) (Axpy alpha dz z) =
          Scale (1 - alpha) rc) as Hrc
    by (apply residual_c_along; assumption).
  split; [exact Hrc |].
  rewrite Hrc, Nrm2_Scale. unfold Rdiv. ring.
Qed.

(** X10: when the direction of a pass satisfies the third Newton
    equation exactly (the cross-check vector
    dzError = r_mu + x o dz + z o dx is zero), the step of length alpha
    takes the complementarity gap x^T z to
    (1 - alpha (1 - centering)) x^T z + alpha^2 dx^T dz. *)
Theorem step_updates_complementarity numIts md log x y z md1 log1 dx dy dz
    md' log' x' y' z' :
  let rb := residual_b A b x in
  let rc := residual_c A c y z in
  let rmu := residual_mu (centering ctrl) (Dot x z / INR (Width A)) x z in
  let alpha := stepLength E ctrl A b c (x, y, z) (dx, dy, dz) in
  IPF_pass E stage ctrl A b c (Nrm2 b) (Nrm2 c) numIts md log (x, y, z) =
    Continue E md' log' (x', y', z') ->
  stage ctrl numIts md log A c x z rc rb rmu = (md1, log1, Some (dx, dy, dz)) ->
  (0 < Width A)%nat ->
  length x = Width A -> length z = Width A ->
  length dx = Width A -> length dz = Width A ->
  dzError (Width A) x z rmu dx dz = Zeros (Width A) ->
  Dot x' z' =
  (1 - alpha * (1 - centering ctrl)) * Dot x z + alpha * alpha * Dot dx dz.
Proof.
  intros rb rc rmu alpha Hp Hs Hn Hx Hz Hdx Hdz Herr.
  pose proof (pass_step _ _ _ _ _ _ _ _ _ _ _ _ _ _ Hp Hs) as Hit.
  injection Hit as -> _ ->. fold alpha.
  apply complementarity_along with (n := Width A); assumption.
Qed.

(** X18: at an iterate that is primal and dual feasible (r_b = 0 and
    r_c = 0), a direction for which the three cross-check vectors vanish
    has dx orthogonal to dz, so the step of length alpha shrinks the
    complementarity gap x^T z, and with it the duality measure, by the
    factor 1 - alpha (1 - centering). *)
Theorem feasible_step_shrinks_gap numIts md log x y z md1 log1 dx dy dz
    md' log' x' y' z' :
  let rb := residual_b A b x in
  let rc := residual_c A c y z in
  let rmu := residual_mu (centering ctrl) (Dot x z / INR (Width A)) x z in
  let alpha := stepLength E ctrl A b c (x, y, z) (dx, dy, dz) in
  IPF_pass E stage ctrl A b c (Nrm2 b) (Nrm2 c) numIts md log (x, y, z) =
    Continue E md' log' (x', y', z') ->
  stage ctrl numIts md log A c x z rc rb rmu = (md1, log1, Some (dx, dy, dz)) ->
  wfMatrix A -> (0 < Width A)%nat ->
  length x = Width A -> length z = Width A ->
  length dx = Width A -> length dy = Height A -> length dz = Width A ->
  rb = Zeros (Height A) -> rc = Zeros (Width A) ->
  dxError A rb dx = Zeros (Height A) ->
  dyError A rc dy dz = Zeros (Width A) ->
  dzError (Width A) x z rmu dx dz = Zeros (Width A) ->
  Dot x' z' = (1 - alpha * (1 - centering ctrl)) * Dot x z.
Proof.
  intros rb rc rmu alpha Hp Hs HA Hn Hx Hz Hdx Hdy Hdz Hrb Hrc E1 E2 E3.
  pose proof (pass_step _ _ _ _ _ _ _ _ _ _ _ _ _ _ Hp Hs) as Hit.
  injection Hit as -> _ ->. fold alpha.
  rewrite (complementarity_along alpha (centering ctrl) (Width A)) by assumption.
  rewrite Hrb in E1. rewrite Hrc in E2.
  rewrite (feasible_direction_orthogonal A dx dy dz) by assumption.
  ring.
Qed.

End Step.

(** A completed pass of the demonstration problem. *)
Lemma demo_pass_continues :
  let E := demoEnv demoSolve in
  let ctrl := demoCtrl E tt true 50 FULL_KKT in
  exists log',
    IPF_pass E (denseStage E) ctrl (oneByOne 1) [1] [1] (Nrm2 [1]) (Nrm2 [1])
      0 (emptyMetadata E) [] ([1 / 2], [0], [1]) =
    Continue E (emptyMetadata E) log'
      (Axpy 1 [1 / 2] [1 / 2], Axpy 1 [- (19 / 10)] [0],
       Axpy 1 [- (19 / 10)] [1]).
Proof.
  intros E ctrl. eexists.
  rewrite pass_proceeds.
  - reflexivity.
  - repeat constructor; lra.
  - repeat constructor; lra.
  - intros [H _]. simpl in H. unfold Abs in H. eval_Rabs. lra.
  - discriminate.
Qed.

Lemma step_primal_witness :
  let A := oneByOne 1 in
  residual_b A [1] (Axpy 1 [1 / 2] [1 / 2]) =
    Scale (1 - 1) (residual_b A [1] [1 / 2]) /\
  Nrm2 (residual_b A [1] (Axpy 1 [1 / 2] [1 / 2])) / (1 + Nrm2 [1]) =
    Rabs (1 - 1) * (Nrm2 (residual_b A [1] [1 / 2]) / (1 + Nrm2 [1])).
Proof.
  intros A. destruct demo_pass_continues as [log' Hp].
  eapply (step_scales_primal_residual (demoEnv demoSolve)
           (denseStage (demoEnv demoSolve))
           (demoCtrl (demoEnv demoSolve) tt true 50 FULL_KKT) A [1] [1]
           0%Z (emptyMetadata (demoEnv demoSolve)) [] [1 / 2] [0] [1]
           _ _ [1 / 2] [- (19 / 10)] [- (19 / 10)] _ _ _ _ _ Hp).
  - reflexivity.
  - reflexivity.
  - unfold A. unfold dxError, dyError, dzError, residual_b, residual_c, residual_mu, Gemv,
      MatVec, MatTVec, Axpy, Scale, Shift, DiagonalScale, Zeros, oneByOne;
    simpl; f_equal; lra.
Defined.

Lemma step_dual_witness :
  let A := oneByOne 1 in
  residual_c A [1] (Axpy 1 [- (19 / 10)] [0]) (Axpy 1 [- (19 / 10)] [1]) =
    Scale (1 - 1) (residual_c A [1] [0] [1]) /\
  Nrm2 (residual_c A [1] (Axpy 1 [- (19 / 10)] [0])
          (Axpy 1 [- (19 / 10)] [1])) / (1 + Nrm2 [1]) =
    Rabs (1 - 1) * (Nrm2 (residual_c A [1] [0] [1]) / (1 + Nrm2 [1])).
Proof.
  intros A. destruct demo_pass_continues as [log' Hp].
  eapply (step_scales_dual_residual (demoEnv demoSolve)
           (denseStage (demoEnv demoSolve))
           (demoCtrl (demoEnv demoSolve) tt true 50 FULL_KKT) A [1] [1]
           0%Z (emptyMetadata (demoEnv demoSolve)) [] [1 / 2] [0] [1]
           _ _ [1 / 2] [- (19 / 10)] [- (19 / 10)] _ _ _ _ _ Hp).
  - reflexivity.
  - repeat constructor.
  - reflexivity.
  - reflexivity.
  - unfold A. unfold dxError, dyError, dzError, residual_b, residual_c, residual_mu, Gemv,
      MatVec, MatTVec, Axpy, Scale, Shift, DiagonalScale, Zeros, oneByOne;
    simpl; f_equal; lra.
Defined.

Lemma step_complementarity_witness :
  Dot (Axpy 1 [1 / 2] [1 / 2]) (Axpy 1 [- (19 / 10)] [1]) =
  (1 - 1 * (1 - 1 / 10)) * Dot [1 / 2] [1]
  + 1 * 1 * Dot [1 / 2] [- (19 / 10)].
Proof.
  destruct demo_pass_continues as [log' Hp].
  eapply (step_updates_complementarity (demoEnv demoSolve)
           (denseStage (demoEnv demoSolve))
           (demoCtrl (demoEnv demoSolve) tt true 50 FULL_KKT) (oneByOne 1)
           [1] [1]
           0%Z (emptyMetadata (demoEnv demoSolve)) [] [1 / 2] [0] [1]
           _ _ [1 / 2] [- (19 / 10)] [- (19 / 10)] _ _ _ _ _ Hp).
  - reflexivity.
  - simpl. lia.
  - reflexivity.
  - reflexivity.
  - reflexivity.
  - reflexivity.
  - unfold dxError, dyError, dzError, residual_b, residual_c, residual_mu, Gemv,
      MatVec, MatTVec, Axpy, Scale, Shift, DiagonalScale, Zeros, oneByOne;
    simpl; f_equal; lra.
Defined.

(** A completed pass of the one-by-one problem from a feasible iterate,
    with the scalar solver. *)
Lemma feasible_pass_continues :
  let E := demoEnv scalarSolve in
  let ctrl := demoCtrl E tt true 50 NORMAL_KKT in
  let A := oneByOne 1 in
  exists log1 log' dx dy dz x' y' z',
    IPF_pass E (denseStage E) ctrl A [1 / 2] [1] (Nrm2 [1 / 2]) (Nrm2 [1])
      0 (emptyMetadata E) [] ([1 / 2], [0], [1]) =
      Continue E (emptyMetadata E) log' (x', y', z') /\
    denseStage E ctrl 0%Z (emptyMetadata E) [] A [1] [1 / 2] [1]
      (residual_c A [1] [0] [1]) (residual_b A [1 / 2] [1 / 2])
      (residual_mu (centering ctrl) (Dot [1 / 2] [1] / INR (Width A))
         [1 / 2] [1]) = (emptyMetadata E, log1, Some (dx, dy, dz)) /\
    (length dx = 1%nat /\ length dy = 1%nat /\ length dz = 1%nat) /\
    dxError A (residual_b A [1 / 2] [1 / 2]) dx = Zeros 1 /\
    dyError A (residual_c A [1] [0] [1]) dy dz = Zeros 1 /\
    dzError 1 [1 / 2] [1]
      (residual_mu (centering ctrl) (Dot [1 / 2] [1] / INR (Width A))
         [1 / 2] [1]) dx dz = Zeros 1.
Proof.
  intros E ctrl A.
  assert (exists log1 dx dy dz,
            denseStage E ctrl 0%Z (emptyMetadata E) [] A [1] [1 / 2] [1]
              (residual_c A [1] [0] [1]) (residual_b A [1 / 2] [1 / 2])
              (residual_mu (centering ctrl) (Dot [1 / 2] [1] / INR (Width A))
                 [1 / 2] [1]) = (emptyMetadata E, log1, Some (dx, dy, dz)) /\
            (length dx = 1%nat /\ length dy = 1%nat /\ length dz = 1%nat) /\
            dxError A (residual_b A [1 / 2] [1 / 2]) dx = Zeros 1 /\
            dyError A (residual_c A [1] [0] [1]) dy dz = Zeros 1 /\
            dzError 1 [1 / 2] [1]
              (residual_mu (centering ctrl) (Dot [1 / 2] [1] / INR (Width A))
                 [1 / 2] [1]) dx dz = Zeros 1) as Hs.
  { unfold denseStage. cbn [system SymmetricSolve E demoEnv ctrl demoCtrl].
    unfold scalarSolve. simpl.
    destruct (Req_dec_T _ _) as [He | Hne]; [exfalso; lra |].
    unfold ExpandNormalSolution.
    do 4 eexists. split; [reflexivity |].
    split; [simpl; auto |].
    unfold dxError, dyError, dzError, residual_b, residual_c, residual_mu, Gemv,
      MatVec, MatTVec, Axpy, Scale, Shift, DiagonalScale, DiagonalSolve, Zeros,
      A, oneByOne; simpl.
    repeat split; f_equal; field. }
  destruct Hs as (log1 & dx & dy & dz & Hs & Hl & H1 & H2 & H3).
  exists log1, (log1 ++ [CallLineSearch]), dx, dy, dz.
  do 3 eexists.
  split; [| split; [exact Hs | split; [exact Hl | auto]]].
  rewrite pass_proceeds.
  - rewrite Hs. reflexivity.
  - repeat constructor; lra.
  - repeat constructor; lra.
  - intros [H _]. simpl in H. unfold Abs in H. eval_Rabs. lra.
  - discriminate.
Qed.

Lemma feasible_step_witness :
  let E := demoEnv scalarSolve in
  let ctrl := demoCtrl E tt true 50 NORMAL_KKT in
  exists log' x' y' z',
    IPF_pass E (denseStage E) ctrl (oneByOne 1) [1 / 2] [1] (Nrm2 [1 / 2])
      (Nrm2 [1]) 0 (emptyMetadata E) [] ([1 / 2], [0], [1]) =
      Continue E (emptyMetadata E) log' (x', y', z') /\
    Dot x' z' = (1 - 1 * (1 - 1 / 10)) * Dot [1 / 2] [1].
Proof.
  intros E ctrl.
  destruct feasible_pass_continues
    as (log1 & log' & dx & dy & dz & x' & y' & z' & Hp & Hs & (L1 & L2 & L3)
        & E1 & E2 & E3).
  exists log', x', y', z'. split; [exact Hp |].
  apply (feasible_step_shrinks_gap E (denseStage E) ctrl (oneByOne 1) [1 / 2]
           [1] 0%Z (emptyMetadata E) [] [1 / 2] [0] [1] (emptyMetadata E) log1
           dx dy dz (emptyMetadata E) log' x' y' z' Hp Hs).
  - repeat constructor.
  - simpl. lia.
  - reflexivity.
  - reflexivity.
  - exact L1.
  - exact L2.
  - exact L3.
  - unfold residual_b, Gemv, MatVec, Scale, Zeros, oneByOne; simpl.
    f_equal. lra.
  - unfold residual_c, Gemv, MatTVec, Axpy, Zeros, oneByOne; simpl.
    f_equal. lra.
  - exact E1.
  - exact E2.
  - exact E3.
Defined.

End StepProperties.

(** * The residuals along a run of the dense overloads *)

Module TrajectoryFacts.

Import VecFacts ControllerFacts SparseClaims NewtonFacts NewtonClaims RunFacts
  StepFacts.

Lemma Scale_one (v : Vec) : Scale 1 v = v.
Proof.
  unfold Scale. rewrite <- (map_id v) at 2. apply map_ext. intros a. ring.
Qed.

Lemma Scale_Zeros (k : R) (n : nat) : Scale k (Zeros n) = Zeros n.
Proof.
  unfold Scale, Zeros. induction n as [|n IH]; simpl; [reflexivity |].
  rewrite IH. f_equal. ring.
Qed.

Lemma Scale_Scale (k l : R) (v : Vec) : Scale k (Scale l v) = Scale (k * l) v.
Proof. unfold Scale. rewrite map_map. apply map_ext. intros a. ring. Qed.

(** The first Newton equation makes the cross-check vector dxError zero. *)
Lemma newton_dxError A (rb dx : Vec) :
  length rb = Height A ->
  MatVec A dx = Scale (-1) rb -> dxError A rb dx = Zeros (length rb).
Proof.
  intros _ H. unfold dxError, Gemv. rewrite H. unfold Scale, Zeros. clear H.
  induction rb as [|a rb IH]; simpl; [reflexivity |].
  f_equal; [ring | exact IH].
Qed.

(** The second Newton equation makes the cross-check vector dyError zero. *)
Lemma newton_dyError A (rc dy dz : Vec) :
  wfMatrix A -> length rc = Width A -> length dz = Width A ->
  zipWith Rminus (MatTVec A dy) dz = Scale (-1) rc ->
  dyError A rc dy dz = Zeros (length rc).
Proof.
  intros HA Hrc Hdz H. unfold dyError, Gemv.
  pose proof (length_MatTVec A dy HA) as L.
  apply nth_ext with (d := 0) (d' := 0); [vlen |].
  intros i Hi. assert (i < Width A)%nat as Hi' by (revert Hi; vlen).
  pose proof (vec_eq_nth _ _ i H) as Hn.
  unfold Zeros, Axpy, Scale in *. vnth_in Hn. vnth. lra.
Qed.

Lemma Nrm2_nonneg (v : Vec) : 0 <= Nrm2 v.
Proof. unfold Nrm2. apply sqrt_pos. Qed.

Lemma Nrm2_shrinks (kappa : R) (v : Vec) :
  0 <= kappa <= 1 -> Nrm2 (Scale kappa v) <= Nrm2 v.
Proof.
  intros Hk. rewrite Nrm2_Scale, Rabs_pos_eq by lra.
  pose proof (Nrm2_nonneg v). nra.
Qed.

Lemma length_residual_b A b x :
  length b = Height A -> length (residual_b A b x) = Height A.
Proof. intros H. unfold residual_b. vlen. Qed.

Lemma length_residual_c A c y z :
  wfMatrix A -> length c = Width A -> length z = Width A ->
  length (residual_c A c y z) = Width A.
Proof. intros HA Hc Hz. unfold residual_c. vlen. Qed.

Lemma length_residual_mu s mu x z :
  length x = length z -> length (residual_mu s mu x z) = length x.
Proof. intros H. unfold residual_mu. vlen. Qed.

Section Trajectory.

Variable E : Env.
Variable ctrl : Ctrl E.
Variable A : Matrix.
Variables b c : Vec.

Hypothesis wfA : wfMatrix A.
Hypothesis length_b : length b = Height A.
Hypothesis length_c : length c = Width A.
Hypothesis sound : forall J d, soundSolve E J d.

(** One completed pass of a dense overload with an exact solver. *)
Lemma dense_pass_residuals numIts md log x y z md' log' x' y' z' :
  length x = Width A -> length y = Height A -> length z = Width A ->
  IPF_pass E (denseStage E) ctrl A b c (Nrm2 b) (Nrm2 c) numIts md log
    (x, y, z) = Continue E md' log' (x', y', z') ->
  exists alpha,
    residual_b A b x' = Scale (1 - alpha) (residual_b A b x) /\
    residual_c A c y' z' = Scale (1 - alpha) (residual_c A c y z) /\
    (length x' = Width A /\ length y' = Height A /\ length z' = Width A) /\
    (unitSteps E -> 0 <= alpha <= 1).
Proof.
  intros Hx Hy Hz Hp.
  destruct (pass_continue_inv E (denseStage E) ctrl A b c _ _ _ _ _ _ _ _ _ Hp)
    as (log1 & dx & dy & dz & Hs & _ & Hit & _ & Px & Pz & _).
  injection Hit as -> -> ->.
  set (rb := residual_b A b x) in *.
  set (rc := residual_c A c y z) in *.
  set (rmu := residual_mu (centering ctrl) (Dot x z / INR (Width A)) x z) in *.
  assert (conformal A x z rc rb rmu) as Hc.
  { unfold conformal. repeat split; auto.
    - apply length_residual_c; auto.
    - unfold rmu. rewrite length_residual_mu; congruence.
    - apply length_residual_b; auto. }
  assert (NewtonSystem A x z rc rb rmu (dx, dy, dz)) as HN.
  { pose proof (denseStage_direction E ctrl numIts md log A c x z rc rb rmu)
      as Hd.
    rewrite Hs in Hd. simpl in Hd. symmetry in Hd.
    unfold denseDirection in Hd.
    destruct (SymmetricSolve E _ _) as [d|] eqn:Hsol; [| discriminate].
    injection Hd as <-. apply expand_newton; auto.
    apply sound. exact Hsol. }
  destruct HN as (Ldx & Ldy & Ldz & N1 & N2 & _).
  destruct Hc as (_ & _ & _ & Lrc & _ & Lrb).
  exists (stepLength E ctrl A b c (x, y, z) (dx, dy, dz)).
  split; [| split; [| split]].
  - unfold rb, residual_b, Gemv, MatVec, Scale.
    apply residual_b_along; [congruence |].
    pose proof (newton_dxError A rb dx Lrb N1) as H.
    unfold dxError, rb, residual_b, Gemv, MatVec, Zeros, Scale in H. exact H.
  - apply residual_c_along; auto; try congruence.
    apply newton_dyError; auto.
  - unfold Axpy. rewrite !zipWith_length. lia.
  - intros Hu. apply Hu.
Qed.

Lemma dense_entry_residuals k :
  forall numIts md log x y z numIts' md' log' x' y' z',
  length x = Width A -> length y = Height A -> length z = Width A ->
  IPF_entry E (denseStage E) ctrl A b c (Nrm2 b) (Nrm2 c) k numIts md log
    (x, y, z) = Some (numIts', md', log', (x', y', z')) ->
  exists kappa,
    residual_b A b x' = Scale kappa (residual_b A b x) /\
    residual_c A c y' z' = Scale kappa (residual_c A c y z) /\
    (unitSteps E -> 0 <= kappa <= 1).
Proof.
  induction k as [|k IH];
    intros numIts md log x y z numIts' md' log' x' y' z' Hx Hy Hz He.
  - simpl in He. injection He as _ _ _ <- <- <-.
    exists 1. rewrite !Scale_one. repeat split; auto; lra.
  - cbn [IPF_entry] in He.
    destruct (IPF_pass E (denseStage E) ctrl A b c (Nrm2 b) (Nrm2 c) numIts md
                log (x, y, z)) as [| ? ? ? | md1 log1 [[x1 y1] z1]] eqn:Hp;
      try discriminate.
    destruct (dense_pass_residuals _ _ _ _ _ _ _ _ _ _ _ Hx Hy Hz Hp)
      as (alpha & Hb & Hc & (Hx1 & Hy1 & Hz1) & Ha).
    destruct (IH _ _ _ _ _ _ _ _ _ _ _ _ Hx1 Hy1 Hz1 He)
      as (kappa & Kb & Kc & Kk).
    exists (kappa * (1 - alpha)).
    rewrite Kb, Kc, Hb, Hc, !Scale_Scale.
    split; [reflexivity | split; [reflexivity |]].
    intros Hu. specialize (Ha Hu). specialize (Kk Hu). nra.
Qed.

End Trajectory.

Lemma scalarSolve_sound E J d :
  SymmetricSolve E = scalarSolve -> soundSolve E J d.
Proof.
  intros HE s Hs. rewrite HE in Hs. unfold scalarSolve in Hs.
  destruct J as [w rows]. simpl in Hs.
  destruct rows as [|[|j [|? ?]] [|? ?]]; try discriminate.
  destruct d as [|r [|? ?]]; try discriminate.
  destruct (Req_EM_T j 0) as [|Hj]; [discriminate |].
  injection Hs as <-. split; [reflexivity |].
  unfold MatVec. simpl. f_equal. field. exact Hj.
Qed.

(** The first pass of the one-by-one problem with the scalar solver. *)
Lemma scalar_entry_one (b0 : R) :
  let E := demoEnv scalarSolve in
  let ctrl := demoCtrl E tt true 50 NORMAL_KKT in
  exists log x y z,
    loopEntry E DenseSerial 1 (oneByOne 1) [b0] [1] ([1 / 2], [0], [1]) ctrl =
    Some (1%Z, emptyMetadata E, log, (x, y, z)).
Proof.
  intros E ctrl. unfold loopEntry.
  cbn [denseStart ctrl demoCtrl initialized IPF_entry].
  rewrite pass_proceeds.
  - unfold denseStage. cbn [system SymmetricSolve E demoEnv].
    unfold scalarSolve. simpl.
    destruct (Req_dec_T _ _) as [He | Hne]; [exfalso; lra |].
    unfold ExpandNormalSolution. simpl.
    do 4 eexists. reflexivity.
  - repeat constructor; lra.
  - repeat constructor; lra.
  - intros [H _]. simpl in H. unfold Abs in H.
    replace (1 * (1 / 2) + 0 - - (b0 * 0 + 0)) with (1 / 2) in H by ring.
    eval_Rabs. lra.
  - discriminate.
Qed.

(** The first pass of a one-by-one problem that is neither primal nor
    dual feasible, with the scalar solver and half steps. *)
Lemma half_step_entry_one :
  let E := stepEnv (1 / 2) scalarSolve in
  let ctrl := demoCtrl E tt true 50 NORMAL_KKT in
  let A := oneByOne 1 in
  exists log x y z,
    loopEntry E DenseSerial 1 A [1] [2] ([1 / 2], [0], [1]) ctrl =
      Some (1%Z, emptyMetadata E, log, (x, y, z)) /\
    residual_b A [1] x = Scale (1 / 2) (residual_b A [1] [1 / 2]) /\
    residual_c A [2] y z = Scale (1 / 2) (residual_c A [2] [0] [1]).
Proof.
  intros E ctrl A. unfold loopEntry.
  cbn [denseStart ctrl demoCtrl initialized IPF_entry].
  rewrite pass_proceeds.
  - unfold denseStage. cbn [system SymmetricSolve E stepEnv].
    unfold scalarSolve, A. simpl.
    destruct (Req_dec_T _ _) as [He | Hne]; [exfalso; lra |].
    unfold ExpandNormalSolution. simpl.
    do 4 eexists. split; [reflexivity |].
    unfold residual_b, residual_c, Gemv, MatVec, MatTVec, Axpy, Scale; simpl.
    split; f_equal; field.
  - repeat constructor; lra.
  - repeat constructor; lra.
  - intros [H _]. simpl in H. unfold Abs in H. eval_Rabs. lra.
  - discriminate.
Qed.

End TrajectoryFacts.

Module TrajectoryProperties.

Import VecFacts ControllerFacts RunFacts StepFacts TrajectoryFacts.

(** X14: in the dense overloads with a solver that returns solutions,
    the primal residual A x - b and the dual residual A^T y - z + c at
    every loop entry are the residuals of the first entry scaled by one
    common factor kappa (the product of the 1 - alpha of the steps
    taken).  When the line search returns step lengths between 0 and 1
    the factor lies between 0 and 1, so that neither residual norm
    exceeds its first value: both infeasibilities shrink together. *)
Theorem dense_residuals_shrink_together E rep k A b c it (ctrl : Ctrl E)
    md0 log0 x0 y0 z0 numIts md log x y z :
  rep = DenseSerial \/ rep = DenseDistributed ->
  wfMatrix A -> length b = Height A -> length c = Width A ->
  (forall J d, soundSolve E J d) ->
  denseStart E ctrl A b c it = (md0, log0, (x0, y0, z0)) ->
  length x0 = Width A -> length y0 = Height A -> length z0 = Width A ->
  loopEntry E rep k A b c it ctrl = Some (numIts, md, log, (x, y, z)) ->
  exists kappa,
    residual_b A b x = Scale kappa (residual_b A b x0) /\
    residual_c A c y z = Scale kappa (residual_c A c y0 z0) /\
    (unitSteps E ->
     0 <= kappa <= 1 /\
     Nrm2 (residual_b A b x) <= Nrm2 (residual_b A b x0) /\
     Nrm2 (residual_c A c y z) <= Nrm2 (residual_c A c y0 z0)).
Proof.
  intros Hrep HA Hb Hc Hsound Hstart Hx Hy Hz He.
  assert (IPF_entry E (denseStage E) ctrl A b c (Nrm2 b) (Nrm2 c) k 0 md0 log0
            (x0, y0, z0) = Some (numIts, md, log, (x, y, z))) as He'.
  { destruct Hrep as [-> | ->]; unfold loopEntry in He; rewrite Hstart in He;
      exact He. }
  destruct (dense_entry_residuals E ctrl A b c HA Hb Hc Hsound k _ _ _ _ _ _ _
              _ _ _ _ _ Hx Hy Hz He') as (kappa & Kb & Kc & Kk).
  exists kappa. split; [exact Kb | split; [exact Kc |]].
  intros Hu. specialize (Kk Hu). split; [exact Kk |].
  rewrite Kb, Kc. split; apply Nrm2_shrinks; exact Kk.
Qed.

Lemma dense_residuals_witness :
  let E := stepEnv (1 / 2) scalarSolve in
  let ctrl := demoCtrl E tt true 50 NORMAL_KKT in
  let A := oneByOne 1 in
  unitSteps E /\
  residual_b A [1] [1 / 2] <> Zeros 1 /\
  residual_c A [2] [0] [1] <> Zeros 1 /\
  exists log x y z,
    loopEntry E DenseSerial 1 A [1] [2] ([1 / 2], [0], [1]) ctrl =
      Some (1%Z, emptyMetadata E, log, (x, y, z)) /\
    residual_b A [1] x = Scale (1 / 2) (residual_b A [1] [1 / 2]) /\
    residual_c A [2] y z = Scale (1 / 2) (residual_c A [2] [0] [1]) /\
    exists kappa,
      residual_b A [1] x = Scale kappa (residual_b A [1] [1 / 2]) /\
      residual_c A [2] y z = Scale kappa (residual_c A [2] [0] [1]) /\
      0 <= kappa <= 1 /\
      Nrm2 (residual_b A [1] x) <= Nrm2 (residual_b A [1] [1 / 2]) /\
      Nrm2 (residual_c A [2] y z) <= Nrm2 (residual_c A [2] [0] [1]).
Proof.
  intros E ctrl A.
  assert (unitSteps E) as Hu by (intros ? ? ? ? ? ? ? ?; simpl; lra).
  split; [exact Hu |].
  split; [unfold residual_b, Gemv, MatVec, Scale, Zeros, A, oneByOne; simpl;
          intros H; injection H as H; lra |].
  split; [unfold residual_c, Gemv, MatTVec, Axpy, Zeros, A, oneByOne; simpl;
          intros H; injection H as H; lra |].
  destruct half_step_entry_one as (log & x & y & z & He & Eb & Ec).
  exists log, x, y, z. split; [exact He |].
  split; [exact Eb |]. split; [exact Ec |].
  destruct (dense_residuals_shrink_together E DenseSerial 1 A [1] [2]
              ([1 / 2], [0], [1]) ctrl (emptyMetadata E) [] [1 / 2] [0] [1]
              1%Z (emptyMetadata E) log x y z) as (kappa & Kb & Kc & Kk).
  - left. reflexivity.
  - repeat constructor.
  - reflexivity.
  - reflexivity.
  - intros J d. apply scalarSolve_sound. reflexivity.
  - reflexivity.
  - reflexivity.
  - reflexivity.
  - reflexivity.
  - exact He.
  - exists kappa. split; [exact Kb |]. split; [exact Kc |]. exact (Kk Hu).
Defined.

(** X17: in the dense overloads, with a solver that returns a solution
    whenever it returns and conformal data, feasibility is kept: when the
    first loop entry is primal feasible (A x = b) so is every later one,
    and when it is dual feasible (A^T y - z + c = 0) so is every later
    one. *)
Theorem dense_feasibility_is_kept E rep k A b c it (ctrl : Ctrl E)
    md0 log0 x0 y0 z0 numIts md log x y z :
  rep = DenseSerial \/ rep = DenseDistributed ->
  wfMatrix A -> length b = Height A -> length c = Width A ->
  (forall J d, soundSolve E J d) ->
  denseStart E ctrl A b c it = (md0, log0, (x0, y0, z0)) ->
  length x0 = Width A -> length y0 = Height A -> length z0 = Width A ->
  loopEntry E rep k A b c it ctrl = Some (numIts, md, log, (x, y, z)) ->
  (residual_b A b x0 = Zeros (Height A) ->
   residual_b A b x = Zeros (Height A)) /\
  (residual_c A c y0 z0 = Zeros (Width A) ->
   residual_c A c y z = Zeros (Width A)).
Proof.
  intros Hrep HA Hb Hc Hsound Hstart Hx Hy Hz He.
  assert (IPF_entry E (denseStage E) ctrl A b c (Nrm2 b) (Nrm2 c) k 0 md0 log0
            (x0, y0, z0) = Some (numIts, md, log, (x, y, z))) as He'.
  { destruct Hrep as [-> | ->]; unfold loopEntry in He; rewrite Hstart in He;
      exact He. }
  destruct (dense_entry_residuals E ctrl A b c HA Hb Hc Hsound k _ _ _ _ _ _ _
              _ _ _ _ _ Hx Hy Hz He') as (kappa & Kb & Kc & _).
  split; intros H0.
  - rewrite Kb, H0. apply Scale_Zeros.
  - rewrite Kc, H0. apply Scale_Zeros.
Qed.

Lemma dense_feasibility_witness :
  let E := demoEnv scalarSolve in
  let ctrl := demoCtrl E tt true 50 NORMAL_KKT in
  let A := oneByOne 1 in
  exists log x y z,
    loopEntry E DenseSerial 1 A [1 / 2] [1] ([1 / 2], [0], [1]) ctrl =
      Some (1%Z, emptyMetadata E, log, (x, y, z)) /\
    residual_b A [1 / 2] x = Zeros 1 /\
    residual_c A [1] y z = Zeros 1.
Proof.
  intros E ctrl A.
  destruct (scalar_entry_one (1 / 2)) as (log & x & y & z & He).
  exists log, x, y, z. split; [exact He |].
  destruct (dense_feasibility_is_kept E DenseSerial 1 A [1 / 2] [1]
              ([1 / 2], [0], [1]) ctrl (emptyMetadata E) [] [1 / 2] [0] [1]
              1%Z (emptyMetadata E) log x y z) as [Hb Hc].
  - left. reflexivity.
  - repeat constructor.
  - reflexivity.
  - reflexivity.
  - intros J d. apply scalarSolve_sound. reflexivity.
  - reflexivity.
  - reflexivity.
  - reflexivity.
  - reflexivity.
  - exact He.
  - split.
    + apply Hb.
      unfold residual_b, Gemv, MatVec, Scale, Zeros, A, oneByOne; simpl.
      f_equal. lra.
    + apply Hc.
      unfold residual_c, Gemv, MatTVec, Axpy, Zeros, A, oneByOne; simpl.
      f_equal. lra.
Defined.

End TrajectoryProperties.

(** * The formulation of the linear system *)

Module FormulationFacts.

Import VecFacts ControllerFacts SparseClaims NewtonFacts NewtonClaims RunFacts
  StepFacts TrajectoryFacts.

Lemma positive_not_hasNonPositive (v : Vec) :
  positive v -> hasNonPositive v -> False.
Proof.
  intros Hp He. apply Exists_exists in He. destruct He as (a & Ha & Hle).
  unfold positive in Hp. rewrite Forall_forall in Hp.
  specialize (Hp a Ha). lra.
Qed.

Section Lockstep.

Variable E : Env.
Variable ctrl : Ctrl E.
Variable s' : KKTSystem.
Variable A : Matrix.
Variables b c : Vec.

Hypothesis wfA : wfMatrix A.
Hypothesis length_b : length b = Height A.
Hypothesis length_c : length c = Width A.
Hypothesis rank : fullRowRank A.
Hypothesis sound : forall J d, soundSolve E J d.

(** The direction of a completed pass of a dense overload solves the
    Newton system of the iterate. *)
Lemma dense_pass_newton (ctrl0 : Ctrl E) numIts md log x y z md' log1 dir :
  length x = Width A -> length z = Width A ->
  positive x -> positive z ->
  denseStage E ctrl0 numIts md log A c x z (residual_c A c y z)
    (residual_b A b x)
    (residual_mu (centering ctrl0) (Dot x z / INR (Width A)) x z) =
    (md', log1, Some dir) ->
  conformal A x z (residual_c A c y z) (residual_b A b x)
    (residual_mu (centering ctrl0) (Dot x z / INR (Width A)) x z) /\
  NewtonSystem A x z (residual_c A c y z) (residual_b A b x)
    (residual_mu (centering ctrl0) (Dot x z / INR (Width A)) x z) dir.
Proof.
  intros Hx Hz Px Pz Hs.
  assert (conformal A x z (residual_c A c y z) (residual_b A b x)
            (residual_mu (centering ctrl0) (Dot x z / INR (Width A)) x z))
    as Hc.
  { unfold conformal. repeat split; auto.
    - apply length_residual_c; auto.
    - rewrite length_residual_mu; congruence.
    - apply length_residual_b; auto. }
  split; [exact Hc |].
  pose proof (denseStage_direction E ctrl0 numIts md log A c x z
                (residual_c A c y z) (residual_b A b x)
                (residual_mu (centering ctrl0) (Dot x z / INR (Width A)) x z))
    as Hd.
  rewrite Hs in Hd. simpl in Hd. symmetry in Hd.
  unfold denseDirection in Hd.
  destruct (SymmetricSolve E _ _) as [d|] eqn:Hsol; [| discriminate].
  injection Hd as <-. apply expand_newton; auto.
  apply sound. exact Hsol.
Qed.

(** One pass under the two formulations. *)
Lemma dense_pass_lockstep numIts md1 log1 md2 log2 x y z :
  length x = Width A -> length y = Height A -> length z = Width A ->
  match IPF_pass E (denseStage E) ctrl A b c (Nrm2 b) (Nrm2 c) numIts md1 log1
          (x, y, z),
        IPF_pass E (denseStage E) (withSystem ctrl s') A b c (Nrm2 b) (Nrm2 c)
          numIts md2 log2 (x, y, z)
  with
  | Break _, Break _ => True
  | Throw _ e1 _ _, Throw _ e2 _ _ =>
      e1 = e2 \/ e1 = FactorizationBreakdown \/ e2 = FactorizationBreakdown
  | Continue _ _ _ it1, Continue _ _ _ it2 =>
      it1 = it2 /\
      let '(x1, y1, z1) := it1 in
      length x1 = Width A /\ length y1 = Height A /\ length z1 = Width A
  | Throw _ e _ _, Continue _ _ _ _ => e = FactorizationBreakdown
  | Continue _ _ _ _, Throw _ e _ _ => e = FactorizationBreakdown
  | _, _ => False
  end.
Proof.
  intros Hx Hy Hz.
  destruct (IPF_pass E (denseStage E) ctrl A b c (Nrm2 b) (Nrm2 c) numIts md1
              log1 (x, y, z)) as [| e1 md1' log1' | md1' log1' it1] eqn:P1;
    destruct (IPF_pass E (denseStage E) (withSystem ctrl s') A b c (Nrm2 b)
                (Nrm2 c) numIts md2 log2 (x, y, z))
      as [| e2 md2' log2' | md2' log2' it2] eqn:P2;
    try exact I.
  - (* break, throw *)
    apply pass_break_iff in P1. destruct P1 as (Px & Pz & Hr).
    apply pass_throw_inv in P2. destruct P2 as [D _].
    destruct e2; simpl in D.
    + destruct D as (_ & _ & [D | D]);
        eauto using positive_not_hasNonPositive.
    + tauto.
    + exact D.
    + tauto.
  - (* break, continue *)
    apply pass_break_iff in P1. destruct P1 as (Px & Pz & Hr).
    apply pass_continue_inv in P2.
    destruct P2 as (? & ? & ? & ? & _ & _ & _ & _ & _ & _ & Hn). tauto.
  - (* throw, break *)
    apply pass_break_iff in P2. destruct P2 as (Px & Pz & Hr).
    apply pass_throw_inv in P1. destruct P1 as [D _].
    destruct e1; simpl in D.
    + destruct D as (_ & _ & [D | D]);
        eauto using positive_not_hasNonPositive.
    + tauto.
    + exact D.
    + tauto.
  - (* throw, throw *)
    apply pass_throw_inv in P1. destruct P1 as [D1 _].
    apply pass_throw_inv in P2. destruct P2 as [D2 _].
    destruct e1, e2; simpl in D1, D2; auto; try contradiction.
    + destruct D1 as (-> & -> & _), D2 as (-> & -> & _). auto.
    + exfalso. destruct D1 as (_ & _ & [D | D]);
        [apply (positive_not_hasNonPositive x) | apply (positive_not_hasNonPositive z)];
        tauto.
    + exfalso. destruct D2 as (_ & _ & [D | D]);
        [apply (positive_not_hasNonPositive x) | apply (positive_not_hasNonPositive z)];
        tauto.
    + destruct D1 as (-> & _), D2 as (-> & _). auto.
  - (* throw, continue *)
    apply pass_throw_inv in P1. destruct P1 as [D1 _].
    apply pass_continue_inv in P2.
    destruct P2 as (? & ? & ? & ? & _ & _ & _ & Hcap & Px & Pz & Hn).
    destruct e1; simpl in D1; auto.
    + exfalso. destruct D1 as (_ & _ & [D | D]);
        [apply (positive_not_hasNonPositive x) | apply (positive_not_hasNonPositive z)];
        tauto.
    + exfalso. simpl in Hcap. tauto.
    + contradiction.
  - (* continue, break *)
    apply pass_break_iff in P2. destruct P2 as (Px & Pz & Hr).
    apply pass_continue_inv in P1.
    destruct P1 as (? & ? & ? & ? & _ & _ & _ & _ & _ & _ & Hn). tauto.
  - (* continue, throw *)
    apply pass_throw_inv in P2. destruct P2 as [D2 _].
    apply pass_continue_inv in P1.
    destruct P1 as (? & ? & ? & ? & _ & _ & _ & Hcap & Px & Pz & Hn).
    destruct e2; simpl in D2; auto.
    + exfalso. destruct D2 as (_ & _ & [D | D]);
        [apply (positive_not_hasNonPositive x) | apply (positive_not_hasNonPositive z)];
        tauto.
    + exfalso. tauto.
    + contradiction.
  - (* continue, continue *)
    apply pass_continue_inv in P1.
    destruct P1 as (l1 & dx1 & dy1 & dz1 & S1 & _ & -> & _ & Px & Pz & _).
    apply pass_continue_inv in P2.
    destruct P2 as (l2 & dx2 & dy2 & dz2 & S2 & _ & -> & _ & _ & _ & _).
    destruct (dense_pass_newton ctrl _ _ _ _ _ _ _ _ _ Hx Hz Px Pz S1)
      as [Hc N1].
    destruct (dense_pass_newton (withSystem ctrl s') _ _ _ _ _ _ _ _ _ Hx Hz
                Px Pz S2) as [_ N2].
    cbn [withSystem centering] in N2.
    pose proof (newton_unique _ _ _ _ _ _ _ _ Hc Px Pz rank N1 N2) as Heq.
    injection Heq as <- <- <-.
    destruct N1 as (Ldx & Ldy & Ldz & _).
    split; [reflexivity |].
    unfold Axpy. rewrite !zipWith_length. lia.
Qed.

Lemma dense_loop_lockstep fuel : forall numIts md1 log1 md2 log2 x y z,
  length x = Width A -> length y = Height A -> length z = Width A ->
  let run :=
    IPF_loop E (denseStage E) ctrl A b c (Nrm2 b) (Nrm2 c) fuel numIts md1
      log1 (x, y, z) in
  let run' :=
    IPF_loop E (denseStage E) (withSystem ctrl s') A b c (Nrm2 b) (Nrm2 c)
      fuel numIts md2 log2 (x, y, z) in
  status run <> Raised FactorizationBreakdown ->
  status run' <> Raised FactorizationBreakdown ->
  status run' = status run /\ iterate run' = iterate run.
Proof.
  induction fuel as [|fuel IH]; intros numIts md1 log1 md2 log2 x y z Hx Hy Hz;
    [simpl; auto |].
  cbn [IPF_loop].
  pose proof (dense_pass_lockstep numIts md1 log1 md2 log2 x y z Hx Hy Hz)
    as HL.
  destruct (IPF_pass E (denseStage E) ctrl A b c (Nrm2 b) (Nrm2 c) numIts md1
              log1 (x, y, z)) as [| e1 md1' log1' | md1' log1' it1];
    destruct (IPF_pass E (denseStage E) (withSystem ctrl s') A b c (Nrm2 b)
                (Nrm2 c) numIts md2 log2 (x, y, z))
      as [| e2 md2' log2' | md2' log2' it2];
    try contradiction; cbn [status iterate]; intros H1 H2; auto.
  - destruct HL as [-> | [-> | ->]]; auto; congruence.
  - subst e1. congruence.
  - subst e2. congruence.
  - destruct HL as [<- HL]. destruct it1 as [[x1 y1] z1].
    destruct HL as (Hx1 & Hy1 & Hz1).
    apply (IH (numIts + 1)%Z md1' log1' md2' log2' x1 y1 z1 Hx1 Hy1 Hz1);
      assumption.
Qed.

End Lockstep.

Lemma checkedSolve_sound E guess J d :
  SymmetricSolve E = checkedSolve guess -> soundSolve E J d.
Proof.
  intros HE s Hs. rewrite HE in Hs. unfold checkedSolve in Hs.
  destruct (guess J d) as [s0|]; [| discriminate].
  destruct (list_eq_dec Req_EM_T (MatVec J s0) d) as [Heq|]; [| discriminate].
  destruct (Nat.eq_dec (length s0) (length d)) as [Hl|]; [| discriminate].
  injection Hs as <-. split; assumption.
Qed.

Lemma checkedSolve_accepts guess J d s :
  guess J d = Some s -> MatVec J s = d -> length s = length d ->
  checkedSolve guess J d = Some s.
Proof.
  intros Hg Hs Hl. unfold checkedSolve. rewrite Hg.
  destruct (list_eq_dec Req_EM_T (MatVec J s) d); [| contradiction].
  destruct (Nat.eq_dec (length s) (length d)); [reflexivity | contradiction].
Qed.

(** The demonstration problem under the full and the normal formulation:
    one full step leaves the cone. *)
Lemma checked_run_status s :
  s <> AUGMENTED_KKT ->
  let E := demoEnv (checkedSolve demoSolve) in
  exists a b0,
    status (IPF E DenseSerial 2 (oneByOne 1) [1] [1] ([1 / 2], [0], [1])
              (demoCtrl E tt true 50 s)) = Raised (InfeasibleIterate a b0).
Proof.
  intros Hs E. unfold IPF, IPF_Matrix.
  cbn [denseStart demoCtrl initialized IPF_loop].
  rewrite pass_proceeds.
  - unfold denseStage. cbn [system SymmetricSolve E demoEnv].
    destruct s; [| congruence |]; cbn [system demoCtrl].
    + rewrite (checkedSolve_accepts demoSolve _ _
                 [1 / 2; - (19 / 10); - (19 / 10)]).
      * unfold ExpandSolution.
        cbn [firstn skipn Height Width oneByOne Rows length Nat.add].
        cbv beta iota zeta.
        rewrite pass_outside_cone; [simpl status; eauto |].
        right. simpl. apply Exists_cons_hd. lra.
      * reflexivity.
      * cbn. repeat (f_equal; try lra).
      * reflexivity.
    + rewrite (checkedSolve_accepts demoSolve _ _ [- (19 / 10)]).
      * unfold ExpandNormalSolution.
        cbv beta iota zeta.
        rewrite pass_outside_cone; [simpl status; eauto |].
        right. simpl. apply Exists_cons_hd. lra.
      * reflexivity.
      * cbn. repeat (f_equal; try lra).
      * reflexivity.
  - repeat constructor; lra.
  - repeat constructor; lra.
  - intros [H _]. simpl in H. unfold Abs in H. eval_Rabs. lra.
  - discriminate.
Qed.

End FormulationFacts.

Module FormulationProperties.

Import VecFacts ControllerFacts RunFacts FormulationFacts.

(** X19: in exact arithmetic the run of a dense overload does not depend
    on the formulation of the linear system: for conformal data with a
    constraint matrix of full row rank and a solver that returns a
    solution whenever it returns, two calls that differ in [ctrl.system]
    alone and do not end in a breakdown of the solver end in the same
    way with the same iterate. *)
Theorem dense_run_independent_of_formulation E rep fuel A b c it
    (ctrl : Ctrl E) s' md0 log0 x0 y0 z0 :
  rep = DenseSerial \/ rep = DenseDistributed ->
  wfMatrix A -> length b = Height A -> length c = Width A ->
  fullRowRank A ->
  (forall J d, soundSolve E J d) ->
  denseStart E ctrl A b c it = (md0, log0, (x0, y0, z0)) ->
  length x0 = Width A -> length y0 = Height A -> length z0 = Width A ->
  let run := IPF E rep fuel A b c it ctrl in
  let run' := IPF E rep fuel A b c it (withSystem ctrl s') in
  status run <> Raised FactorizationBreakdown ->
  status run' <> Raised FactorizationBreakdown ->
  status run' = status run /\ iterate run' = iterate run.
Proof.
  intros Hrep HA Hb Hc Hrank Hsound Hstart Hx Hy Hz.
  assert (denseStart E (withSystem ctrl s') A b c it = (md0, log0, (x0, y0, z0)))
    as Hstart' by exact Hstart.
  destruct Hrep as [-> | ->]; unfold IPF, IPF_Matrix, IPF_DistMatrix;
    rewrite Hstart, Hstart';
    apply dense_loop_lockstep; assumption.
Qed.

Lemma formulation_witness :
  let E := demoEnv (checkedSolve demoSolve) in
  let ctrl := demoCtrl E tt true 50 NORMAL_KKT in
  let run :=
    IPF E DenseSerial 2 (oneByOne 1) [1] [1] ([1 / 2], [0], [1]) ctrl in
  let run' :=
    IPF E DenseSerial 2 (oneByOne 1) [1] [1] ([1 / 2], [0], [1])
      (withSystem ctrl FULL_KKT) in
  status run' = status run /\ iterate run' = iterate run.
Proof.
  intros E ctrl.
  apply (dense_run_independent_of_formulation E DenseSerial 2 (oneByOne 1)
           [1] [1] ([1 / 2], [0], [1]) ctrl FULL_KKT (emptyMetadata E) []
           [1 / 2] [0] [1]).
  - left. reflexivity.
  - repeat constructor.
  - reflexivity.
  - reflexivity.
  - exact NewtonClaims.demo_fullRowRank.
  - intros J d. apply (checkedSolve_sound E demoSolve). reflexivity.
  - reflexivity.
  - reflexivity.
  - reflexivity.
  - reflexivity.
  - destruct (checked_run_status NORMAL_KKT) as (a & b0 & H);
      [discriminate |].
    unfold ctrl, E. rewrite H. discriminate.
  - destruct (checked_run_status FULL_KKT) as (a & b0 & H);
      [discriminate |].
    change (withSystem ctrl FULL_KKT) with (demoCtrl E tt true 50 FULL_KKT).
    unfold E. rewrite H. discriminate.
Defined.

End FormulationProperties.

(** * The residual cross-checks *)

Module CrossCheckFacts.

Import VecFacts ControllerFacts SparseClaims NewtonFacts StepFacts.

(** Directions whose three cross-check vectors vanish solve the Newton
    system. *)
Lemma cross_checks_newton A x z rc rb rmu dx dy dz :
  conformal A x z rc rb rmu ->
  length dx = Width A -> length dy = Height A -> length dz = Width A ->
  dxError A rb dx = Zeros (Height A) ->
  dyError A rc dy dz = Zeros (Width A) ->
  dzError (Width A) x z rmu dx dz = Zeros (Width A) ->
  NewtonSystem A x z rc rb rmu (dx, dy, dz).
Proof.
  intros (HA & Hx & Hz & Hrc & Hrmu & Hrb) Ldx Ldy Ldz E1 E2 E3.
  pose proof (length_MatTVec A dy HA) as LT.
  assert (length (MatVec A dx) = Height A) as LM
    by (unfold MatVec, Height; apply length_map).
  unfold NewtonSystem. repeat split; auto.
  - apply nth_ext with (d := 0) (d' := 0);
      [unfold Scale; rewrite length_map; congruence |].
    intros i Hi. rewrite LM in Hi.
    pose proof (vec_eq_nth _ _ i E1) as Hn.
    unfold dxError, Gemv, Zeros in Hn.
    rewrite nth_zipWith in Hn by lia.
    rewrite nth_repeat0 in Hn by lia.
    unfold Scale. rewrite nth_map0 by lia. lra.
  - apply nth_ext with (d := 0) (d' := 0); [vlen |].
    intros i Hi. assert (i < Width A)%nat as Hi' by (revert Hi; vlen).
    pose proof (vec_eq_nth _ _ i E2) as Hn.
    unfold dyError, Gemv, Zeros, Axpy, Scale in *. vnth_in Hn. vnth. lra.
  - apply nth_ext with (d := 0) (d' := 0); [vlen |].
    intros i Hi. assert (i < Width A)%nat as Hi' by (revert Hi; vlen).
    pose proof (dzError_entries (Width A) x z rmu dx dz i Hrmu E3 Hi') as Hn.
    unfold DiagonalScale, Scale in *. vnth. lra.
Qed.

End CrossCheckFacts.

Module CrossCheckProperties.

Import VecFacts ControllerFacts NewtonFacts NewtonClaims CrossCheckFacts.

(** X15: at an iterate inside the cone of a problem whose constraint
    matrix has full row rank, the three residual cross-checks of a pass
    determine the direction: two conformal directions for which dxError,
    dyError and dzError all vanish are equal. *)
Theorem cross_checks_determine_direction A x z rc rb rmu
    dx1 dy1 dz1 dx2 dy2 dz2 :
  conformal A x z rc rb rmu ->
  positive x -> positive z -> fullRowRank A ->
  length dx1 = Width A -> length dy1 = Height A -> length dz1 = Width A ->
  length dx2 = Width A -> length dy2 = Height A -> length dz2 = Width A ->
  dxError A rb dx1 = Zeros (Height A) ->
  dyError A rc dy1 dz1 = Zeros (Width A) ->
  dzError (Width A) x z rmu dx1 dz1 = Zeros (Width A) ->
  dxError A rb dx2 = Zeros (Height A) ->
  dyError A rc dy2 dz2 = Zeros (Width A) ->
  dzError (Width A) x z rmu dx2 dz2 = Zeros (Width A) ->
  (dx1, dy1, dz1) = (dx2, dy2, dz2).
Proof.
  intros Hc Px Pz Hrank L1 L2 L3 L4 L5 L6 E1 E2 E3 E4 E5 E6.
  apply (newton_unique A x z rc rb rmu); auto;
    apply cross_checks_newton; auto.
Qed.

Lemma cross_checks_witness :
  ([1 / 2], [- (19 / 10)], [- (19 / 10)]) =
  ([2 / 4], [- (38 / 20)], [- (57 / 30)]).
Proof.
  apply (cross_checks_determine_direction (oneByOne 1) [1 / 2] [1] [0]
           [- (1 / 2)] [9 / 20]);
    try exact demo_conformal; try exact demo_positive_x;
    try exact demo_positive_z; try exact demo_fullRowRank;
    try reflexivity;
    unfold dxError, dyError, dzError, Gemv, MatVec, MatTVec, Axpy, Zeros,
      oneByOne; simpl; f_equal; lra.
Defined.

End CrossCheckProperties.

(** * Builds and solves *)

Module SolveCountFacts.

Import VecFacts ControllerFacts RunFacts.

Lemma stageOf_solvedOnce E rep ctrl numIts md log A c x z rc rb rmu :
  solvedOnce rep log ->
  solvedOnce rep (snd (fst (stageOf E rep ctrl numIts md log A c x z rc rb rmu))).
Proof.
  destruct rep; unfold solvedOnce, stageOf, denseStage, sparseStage,
    regularizedSolve; intros (H1 & H2 & H3); destruct (system ctrl).
  1-9: destruct (SymmetricSolve E _ _); cbn [fst snd];
       rewrite ?countCalls_append; cbn; repeat split; lia.
  - destruct (numIts =? 0)%Z;
      destruct (RegularizedLDL E _ _ _ _ _ _) as [[? ?]|]; cbn [fst snd];
      rewrite ?countCalls_append; cbn; repeat split; lia.
  - destruct (initialized ctrl && (numIts =? 0)%Z)%bool;
      destruct (RegularizedLDL E _ _ _ _ _ _) as [[? ?]|]; cbn [fst snd];
      rewrite ?countCalls_append; cbn; repeat split; lia.
  - destruct (numIts =? 0)%Z;
      destruct (LDL E _ _ _); cbn [fst snd];
      rewrite ?countCalls_append; cbn; repeat split; lia.
Qed.

Lemma solvedOnce_linesearch {E : Env} rep (log : list (Call E)) :
  solvedOnce rep log -> solvedOnce rep (log ++ [CallLineSearch]).
Proof.
  destruct rep; unfold solvedOnce; rewrite !countCalls_snoc; cbn;
    intros (H1 & H2 & H3); repeat split; lia.
Qed.

End SolveCountFacts.

Module SolveCountProperties.

Import VecFacts ControllerFacts RunFacts SolveCountFacts.

(** X16: every system a solve call builds is handed to the solver
    exactly once: in the dense overloads there are as many SymmetricSolve
    calls as builds and no sparse factorization; in the sparse-distributed
    overload every build is followed by one front-tree set-up and one
    factorization, so the matrix is refactored in every pass, and
    SymmetricSolve is never called. *)
Theorem every_build_is_solved_once E rep fuel A b c it (ctrl : Ctrl E) :
  solvedOnce rep (calls (IPF E rep fuel A b c it ctrl)).
Proof.
  destruct (Representation_eq_SparseSerial rep) as [-> | Hrep].
  - unfold IPF, IPF_SparseMatrix, solvedOnce. cbn. auto.
  - rewrite IPF_as_loop by exact Hrep.
    assert (forall md log it0,
              solvedOnce rep log ->
              solvedOnce rep
                (calls (IPF_loop E (stageOf E rep) ctrl A b c (Nrm2 b) (Nrm2 c)
                          fuel 0 md log it0))) as Hloop.
    { intros md log it0 H0.
      apply (loop_invariant E (stageOf E rep) ctrl A b c
               (fun _ _ log => solvedOnce rep log)
               (fun _ log => solvedOnce rep log)).
      - auto.
      - intros numIts md1 log1 x z rc rb rmu md' log' r H1 Hs.
        pose proof (stageOf_solvedOnce E rep ctrl numIts md1 log1 A c x z rc rb
                      rmu H1) as H2.
        rewrite Hs in H2. cbn [fst snd] in H2.
        split; [exact H2 | apply solvedOnce_linesearch; exact H2].
      - exact H0. }
    destruct (startOf_cases E rep ctrl A b c it)
      as [[_ ->] | [_ (md & it0 & ->)]];
      apply Hloop; destruct rep; unfold solvedOnce; cbn; auto.
Qed.

End SolveCountProperties.

(** * Applying Q and its adjoint *)

Module LQFacts.

Import LQ.

Lemma scaleRows_involutive (d : Vec) : signs d ->
  forall rows, scaleRows d (scaleRows d rows) = rows.
Proof.
  induction 1 as [|a d Ha _ IH]; intros [|r rows]; simpl; auto.
  rewrite IH. f_equal. rewrite map_map.
  rewrite <- (map_id r) at 2. apply map_ext. intros e.
  rewrite <- Rmult_assoc, Ha. ring.
Qed.

Lemma scaleEntries_involutive (d : Vec) : signs d ->
  forall r, scaleEntries d (scaleEntries d r) = r.
Proof.
  induction 1 as [|a d Ha _ IH]; intros [|e r]; simpl; auto.
  rewrite IH. f_equal. rewrite Rmult_assoc, Ha. ring.
Qed.

Lemma scaleView_involutive side d B :
  signs d -> scaleView side d (scaleView side d B) = B.
Proof.
  intros Hd. destruct B as [w rows]. unfold scaleView.
  destruct side; simpl.
  - rewrite scaleRows_involutive by exact Hd. reflexivity.
  - unfold scaleCols. rewrite map_map.
    rewrite <- (map_id rows) at 2. f_equal. apply map_ext. intros r.
    apply scaleEntries_involutive. exact Hd.
Qed.

Lemma scaleRows_ones (d : Vec) : Forall (fun a => a = 1) d ->
  forall rows, scaleRows d rows = rows.
Proof.
  induction 1 as [|a d Ha _ IH]; intros [|r rows]; simpl; auto.
  rewrite IH. f_equal. subst a.
  rewrite <- (map_id r) at 2. apply map_ext. intros e. ring.
Qed.

Lemma scaleEntries_ones (d : Vec) : Forall (fun a => a = 1) d ->
  forall r, scaleEntries d r = r.
Proof.
  induction 1 as [|a d Ha _ IH]; intros [|e r]; simpl; auto.
  rewrite IH. f_equal. subst a. ring.
Qed.

Lemma scaleView_ones side d B :
  Forall (fun a => a = 1) d -> scaleView side d B = B.
Proof.
  intros Hd. destruct B as [w rows]. unfold scaleView.
  destruct side; simpl.
  - rewrite scaleRows_ones by exact Hd. reflexivity.
  - unfold scaleCols. rewrite <- (map_id rows) at 2. f_equal.
    apply map_ext. intros r. apply scaleEntries_ones. exact Hd.
Qed.

Lemma length_scaleRows d rows : length (scaleRows d rows) = length rows.
Proof.
  revert rows. induction d as [|a d IH]; intros [|r rows]; simpl; auto.
Qed.

Lemma length_scaleEntries d r : length (scaleEntries d r) = length r.
Proof. revert r. induction d as [|a d IH]; intros [|e r]; simpl; auto. Qed.

Lemma rows_scaleRows n d rows :
  Forall (fun r => length r = n) rows ->
  Forall (fun r => length r = n) (scaleRows d rows).
Proof.
  intros H. revert d.
  induction H as [|r rows Hr Hrows IH]; intros [|a d]; cbn [scaleRows]; auto.
  constructor; [rewrite length_map; exact Hr | apply IH].
Qed.

Lemma scaleView_shape side d B :
  Width (scaleView side d B) = Width B /\
  Height (scaleView side d B) = Height B /\
  (wfMatrix B -> wfMatrix (scaleView side d B)).
Proof.
  unfold scaleView, Height, wfMatrix. destruct side; simpl.
  - split; [reflexivity |]. split; [apply length_scaleRows |].
    apply rows_scaleRows.
  - split; [reflexivity |]. split; [apply length_map |].
    intros H. unfold scaleCols. apply Forall_map.
    eapply Forall_impl; [| exact H]. cbv beta.
    intros r Hr. rewrite length_scaleEntries. exact Hr.
Qed.

Lemma reverseRows_invert side A t : reflectorsInvert reverseRows side A t.
Proof.
  intros [w rows]. unfold reverseRows. simpl. rewrite rev_involutive. auto.
Qed.

End LQFacts.

Module LQProperties.

Import LQ LQFacts.

(** X11: applying Q and then its adjoint, or the adjoint and then Q,
    from either side restores B, for both overloads, when the entries of
    d are signs and the packed reflectors applied backward undo the
    reflectors applied forward: the diagonal is applied on the side of
    the reflectors that makes the two calls cancel. *)
Theorem ApplyQ_adjoint_inverts_normal apr side A t d B :
  signs d ->
  reflectorsInvert apr side A t ->
  ApplyQ apr side ADJOINT A t d (ApplyQ apr side NORMAL A t d B) = B /\
  ApplyQ apr side NORMAL A t d (ApplyQ apr side ADJOINT A t d B) = B /\
  ApplyQ_Dist apr side ADJOINT A t d (ApplyQ_Dist apr side NORMAL A t d B) = B /\
  ApplyQ_Dist apr side NORMAL A t d (ApplyQ_Dist apr side ADJOINT A t d B) = B.
Proof.
  intros Hd Hinv. unfold ApplyQ, ApplyQ_Dist.
  destruct side; cbn [isNormal isLeft Bool.eqb negb].
  - pose proof (fun X => proj1 (Hinv X)) as H1.
    pose proof (fun X => proj1 (proj2 (Hinv X))) as H2.
    rewrite !scaleView_involutive by exact Hd.
    rewrite !H1, !H2, !scaleView_involutive by exact Hd. auto.
  - pose proof (fun X => proj1 (proj2 (proj2 (Hinv X)))) as H3.
    pose proof (fun X => proj2 (proj2 (proj2 (Hinv X)))) as H4.
    rewrite !scaleView_involutive by exact Hd.
    rewrite !H3, !H4, !scaleView_involutive by exact Hd. auto.
Qed.

Lemma ApplyQ_round_trip_witness :
  let B := mkMatrix 2 [[1; 2]; [3; 4]; [5; 6]] in
  let A := mkMatrix 2 [[1; 0]; [0; 1]] in
  ApplyQ reverseRows LEFT ADJOINT A [0; 0] [1; -1]
    (ApplyQ reverseRows LEFT NORMAL A [0; 0] [1; -1] B) = B /\
  ApplyQ reverseRows LEFT NORMAL A [0; 0] [1; -1]
    (ApplyQ reverseRows LEFT ADJOINT A [0; 0] [1; -1] B) = B /\
  ApplyQ_Dist reverseRows LEFT ADJOINT A [0; 0] [1; -1]
    (ApplyQ_Dist reverseRows LEFT NORMAL A [0; 0] [1; -1] B) = B /\
  ApplyQ_Dist reverseRows LEFT NORMAL A [0; 0] [1; -1]
    (ApplyQ_Dist reverseRows LEFT ADJOINT A [0; 0] [1; -1] B) = B.
Proof.
  intros B A.
  apply (ApplyQ_adjoint_inverts_normal reverseRows LEFT A [0; 0] [1; -1] B).
  - repeat constructor; lra.
  - apply reverseRows_invert.
Defined.

(** X12: when every entry of d is 1, in particular when d is empty,
    either overload applies the packed reflectors once and changes
    nothing else: forward when exactly one of "the orientation is
    NORMAL" and "Q acts from the right" holds, backward otherwise, and
    conjugated exactly for the orientation NORMAL. *)
Theorem ApplyQ_unit_diagonal apr side orientation A t d B :
  Forall (fun a => a = 1) d ->
  let direction :=
    match side, orientation with
    | LEFT, NORMAL => FORWARD
    | LEFT, _ => BACKWARD
    | RIGHT, NORMAL => BACKWARD
    | RIGHT, _ => FORWARD
    end in
  let conjugation :=
    match orientation with NORMAL => CONJUGATED | _ => UNCONJUGATED end in
  ApplyQ apr side orientation A t d B =
    apr side UPPER HORIZONTAL direction conjugation 0%Z A t B /\
  ApplyQ_Dist apr side orientation A t d B =
    apr side UPPER HORIZONTAL direction conjugation 0%Z A t B.
Proof.
  intros Hd. unfold ApplyQ, ApplyQ_Dist.
  destruct side, orientation; cbn [isNormal isLeft Bool.eqb negb];
    rewrite ?scaleView_ones by exact Hd; auto.
Qed.

Lemma ApplyQ_unit_diagonal_witness :
  let B := mkMatrix 2 [[1; 2]; [3; 4]; [5; 6]] in
  let A := mkMatrix 2 [[1; 0]; [0; 1]] in
  ApplyQ reverseRows RIGHT TRANSPOSE A [0; 0] [1; 1] B =
    reverseRows RIGHT UPPER HORIZONTAL FORWARD UNCONJUGATED 0%Z A [0; 0] B /\
  ApplyQ_Dist reverseRows RIGHT TRANSPOSE A [0; 0] [1; 1] B =
    reverseRows RIGHT UPPER HORIZONTAL FORWARD UNCONJUGATED 0%Z A [0; 0] B.
Proof.
  intros B A.
  apply (ApplyQ_unit_diagonal reverseRows RIGHT TRANSPOSE A [0; 0] [1; 1] B).
  repeat constructor.
Defined.

(** X13: either overload returns a matrix of the height and width of B,
    with rows of full length, whenever the packed reflectors keep the
    shape of the matrix they are applied to. *)
Theorem ApplyQ_keeps_shape apr side orientation A t d B :
  (forall s u o dir conj off H tau X,
     wfMatrix X ->
     Width (apr s u o dir conj off H tau X) = Width X /\
     Height (apr s u o dir conj off H tau X) = Height X /\
     wfMatrix (apr s u o dir conj off H tau X)) ->
  wfMatrix B ->
  let Q := ApplyQ apr side orientation A t d B in
  let Q' := ApplyQ_Dist apr side orientation A t d B in
  (Width Q = Width B /\ Height Q = Height B /\ wfMatrix Q) /\
  (Width Q' = Width B /\ Height Q' = Height B /\ wfMatrix Q').
Proof.
  intros Hapr HB Q Q'. subst Q Q'. unfold ApplyQ, ApplyQ_Dist.
  assert (forall X,
            Width X = Width B /\ Height X = Height B /\ wfMatrix X ->
            Width (scaleView side d X) = Width B /\
            Height (scaleView side d X) = Height B /\
            wfMatrix (scaleView side d X)) as Hscale.
  { intros X (W & H & Wf).
    destruct (scaleView_shape side d X) as (W' & H' & Wf').
    split; [congruence | split; [congruence | auto]]. }
  assert (forall s u o dir conj off H tau X,
            Width X = Width B /\ Height X = Height B /\ wfMatrix X ->
            Width (apr s u o dir conj off H tau X) = Width B /\
            Height (apr s u o dir conj off H tau X) = Height B /\
            wfMatrix (apr s u o dir conj off H tau X)) as Hrefl.
  { intros s u o dir conj off H tau X (W & Hh & Wf).
    destruct (Hapr s u o dir conj off H tau X Wf) as (W' & H' & Wf').
    split; [congruence | split; [congruence | auto]]. }
  destruct (negb (Bool.eqb (isNormal orientation) (isLeft side)));
    cbn [negb]; split; auto 6.
Qed.

Lemma reverseRows_shape s u o dir conj off H tau X :
  wfMatrix X ->
  Width (reverseRows s u o dir conj off H tau X) = Width X /\
  Height (reverseRows s u o dir conj off H tau X) = Height X /\
  wfMatrix (reverseRows s u o dir conj off H tau X).
Proof.
  intros Wf. unfold reverseRows, Height, wfMatrix in *. simpl.
  split; [reflexivity |]. split; [apply length_rev |].
  apply Forall_rev. exact Wf.
Qed.

Lemma ApplyQ_keeps_shape_witness :
  let B := mkMatrix 2 [[1; 2]; [3; 4]; [5; 6]] in
  let A := mkMatrix 2 [[1; 0]; [0; 1]] in
  let Q := ApplyQ reverseRows RIGHT NORMAL A [0; 0] [1; -1] B in
  let Q' := ApplyQ_Dist reverseRows RIGHT NORMAL A [0; 0] [1; -1] B in
  (Width Q = 2%nat /\ Height Q = 3%nat /\ wfMatrix Q) /\
  (Width Q' = 2%nat /\ Height Q' = 3%nat /\ wfMatrix Q').
Proof.
  intros B A.
  apply (ApplyQ_keeps_shape reverseRows RIGHT NORMAL A [0; 0] [1; -1] B).
  - apply reverseRows_shape.
  - repeat constructor.
Defined.

End LQProperties.
